(** * The constraint-based type checker of js-slang

    A shallow embedding of [src/typeChecker/typeChecker.ts]: the type terms,
    the constraint store with its unifier ([addToConstraintList]), the
    substitution walker ([applyConstraints]), the three passes of
    [typeCheck], the properties of them that the specification states (C1
    to C10), and further properties read off the code (X1 and following). *)

From stdpp Require Import base strings list gmap pretty.

Set Warnings "-register-all".

Open Scope string_scope.

(** ** Type terms *)

(** [Primitive['name']]. *)
Inductive PrimitiveName := boolean | number | string_ | undefined.

(** [Variable['constraint']]. *)
Inductive Kind := none | addable.

#[global] Instance PrimitiveName_eq_dec : EqDecision PrimitiveName.
Proof. solve_decision. Defined.

#[global] Instance Kind_eq_dec : EqDecision Kind.
Proof. solve_decision. Defined.

(** The tagged union [Type] of the checker.  A [Variable] object is
    mutable in its [constraint] field and is compared by reference in the
    unifier ([LHS === RHS.tailType]).  Every variable object that the
    checker builds is made by [tVar], [tAddable] or [freshTypeVar]; the ones
    that reach the unifier carry a name of their own, drawn from
    [typeIdCounter].  The embedding therefore identifies a variable object
    with its name: [TVariable n] is the object named [n], reference equality
    between variables is equality of names, and the [constraint] field lives
    in the [kinds] map of the state, so that a write through one reference is
    seen through every other. *)
Inductive Ty :=
| TPrimitive (name : PrimitiveName)
| TVariable (name : string)
| TFunction (parameterTypes : list Ty) (returnType : Ty)
| TPair (headType tailType : Ty)
| TList (elementType : Ty)
| TArray (elementType : Ty).

(** [ForAll | Type], the values of [Env.typeMap]. *)
Inductive EnvType :=
| Mono (type : Ty)
| ForAll (polyType : Ty).

Definition tPrimitive (name : PrimitiveName) : Ty := TPrimitive name.
Definition tPair (var1 var2 : Ty) : Ty := TPair var1 var2.
Definition tList (var1 : Ty) : Ty := TList var1.
Definition tArray (var1 : Ty) : Ty := TArray var1.
Definition tForAll (type : Ty) : EnvType := ForAll type.
Definition tBool := tPrimitive boolean.
Definition tNumber := tPrimitive number.
Definition tString := tPrimitive string_.
Definition tUndef := tPrimitive undefined.

(** [tFunc(...types)]: the last type is the return type.  With no argument
    at all JavaScript leaves [returnType] undefined; every call in the
    checker passes at least one type, so the embedding takes the parameter
    types and the return type apart. *)
Definition tFunc (parameterTypes : list Ty) (returnType : Ty) : Ty :=
  TFunction parameterTypes returnType.

Definition isPair (type : Ty) : bool :=
  match type with TPair _ _ => true | _ => false end.

Definition isList (type : Ty) : bool :=
  match type with TList _ => true | _ => false end.

Definition getListType (type : Ty) : option Ty :=
  match type with TList e => Some e | _ => None end.

(** [v === t] for a variable object [v]: [t] is that very variable. *)
Definition sameObject (v : string) (t : Ty) : bool :=
  match t with TVariable n => bool_decide (v = n) | _ => false end.

(** [t.kind === 'variable' && t.name === v]. *)
Definition hasName (t : Ty) (v : string) : bool :=
  match t with TVariable n => bool_decide (n = v) | _ => false end.

(** [v === getListType(t)]; [null] is no variable. *)
Definition sameObjectOpt (v : string) (t : option Ty) : bool :=
  match t with Some t => sameObject v t | None => false end.

(** ** Errors *)

(** Modelled from the spec: [internalTypeErrors.ts] is not among the
    sources.  The specification names four internal errors (section 7:
    UnifyError, ArityError, CyclicError, and the generic InternalTypeError
    that is their base class); the checker's [catch] blocks tell them apart
    with [instanceof].  [JsError] stands for the other exceptions of the run:
    [Error('Unexpected literal type')] and the runtime's own [TypeError] on a
    property read from [undefined] or [null]. *)
Inductive Exn :=
| UnifyError (LHS RHS : Ty)
| InternalDifferentNumberArgumentsError (numExpectedArgs numReceived : nat)
| InternalCyclicReferenceError (name : string)
| InternalTypeError (message : string)
| JsError (message : string).

Definition isInternalTypeError (e : Exn) : bool :=
  match e with JsError _ => false | _ => true end.

Definition isUnifyError (e : Exn) : bool :=
  match e with UnifyError _ _ => true | _ => false end.

Definition isCyclic (e : Exn) : bool :=
  match e with InternalCyclicReferenceError _ => true | _ => false end.

(** The diagnostics of [errors/typeErrors.ts], and [TypeError] of the
    internal errors.  A diagnostic refers to its node by the node's [loc].
    The constructor of [TypeError] also marks the node that it is given
    as 'Untypable'; the embedding makes that write where it records a
    [TypeError] ([markUntypable]). *)
Inductive SourceError :=
| TypeError (node : nat) (e : Exn)
| InvalidArgumentTypesError (node : nat) (args : list nat)
    (expectedTypes : option (list Ty)) (receivedTypes : list Ty)
| DifferentNumberArgumentsError (node : nat) (numExpectedArgs numReceived : nat)
| InvalidTestConditionError (node : nat) (receivedType : Ty)
| ConsequentAlternateMismatchError (node : nat) (consequentType alternateType : Ty)
| CyclicReferenceError (node : nat)
| ReassignConstError (node : nat)
| DifferentAssignmentError (node : nat) (expectedType receivedType : Ty)
| ArrayAssignmentError (node : nat) (arrayType receivedType : Ty)
| InvalidArrayIndexType (node : nat) (receivedType : Ty)
| UndefinedIdentifierError (node : nat) (name : string).

(** ** The state of a run *)

(** [Constraint = [Variable, Type]]; the left side is kept by its name. *)
Definition ConstraintEntry : Type := string * Ty.

(** What the checker mutates: the one [Constraint[]] array that [typeCheck]
    creates and hands to every function (each of them returns the array it
    was given, so all the [newConstraints] of the source are this array),
    the [constraint] fields of the variable objects, and the two module
    variables [typeIdCounter] and [typeErrors]. *)
Record State := mkState {
  constraints : list ConstraintEntry;
  kinds : gmap string Kind;
  typeIdCounter : nat;
  typeErrors : list SourceError
}.

Definition kindOf (s : State) (v : string) : Kind :=
  default none (kinds s !! v).

(** ** A state monad with exceptions

    A JavaScript [throw] leaves every mutation made so far in place, so a
    computation returns its final state with a thrown exception too.
    [OutOfFuel] is the embedding's own outcome: the unifier and the walker
    call each other without a structural measure, and are defined by
    recursion on a bound of the call depth. *)
Inductive Res (A : Type) :=
| Ok (a : A)
| Throw (e : Exn)
| OutOfFuel.
Arguments Ok {A} a.
Arguments Throw {A} e.
Arguments OutOfFuel {A}.

Definition M (A : Type) : Type := State -> Res A * State.

Definition ret {A} (a : A) : M A := fun s => (Ok a, s).

Definition bind {A B} (m : M A) (k : A -> M B) : M B :=
  fun s =>
    match m s with
    | (Ok a, s') => k a s'
    | (Throw e, s') => (Throw e, s')
    | (OutOfFuel, s') => (OutOfFuel, s')
    end.

Definition throw {A} (e : Exn) : M A := fun s => (Throw e, s).

Definition outOfFuel {A} : M A := fun s => (OutOfFuel, s).

(** [try { m } catch (e) { handler(e) }]. *)
Definition tryCatch {A} (m : M A) (handler : Exn -> M A) : M A :=
  fun s =>
    match m s with
    | (Throw e, s') => handler e s'
    | r => r
    end.

Definition getState : M State := fun s => (Ok s, s).

Declare Scope checker_scope.
Delimit Scope checker_scope with checker.
Notation "x <- c1 ;; c2" := (bind c1 (fun x => c2))
  (at level 100, c1 at next level, right associativity) : checker_scope.
Notation "c1 ;; c2" := (bind c1 (fun _ => c2))
  (at level 100, right associativity) : checker_scope.
Open Scope checker_scope.

(** [constraints.push([LHS, RHS])]. *)
Definition push (LHS : string) (RHS : Ty) : M unit :=
  fun s => (Ok tt, mkState (constraints s ++ [(LHS, RHS)]) (kinds s)
                           (typeIdCounter s) (typeErrors s)).

(** [v.constraint = k]. *)
Definition setKind (v : string) (k : Kind) : M unit :=
  fun s => (Ok tt, mkState (constraints s) (<[v := k]> (kinds s))
                           (typeIdCounter s) (typeErrors s)).

(** [typeErrors.push(e)]. *)
Definition pushError (e : SourceError) : M unit :=
  fun s => (Ok tt, mkState (constraints s) (kinds s)
                           (typeIdCounter s) (typeErrors s ++ [e])).

(** [typeIdCounter++], returning the value before. *)
Definition nextId : M nat :=
  fun s => (Ok (typeIdCounter s),
            mkState (constraints s) (kinds s) (S (typeIdCounter s)) (typeErrors s)).

Fixpoint mapM {A B} (f : A -> M B) (l : list A) : M (list B) :=
  match l with
  | [] => ret []
  | x :: l => y <- f x;; ys <- mapM f l;; ret (y :: ys)
  end.

Fixpoint forEach {A} (f : A -> M unit) (l : list A) : M unit :=
  match l with
  | [] => ret tt
  | x :: l => f x;; forEach f l
  end.

(** ** The unifier and the substitution walker *)

(** [contains(type, name)]. *)
Fixpoint contains (type : Ty) (name : string) : bool :=
  match type with
  | TPrimitive _ => false
  | TPair headType tailType => contains headType name || contains tailType name
  | TArray elementType => contains elementType name
  | TList elementType => contains elementType name
  | TVariable n => bool_decide (n = name)
  | TFunction parameterTypes returnType =>
      existsb (fun currentType => contains currentType name) parameterTypes
      || contains returnType name
  end.

(** [cannotBeResolvedIfAddable(LHS, RHS)], with the kind of [LHS] read
    by the caller. *)
Definition cannotBeResolvedIfAddable (LHSconstraint : Kind) (RHS : Ty) : bool :=
  bool_decide (LHSconstraint = addable)
  && match RHS with
     | TVariable _ => false
     | TPrimitive string_ | TPrimitive number => false
     | _ => true
     end.

(** The first entry of the store whose left side is named [name]: the
    [for (const constraint of constraints)] loops of the source return at
    the first match. *)
Definition firstEntry (name : string) (cs : list ConstraintEntry) : option ConstraintEntry :=
  find (fun c => bool_decide (c.1 = name)) cs.

(** [addToConstraintList], [occursOnLeftInConstraintList],
    [applyConstraints] and [__applyConstraints]. *)
Fixpoint addToConstraintList (fuel : nat) (LHS RHS : Ty) {struct fuel} : M unit :=
  match fuel with
  | 0 => outOfFuel
  | S fuel =>
    match LHS, RHS with
    | TPrimitive l, TPrimitive r =>
        if bool_decide (l = r) then ret tt else throw (UnifyError LHS RHS)
    | TArray l, TArray r => addToConstraintList fuel l r
    | TList l, TList r => addToConstraintList fuel l r
    | TPair _ _, TList _ => addToConstraintList fuel RHS LHS
    | TList elementType, TPair _ _ =>
        addToConstraintList fuel RHS (tPair elementType LHS)
    | TPair lh lt, TPair rh rt =>
        addToConstraintList fuel lh rh;;
        addToConstraintList fuel lt rt
    | TVariable v, _ =>
        if hasName RHS v then ret tt
        else if contains RHS v then
          let otherwise :=
            if sameObjectOpt v (getListType RHS) then push v RHS
            else throw (InternalCyclicReferenceError v) in
          match RHS with
          | TPair headType tailType =>
              if sameObject v tailType || sameObjectOpt v (getListType tailType)
              then addToConstraintList fuel LHS (tList headType)
              else otherwise
          | _ => otherwise
          end
        else
          s <- getState;;
          if cannotBeResolvedIfAddable (kindOf s v) RHS
          then throw (UnifyError LHS RHS)
          else
            applied <- applyConstraints fuel RHS;;
            occursOnLeftInConstraintList fuel v applied
    | _, TVariable _ => addToConstraintList fuel RHS LHS
    | TFunction lps lr, TFunction rps rr =>
        if bool_decide (length lps = length rps) then
          forEach (fun p => addToConstraintList fuel p.1 p.2) (zip lps rps);;
          addToConstraintList fuel lr rr
        else throw (InternalDifferentNumberArgumentsError (length rps) (length lps))
    | _, _ => throw (UnifyError LHS RHS)
    end
  end

with occursOnLeftInConstraintList (fuel : nat) (LHS : string) (RHS : Ty)
    {struct fuel} : M unit :=
  match fuel with
  | 0 => outOfFuel
  | S fuel =>
    s <- getState;;
    match firstEntry LHS (constraints s) with
    | Some constraint => addToConstraintList fuel RHS constraint.2
    | None =>
        match RHS with
        | TVariable r =>
            (if bool_decide (kindOf s LHS = addable) && bool_decide (kindOf s r = none)
             then setKind r (kindOf s LHS) else ret tt);;
            if bool_decide (LHS = r) then ret tt else push LHS RHS
        | _ => push LHS RHS
        end
    end
  end

with applyConstraints (fuel : nat) (type : Ty) {struct fuel} : M Ty :=
  match fuel with
  | 0 => outOfFuel
  | S fuel =>
    result <- __applyConstraints fuel type;;
    match result with
    | TList elementType => ret (TPair elementType result)
    | TPair headType (TPair tailHead tailTail as tail) =>
        match getListType tailTail with
        | Some listType =>
            addToConstraintList fuel tailHead listType;;
            addToConstraintList fuel tailHead headType;;
            __applyConstraints fuel tail
        | None => ret result
        end
    | _ => ret result
    end
  end

with __applyConstraints (fuel : nat) (type : Ty) {struct fuel} : M Ty :=
  match fuel with
  | 0 => outOfFuel
  | S fuel =>
    match type with
    | TPrimitive _ => ret type
    | TPair headType tailType =>
        h <- __applyConstraints fuel headType;;
        t <- __applyConstraints fuel tailType;;
        ret (TPair h t)
    | TList elementType =>
        e <- __applyConstraints fuel elementType;;
        ret (TList e)
    | TArray elementType =>
        e <- __applyConstraints fuel elementType;;
        ret (TArray e)
    | TVariable name =>
        s <- getState;;
        match firstEntry name (constraints s) with
        | Some (LHS, RHS) =>
            if contains RHS LHS then
              let otherwise :=
                if sameObjectOpt LHS (getListType RHS) then ret (TList (TVariable LHS))
                else throw (InternalCyclicReferenceError name) in
              match RHS with
              | TPair headType tailType =>
                  if sameObject LHS tailType then ret (TList headType) else otherwise
              | _ => otherwise
              end
            else applyConstraints fuel RHS
        | None => ret type
        end
    | TFunction parameterTypes returnType =>
        ps <- mapM (applyConstraints fuel) parameterTypes;;
        r <- applyConstraints fuel returnType;;
        ret (TFunction ps r)
    end
  end.

(** ** The annotated syntax tree *)

Inductive Typability := Untypable | NotYetTyped | Typed.

#[global] Instance Typability_eq_dec : EqDecision Typability.
Proof. solve_decision. Defined.

(** The fields of [TypeAnnotatedNode] that the checker reads and writes,
    with the node's source location, by which diagnostics name the node.
    [inferredType] is [None] while the field is still undefined. *)
Record Ann := mkAnn {
  loc : nat;
  inferredType : option Ty;
  typability : Typability
}.

(** Modelled from the spec: the class [TypeError] of
    [internalTypeErrors.ts] is not among the sources.  Its constructor,
    [new TypeError(node, e)], sets [node.typability] to 'Untypable', the
    third value that the specification gives the field (section 3, Typed
    AST node) and the one that [traverse] tests on entry; nothing in
    [typeChecker.ts] writes it. *)
Definition markUntypable (a : Ann) : Ann := mkAnn (loc a) (inferredType a) Untypable.

(** The value of a [Literal]: only [typeof] of it is looked at. *)
Inductive LiteralValue :=
| LNull
| LNumber
| LBoolean (b : bool)
| LString (s : string)
| LRegExp.

(** [VariableDeclaration.kind]; [AllowedDeclarations] is ['const' | 'let']. *)
Inductive DeclKind := kvar | klet | kconst.

#[global] Instance DeclKind_eq_dec : EqDecision DeclKind.
Proof. solve_decision. Defined.

(** The node kinds of estree that [traverse] and [_infer] tell apart; every
    other kind is an [OtherNode].  Children that the source reads under a
    non-null assertion ([node.argument!], [node.init!]) are nodes; the
    [alternate] of an [IfStatement], which [traverse] tests, is optional.
    A declarator is its [id] (the name, when the pattern is an Identifier)
    and its [init]; a parameter is an Identifier node, as the casts of the
    source say, kept as its annotation and its name. *)
Inductive Node :=
| Program (a : Ann) (body : list Node)
| UnaryExpression (a : Ann) (operator : string) (argument : Node)
| LogicalExpression (a : Ann) (operator : string) (left right : Node)
| BinaryExpression (a : Ann) (operator : string) (left right : Node)
| ExpressionStatement (a : Ann) (expression : Node)
| BlockStatement (a : Ann) (body : list Node)
| WhileStatement (a : Ann) (test body : Node)
| ForStatement (a : Ann) (init test update body : Node)
| ConditionalExpression (a : Ann) (test consequent alternate : Node)
| IfStatement (a : Ann) (test consequent : Node) (alternate : option Node)
| CallExpression (a : Ann) (callee : Node) (arguments : list Node)
| ReturnStatement (a : Ann) (argument : Node)
| VariableDeclaration (a : Ann) (kind : DeclKind)
    (declarations : list (option string * Node))
| ArrowFunctionExpression (a : Ann) (params : list (Ann * string)) (body : Node)
| FunctionDeclaration (a : Ann) (functionInferredType : option Ty)
    (id : option string) (params : list (Ann * string)) (body : Node)
| AssignmentExpression (a : Ann) (left right : Node)
| ArrayExpression (a : Ann) (elements : list Node)
| MemberExpression (a : Ann) (object property : Node)
| Literal (a : Ann) (value : LiteralValue)
| Identifier (a : Ann) (name : string)
| OtherNode (a : Ann) (type : string).

Definition ann (node : Node) : Ann :=
  match node with
  | Program a _ | UnaryExpression a _ _ | LogicalExpression a _ _ _
  | BinaryExpression a _ _ _ | ExpressionStatement a _ | BlockStatement a _
  | WhileStatement a _ _ | ForStatement a _ _ _ _
  | ConditionalExpression a _ _ _ | IfStatement a _ _ _
  | CallExpression a _ _ | ReturnStatement a _ | VariableDeclaration a _ _
  | ArrowFunctionExpression a _ _ | FunctionDeclaration a _ _ _ _
  | AssignmentExpression a _ _ | ArrayExpression a _ | MemberExpression a _ _
  | Literal a _ | Identifier a _ | OtherNode a _ => a
  end.

(** ** Fresh variables *)

(** [tVar(name)] for a number: a new object named [T<name>], of kind
    [none]. *)
Definition tVar (n : nat) : M Ty :=
  let name := "T" +:+ pretty n in
  setKind name none;; ret (TVariable name).

(** [tVar(typeIdCounter++)], and the pair of statements
    [x = tVar(typeIdCounter); typeIdCounter++] of [traverse]. *)
Definition newTVar : M Ty :=
  n <- nextId;; tVar n.

(** [freshTypeVar(typeVar)]: a copy of the object under a new name. *)
Definition freshTypeVar (typeVar : string) : M string :=
  newVarId <- nextId;;
  s <- getState;;
  let name := "T" +:+ pretty newVarId in
  setKind name (kindOf s typeVar);; ret name.

(** [fresh(monoType, subst)]; [subst] holds every variable of [monoType],
    and a name that it lacks is left as it is. *)
Fixpoint fresh (monoType : Ty) (subst : list (string * string)) : Ty :=
  match monoType with
  | TPrimitive _ => monoType
  | TList e => TList (fresh e subst)
  | TArray e => TArray (fresh e subst)
  | TPair h t => TPair (fresh h subst) (fresh t subst)
  | TVariable n =>
      match find (fun p => bool_decide (p.1 = n)) subst with
      | Some p => TVariable p.2
      | None => monoType
      end
  | TFunction ps r => TFunction (map (fun argType => fresh argType subst) ps) (fresh r subst)
  end.

(** [union(a, b)] of two lists of variables, told apart by name. *)
Definition union_ (a b : list string) : list string :=
  fold_left (fun (sum : list string) (newVal : string) =>
               if bool_decide (newVal ∈ sum) then sum else (sum ++ [newVal])%list) b a.

Fixpoint freeTypeVarsInType (type : Ty) : list string :=
  match type with
  | TPrimitive _ => []
  | TList e => freeTypeVarsInType e
  | TArray e => freeTypeVarsInType e
  | TPair h t => union_ (freeTypeVarsInType h) (freeTypeVarsInType t)
  | TVariable n => [n]
  | TFunction ps r =>
      union_ (fold_left (fun acc currentType => union_ acc (freeTypeVarsInType currentType)) ps [])
             (freeTypeVarsInType r)
  end.

(** [extractFreeVariablesAndGenFresh(polyType)]. *)
Definition extractFreeVariablesAndGenFresh (monoType : Ty) : M Ty :=
  let freeTypeVars := freeTypeVarsInType monoType in
  substitutions <- mapM (fun val => n <- freshTypeVar val;; ret (val, n)) freeTypeVars;;
  ret (fresh monoType substitutions).

(** ** The decoration pass and the resolution pass: [traverse] *)

(** [applyConstraints(t as Type, constraints)] on a field that may still be
    undefined: the walker reads [type.kind] first. *)
Definition applyDefined (fuel : nat) (t : option Ty) : M Ty :=
  match t with
  | Some t => applyConstraints fuel t
  | None => throw (JsError "Cannot read property 'kind' of undefined")
  end.

(** What [traverse] does to the node itself, before its [switch].
    [resolve] says that the [constraints] argument was given. *)
Definition annotate (fuel : nat) (resolve : bool) (a : Ann) : M Ann :=
  if resolve && negb (bool_decide (typability a = Untypable)) then
    tryCatch
      (t <- applyDefined fuel (inferredType a);;
       ret (mkAnn (loc a) (Some t) Typed))
      (fun e =>
         if isInternalTypeError e && negb (isCyclic e)
         then pushError (TypeError (loc a) e);; ret (markUntypable a)
         else ret a)
  else
    t <- newTVar;;
    ret (mkAnn (loc a) (Some t) (typability a)).

(** The same for [functionInferredType] of a function declaration, up to
    the [typeIdCounter++] that follows in both passes.  The step returns
    the annotation of the declaration with the field: a [TypeError] that
    it records marks the declaration. *)
Definition annotateFunction (fuel : nat) (resolve : bool) (a : Ann)
    (functionInferredType : option Ty) : M (Ann * option Ty) :=
  r <- (if resolve then
          tryCatch
            (t <- applyDefined fuel functionInferredType;; ret (a, Some t))
            (fun e =>
               if isCyclic e then
                 pushError (CyclicReferenceError (loc a));;
                 ret (a, functionInferredType)
               else if isInternalTypeError e then
                 pushError (TypeError (loc a) e);;
                 ret (markUntypable a, functionInferredType)
               else ret (a, functionInferredType))
        else
          s <- getState;;
          t <- tVar (typeIdCounter s);;
          ret (a, Some t));;
  nextId;;
  ret r.

Definition traverseParam (fuel : nat) (resolve : bool) (p : Ann * string)
    : M (Ann * string) :=
  a <- annotate fuel resolve p.1;; ret (a, p.2).

(** The [switch] of [traverse]: the children are traversed in the order of
    the source, and the node is put together again around the annotation
    [a] that its own step has left (on a function declaration, as the step
    for [functionInferredType] leaves it). *)
Definition traverseChildren (fuel : nat) (traverse : bool -> Node -> M Node)
    (resolve : bool) (a : Ann) (node : Node) : M Node :=
  match node with
  | Program _ body =>
      body <- mapM (traverse resolve) body;;
      ret (Program a body)
  | UnaryExpression _ operator argument =>
      argument <- traverse resolve argument;;
      ret (UnaryExpression a operator argument)
  | LogicalExpression _ operator leftNode rightNode =>
      leftNode <- traverse resolve leftNode;;
      rightNode <- traverse resolve rightNode;;
      ret (LogicalExpression a operator leftNode rightNode)
  | BinaryExpression _ operator leftNode rightNode =>
      leftNode <- traverse resolve leftNode;;
      rightNode <- traverse resolve rightNode;;
      ret (BinaryExpression a operator leftNode rightNode)
  | ExpressionStatement _ expression =>
      expression <- traverse resolve expression;;
      ret (ExpressionStatement a expression)
  | BlockStatement _ body =>
      body <- mapM (traverse resolve) body;;
      ret (BlockStatement a body)
  | WhileStatement _ test body =>
      test <- traverse resolve test;;
      body <- traverse resolve body;;
      ret (WhileStatement a test body)
  | ForStatement _ init test update body =>
      init <- traverse resolve init;;
      test <- traverse resolve test;;
      update <- traverse resolve update;;
      body <- traverse resolve body;;
      ret (ForStatement a init test update body)
  | ConditionalExpression _ test consequent alternate =>
      test <- traverse resolve test;;
      consequent <- traverse resolve consequent;;
      alternate <- traverse resolve alternate;;
      ret (ConditionalExpression a test consequent alternate)
  | IfStatement _ test consequent alternate =>
      test <- traverse resolve test;;
      consequent <- traverse resolve consequent;;
      alternate <- match alternate with
                   | Some alternate =>
                       alternate <- traverse resolve alternate;;
                       ret (Some alternate)
                   | None => ret None
                   end;;
      ret (IfStatement a test consequent alternate)
  | CallExpression _ callee arguments =>
      callee <- traverse resolve callee;;
      arguments <- mapM (traverse resolve) arguments;;
      ret (CallExpression a callee arguments)
  | ReturnStatement _ argument =>
      argument <- traverse resolve argument;;
      ret (ReturnStatement a argument)
  | VariableDeclaration _ kind declarations =>
      match declarations with
      | (id, init) :: rest =>
          init <- traverse resolve init;;
          ret (VariableDeclaration a kind ((id, init) :: rest))
      | [] => throw (JsError "Cannot read property 'init' of undefined")
      end
  | ArrowFunctionExpression _ params body =>
      params <- mapM (traverseParam fuel resolve) params;;
      body <- traverse resolve body;;
      ret (ArrowFunctionExpression a params body)
  | FunctionDeclaration _ functionInferredType id params body =>
      marked <- annotateFunction fuel resolve a functionInferredType;;
      params <- mapM (traverseParam fuel resolve) params;;
      body <- traverse resolve body;;
      ret (FunctionDeclaration marked.1 marked.2 id params body)
  | AssignmentExpression _ leftNode rightNode =>
      leftNode <- traverse resolve leftNode;;
      rightNode <- traverse resolve rightNode;;
      ret (AssignmentExpression a leftNode rightNode)
  | ArrayExpression _ elements =>
      elements <- mapM (traverse resolve) elements;;
      ret (ArrayExpression a elements)
  | MemberExpression _ object property =>
      object <- traverse resolve object;;
      property <- traverse resolve property;;
      ret (MemberExpression a object property)
  | Literal _ value => ret (Literal a value)
  | Identifier _ name => ret (Identifier a name)
  | OtherNode _ type => ret (OtherNode a type)
  end.

(** [traverse(node, constraints)]. *)
Fixpoint traverse (fuel : nat) (resolve : bool) (node : Node) {struct fuel} : M Node :=
  match fuel with
  | 0 => outOfFuel
  | S fuel =>
      a <- annotate fuel resolve (ann node);;
      traverseChildren fuel (traverse fuel) resolve a node
  end.

(** ** The value statement of a block *)

Section Throwing.
Context {A : Type}.

(** [a || b] when either side may throw ([None]); [b] is not evaluated
    when [a] is true. *)
Definition orElse (a b : option bool) : option bool :=
  match a with
  | Some true => Some true
  | Some false => b
  | None => None
  end.

Variable f : A -> option bool.

(** [l.some(f)]. *)
Fixpoint some (l : list A) : option bool :=
  match l with
  | [] => Some false
  | x :: l => orElse (f x) (some l)
  end.
End Throwing.

(** [statementHasReturn(node)]; [None] is the [TypeError] of reading
    [node.type] from the missing [alternate] of an if statement. *)
Fixpoint statementHasReturn (node : Node) : option bool :=
  match node with
  | IfStatement _ _ consequent alternate =>
      orElse (statementHasReturn consequent)
             (match alternate with
              | Some alternate => statementHasReturn alternate
              | None => None
              end)
  | BlockStatement _ body => some statementHasReturn body
  | ForStatement _ _ _ _ body => statementHasReturn body
  | WhileStatement _ _ body => statementHasReturn body
  | ReturnStatement _ _ => Some true
  | _ => Some false
  end.

Fixpoint stmtHasValueReturningStmt (node : Node) : option bool :=
  match node with
  | ExpressionStatement _ _ => Some true
  | IfStatement _ _ consequent alternate =>
      orElse (stmtHasValueReturningStmt consequent)
             (match alternate with
              | Some alternate => stmtHasValueReturningStmt alternate
              | None => None
              end)
  | BlockStatement _ body => some stmtHasValueReturningStmt body
  | ForStatement _ _ _ _ body => stmtHasValueReturningStmt body
  | WhileStatement _ _ body => stmtHasValueReturningStmt body
  | _ => Some false
  end.

(** [l.findIndex(f)] from index [i] on, for an [f] that may throw: the
    index of the first element that satisfies [f], or [-1]. *)
Fixpoint findIndex {A} (f : Z -> A -> option bool) (l : list A) (i : Z) : option Z :=
  match l with
  | [] => Some (-1)%Z
  | x :: l =>
      match f i x with
      | Some true => Some i
      | Some false => findIndex f l (i + 1)%Z
      | None => None
      end
  end.

(** [returnBlockValueNodeIndexFor(node, isTopLevelAndLastValStmt)], on the
    body of the block.  The downward loop of the source is a search in the
    reversed body. *)
Definition returnBlockValueNodeIndexFor (body : list Node)
    (isTopLevelAndLastValStmt : bool) : option Z :=
  let lastStatementIndex := (Z.of_nat (length body) - 1)%Z in
  if isTopLevelAndLastValStmt then
    match findIndex (fun _ stmt => stmtHasValueReturningStmt stmt) (reverse body) 0%Z with
    | Some k => Some (if bool_decide (k = -1)%Z then lastStatementIndex
                      else (lastStatementIndex - k)%Z)
    | None => None
    end
  else
    findIndex (fun index currentNode =>
                 orElse (Some (bool_decide (index = lastStatementIndex)))
                        (statementHasReturn currentNode))
              body 0%Z.

(** [body[i]] for a JavaScript index. *)
Definition at_ {A} (l : list A) (i : Z) : option A :=
  if bool_decide (0 <= i)%Z then l !! Z.to_nat i else None.

(** ** Environments *)

Record Env := mkEnv {
  typeMap : gmap string EnvType;
  declKindMap : gmap string DeclKind
}.

(** [cloneEnv(env)]: the maps of the embedding are values, a copy of one
    is the map itself. *)
Definition cloneEnv (env : Env) : Env := env.

Definition setType (env : Env) (name : string) (t : EnvType) : Env :=
  mkEnv (<[name := t]> (typeMap env)) (declKindMap env).

Definition setDeclKind (env : Env) (name : string) (k : DeclKind) : Env :=
  mkEnv (typeMap env) (<[name := k]> (declKindMap env)).

(** [envType.kind === 'forall' ? extractFreeVariablesAndGenFresh(envType) : envType]. *)
Definition instantiate (envType : EnvType) : M Ty :=
  match envType with
  | ForAll polyType => extractFreeVariablesAndGenFresh polyType
  | Mono type => ret type
  end.

(** [node.inferredType as Variable].  The field is undefined before the
    decoration pass only; the embedding throws at the read what JavaScript
    throws at the first property access on the value. *)
Definition typeOfAnn (a : Ann) : M Ty :=
  match inferredType a with
  | Some t => ret t
  | None => throw (JsError "Cannot read property 'kind' of undefined")
  end.

Definition typeOfNode (node : Node) : M Ty := typeOfAnn (ann node).

Definition typeOfOpt (t : option Ty) : M Ty :=
  match t with
  | Some t => ret t
  | None => throw (JsError "Cannot read property 'kind' of undefined")
  end.

(** [(t as FunctionType).parameterTypes]. *)
Definition parameterTypesOf (t : Ty) : option (list Ty) :=
  match t with TFunction ps _ => Some ps | _ => None end.

Definition isDeclaration (node : Node) : bool :=
  match node with
  | FunctionDeclaration _ _ _ _ _ | VariableDeclaration _ _ _ => true
  | _ => false
  end.

Definition isFunctionDeclaration (node : Node) : bool :=
  match node with
  | FunctionDeclaration _ _ _ _ _ => true
  | _ => false
  end.

(** The index of the last declaration of a body, [-1] when it has none. *)
Definition lastDeclNodeIndexOf (body : list Node) : Z :=
  match findIndex (fun _ n => Some (isDeclaration n)) (reverse body) 0%Z with
  | Some k => if bool_decide (k = -1)%Z then (-1)%Z
              else (Z.of_nat (length body) - 1 - k)%Z
  | None => (-1)%Z
  end.

Fixpoint foldM {A B} (f : B -> A -> M B) (l : list A) (b : B) : M B :=
  match l with
  | [] => ret b
  | x :: l => b <- f b x;; foldM f l b
  end.

Fixpoint forEachFrom {A} (f : Z -> A -> M unit) (l : list A) (i : Z) : M unit :=
  match l with
  | [] => ret tt
  | x :: l => f i x;; forEachFrom f l (i + 1)%Z
  end.

(** Name of Unary negative builtin operator. *)
Definition NEGATIVE_OP : string := "-_1".

(** ** The inference pass: [infer] and [_infer] *)

Section Infer.
(** The bound of the unifier's call depth, and [infer] on the children. *)
Variable fuel : nat.
Variable infer : Node -> Env -> bool -> M unit.

(** The handler [if (e instanceof UnifyError) typeErrors.push(new
    InvalidTestConditionError(node, e.LHS))]; any other exception ends
    there too. *)
Definition testHandler (a : Ann) (e : Exn) : M unit :=
  match e with
  | UnifyError LHS _ => pushError (InvalidTestConditionError (loc a) LHS)
  | _ => ret tt
  end.

(** The first loop over [declNodes] of a block: the declared names are
    bound to the variables of their declarations. *)
Definition bindDeclaration (newEnv : Env) (declNode : Node) : M Env :=
  match declNode with
  | FunctionDeclaration _ functionInferredType (Some declName) _ _ =>
      t <- typeOfOpt functionInferredType;;
      ret (setDeclKind (setType newEnv declName (Mono t)) declName kconst)
  | VariableDeclaration _ kind declarations =>
      if bool_decide (kind = kvar) then ret newEnv
      else match declarations with
           | [] => throw (JsError "Cannot read property 'id' of undefined")
           | (Some declName, init) :: _ =>
               t <- typeOfNode init;;
               ret (setDeclKind (setType newEnv declName (Mono t)) declName kind)
           | (None, _) :: _ => ret newEnv
           end
  | _ => ret newEnv
  end.

(** The second loop over [declNodes]: the names are bound again, to the
    schemas of the applied types. *)
Definition generaliseDeclaration (newEnv : Env) (declNode : Node) : M Env :=
  match declNode with
  | FunctionDeclaration _ functionInferredType (Some declName) _ _ =>
      t <- applyDefined fuel functionInferredType;;
      ret (setType newEnv declName (tForAll t))
  | VariableDeclaration _ _ declarations =>
      match declarations with
      | [] => throw (JsError "Cannot read property 'id' of undefined")
      | (Some declName, init) :: _ =>
          t <- applyDefined fuel (inferredType (ann init));;
          ret (setType newEnv declName (tForAll t))
      | (None, _) :: _ => ret newEnv
      end
  | _ => ret newEnv
  end.

(** The case of [Program] and [BlockStatement]. *)
Definition inferBlock (a : Ann) (body : list Node) (env : Env)
    (isTopLevelAndLastValStmt : bool) : M unit :=
  let newEnv := cloneEnv env in
  let lastStatementIndex := (Z.of_nat (length body) - 1)%Z in
  match returnBlockValueNodeIndexFor body isTopLevelAndLastValStmt with
  | None => throw (JsError "Cannot read property 'type' of null")
  | Some returnValNodeIndex =>
      let lastDeclNodeIndex := lastDeclNodeIndexOf body in
      let declNodes := reverse (filter (fun n => isDeclaration n = true) body) in
      newEnv <- foldM bindDeclaration declNodes newEnv;;
      match at_ body returnValNodeIndex with
      | None => throw (JsError "Cannot read property 'type' of undefined")
      | Some lastNode =>
          lastNodeType <-
            match isTopLevelAndLastValStmt, lastNode with
            | true, ExpressionStatement _ expression => typeOfNode expression
            | _, _ => typeOfNode lastNode
            end;;
          storedType <- typeOfAnn a;;
          addToConstraintList fuel storedType lastNodeType;;
          let inferStatement (newEnv : Env) (i : Z) (stmt : Node) : M unit :=
            if bool_decide (i = returnValNodeIndex)
            then infer stmt newEnv isTopLevelAndLastValStmt
            else infer stmt newEnv false in
          let n := Z.to_nat (lastDeclNodeIndex + 1) in
          forEachFrom (inferStatement newEnv) (take n body) 0%Z;;
          newEnv <- foldM generaliseDeclaration declNodes newEnv;;
          forEachFrom (inferStatement newEnv) (drop n body) (lastDeclNodeIndex + 1)%Z
      end
  end.

(** The case of [ConditionalExpression] and [IfStatement]. *)
Definition inferIf (a : Ann) (testNode consNode : Node) (alternate : option Node)
    (env : Env) (isTopLevelAndLastValStmt : bool) : M unit :=
  testType <- typeOfNode testNode;;
  consType <- typeOfNode consNode;;
  match alternate with
  | None => throw (JsError "Cannot read property 'inferredType' of null")
  | Some altNode =>
      altType <- typeOfNode altNode;;
      storedType <- typeOfAnn a;;
      addToConstraintList fuel testType tBool;;
      addToConstraintList fuel storedType consType;;
      tryCatch (infer testNode env false) (testHandler a);;
      infer consNode env isTopLevelAndLastValStmt;;
      tryCatch
        (infer altNode env isTopLevelAndLastValStmt;;
         addToConstraintList fuel consType altType)
        (fun e =>
           match e with
           | UnifyError LHS RHS =>
               pushError (ConsequentAlternateMismatchError (loc a) RHS LHS)
           | _ => ret tt
           end)
  end.

(** The case of [ForStatement]. *)
Definition inferFor (a : Ann) (initNode testNode updateNode bodyNode : Node)
    (env : Env) (isTopLevelAndLastValStmt : bool) : M unit :=
  testType <- typeOfNode testNode;;
  bodyType <- typeOfNode bodyNode;;
  storedType <- typeOfAnn a;;
  addToConstraintList fuel storedType bodyType;;
  newEnv <-
    match initNode with
    | VariableDeclaration _ kind declarations =>
        if bool_decide (kind = kvar) then infer initNode env false;; ret env
        else match declarations with
             | [] => throw (JsError "Cannot read property 'id' of undefined")
             | (Some initName, init) :: _ =>
                 let newEnv := cloneEnv env in
                 t <- typeOfNode init;;
                 let newEnv := setDeclKind (setType newEnv initName (Mono t)) initName kind in
                 infer initNode newEnv false;;
                 t <- applyDefined fuel (inferredType (ann init));;
                 ret (setType newEnv initName (tForAll t))
             | (None, _) :: _ => infer initNode env false;; ret env
             end
    | _ => infer initNode env false;; ret env
    end;;
  tryCatch
    (infer testNode newEnv false;;
     addToConstraintList fuel testType tBool)
    (testHandler a);;
  infer updateNode newEnv false;;
  infer bodyNode newEnv isTopLevelAndLastValStmt.

(** The cases of [ArrowFunctionExpression] and, after its first
    constraint, of [FunctionDeclaration]: [functionType] is the variable
    that stands for the function. *)
Definition inferFunction (functionType : Ty) (params : list (Ann * string))
    (bodyNode : Node) (env : Env) : M unit :=
  let newEnv := cloneEnv env in
  paramTypes <- mapM (fun p => typeOfAnn p.1) params;;
  bodyType <- typeOfNode bodyNode;;
  addToConstraintList fuel functionType (tFunc paramTypes bodyType);;
  newEnv <- foldM (fun newEnv p => t <- typeOfAnn p.1;;
                                   ret (setType newEnv p.2 (Mono t)))
                  params newEnv;;
  infer bodyNode newEnv false.
End Infer.

(** [_infer(node, env, constraints, isTopLevelAndLastValStmt)]. *)
Definition _infer (fuel : nat) (infer : Node -> Env -> bool -> M unit)
    (node : Node) (env : Env) (isTopLevelAndLastValStmt : bool) : M unit :=
  match node with
  | UnaryExpression a operator argNode =>
      let op := if bool_decide (operator = "-") then NEGATIVE_OP else operator in
      let funcType := typeMap env !! op in
      argType <- typeOfNode argNode;;
      infer argNode env false;;
      received <- applyDefined fuel (inferredType (ann argNode));;
      storedType <- typeOfAnn a;;
      tryCatch
        (match funcType with
         | Some (Mono funcType) =>
             addToConstraintList fuel (tFunc [argType] storedType) funcType
         | Some (ForAll polyType) =>
             throw (UnifyError (tFunc [argType] storedType) polyType)
         | None => throw (JsError "Cannot read property 'kind' of undefined")
         end)
        (fun e =>
           if isUnifyError e then
             let expectedTypes :=
               match funcType with
               | Some (Mono funcType) => parameterTypesOf funcType
               | _ => None
               end in
             pushError (InvalidArgumentTypesError (loc a) [loc (ann argNode)]
                          expectedTypes [received])
           else ret tt)
  | LogicalExpression a operator leftNode rightNode
  | BinaryExpression a operator leftNode rightNode =>
      match typeMap env !! operator with
      | None => throw (JsError "Cannot read property 'kind' of undefined")
      | Some envType =>
          opType <- instantiate envType;;
          leftType <- typeOfNode leftNode;;
          rightType <- typeOfNode rightNode;;
          let argNodes := [leftNode; rightNode] in
          receivedTypes <-
            mapM (fun argNode =>
                    infer argNode env false;;
                    applyDefined fuel (inferredType (ann argNode)))
                 argNodes;;
          storedType <- typeOfAnn a;;
          tryCatch
            (addToConstraintList fuel (tFunc [leftType; rightType] storedType) opType)
            (fun e =>
               if isUnifyError e then
                 pushError (InvalidArgumentTypesError (loc a)
                              (map (fun n => loc (ann n)) argNodes)
                              (parameterTypesOf opType) receivedTypes)
               else ret tt)
      end
  | ExpressionStatement a expression =>
      storedType <- typeOfAnn a;;
      addToConstraintList fuel storedType tUndef;;
      infer expression env false
  | ReturnStatement a argNode =>
      storedType <- typeOfAnn a;;
      argType <- typeOfNode argNode;;
      addToConstraintList fuel storedType argType;;
      infer argNode env false
  | WhileStatement a testNode bodyNode =>
      testType <- typeOfNode testNode;;
      bodyType <- typeOfNode bodyNode;;
      storedType <- typeOfAnn a;;
      addToConstraintList fuel testType tBool;;
      addToConstraintList fuel storedType bodyType;;
      tryCatch (infer testNode env false) (testHandler a);;
      infer bodyNode env isTopLevelAndLastValStmt
  | ForStatement a initNode testNode updateNode bodyNode =>
      inferFor fuel infer a initNode testNode updateNode bodyNode env
               isTopLevelAndLastValStmt
  | Program a body | BlockStatement a body =>
      inferBlock fuel infer a body env isTopLevelAndLastValStmt
  | Literal a literalVal =>
      storedType <- typeOfAnn a;;
      match literalVal with
      | LNull =>
          t <- newTVar;;
          addToConstraintList fuel storedType (tList t)
      | LNumber => addToConstraintList fuel storedType tNumber
      | LBoolean _ => addToConstraintList fuel storedType tBool
      | LString _ => addToConstraintList fuel storedType tString
      | LRegExp => throw (JsError "Unexpected literal type")
      end
  | Identifier a identifierName =>
      match typeMap env !! identifierName with
      | Some envType =>
          storedType <- typeOfAnn a;;
          t <- instantiate envType;;
          addToConstraintList fuel storedType t
      | None => pushError (UndefinedIdentifierError (loc a) identifierName)
      end
  | ConditionalExpression a testNode consNode altNode =>
      inferIf fuel infer a testNode consNode (Some altNode) env isTopLevelAndLastValStmt
  | IfStatement a testNode consNode alternate =>
      inferIf fuel infer a testNode consNode alternate env isTopLevelAndLastValStmt
  | ArrowFunctionExpression a params bodyNode =>
      storedType <- typeOfAnn a;;
      inferFunction fuel infer storedType params bodyNode env
  | VariableDeclaration a _ declarations =>
      match declarations with
      | [] => throw (JsError "Cannot read property 'init' of undefined")
      | (_, initNode) :: _ =>
          storedType <- typeOfAnn a;;
          addToConstraintList fuel storedType tUndef;;
          infer initNode env false
      end
  | FunctionDeclaration a functionInferredType _ params bodyNode =>
      storedType <- typeOfAnn a;;
      addToConstraintList fuel storedType tUndef;;
      storedFunctionType <- typeOfOpt functionInferredType;;
      inferFunction fuel infer storedFunctionType params bodyNode env
  | CallExpression a calleeNode argNodes =>
      calleeType <- typeOfNode calleeNode;;
      argTypes <- mapM typeOfNode argNodes;;
      storedType <- typeOfAnn a;;
      infer calleeNode env false;;
      calledFunctionType <- applyDefined fuel (inferredType (ann calleeNode));;
      receivedTypes <-
        mapM (fun argNode =>
                infer argNode env false;;
                applyDefined fuel (inferredType (ann argNode)))
             argNodes;;
      tryCatch
        (addToConstraintList fuel (tFunc argTypes storedType) calleeType)
        (fun e =>
           match e with
           | UnifyError _ _ =>
               pushError (InvalidArgumentTypesError (loc a)
                            (map (fun n => loc (ann n)) argNodes)
                            (parameterTypesOf calledFunctionType) receivedTypes)
           | InternalDifferentNumberArgumentsError numExpectedArgs numReceived =>
               pushError (DifferentNumberArgumentsError (loc a) numExpectedArgs numReceived)
           | _ => ret tt
           end)
  | AssignmentExpression a leftNode rightNode =>
      rightType <- typeOfNode rightNode;;
      infer rightNode env false;;
      storedType <- typeOfAnn a;;
      addToConstraintList fuel storedType rightType;;
      match leftNode with
      | Identifier _ name =>
          if bool_decide (declKindMap env !! name = Some kconst)
          then pushError (ReassignConstError (loc a))
          else
            match typeMap env !! name with
            | None => throw (JsError "Cannot read property 'kind' of undefined")
            | Some leftNodeType =>
                expectedType <- instantiate leftNodeType;;
                tryCatch
                  (addToConstraintList fuel rightType expectedType)
                  (fun e =>
                     if isUnifyError e then
                       received <- applyConstraints fuel rightType;;
                       pushError (DifferentAssignmentError (loc a) expectedType received)
                     else ret tt)
            end
      | _ =>
          infer leftNode env false;;
          tryCatch
            (leftType <- typeOfNode leftNode;;
             addToConstraintList fuel rightType leftType)
            (fun e =>
               if isUnifyError e then
                 arrayType <- applyDefined fuel (inferredType (ann leftNode));;
                 received <- applyConstraints fuel rightType;;
                 pushError (ArrayAssignmentError (loc a) (tArray arrayType) received)
               else ret tt)
      end
  | ArrayExpression a elements =>
      forEach (fun element => infer element env false) elements;;
      arrayElementType <- newTVar;;
      storedType <- typeOfAnn a;;
      addToConstraintList fuel storedType (tArray arrayElementType);;
      forEach
        (fun element =>
           tryCatch
             (elementType <- typeOfNode element;;
              addToConstraintList fuel arrayElementType elementType)
             (fun e =>
                if isUnifyError e then
                  arrayType <- applyDefined fuel (inferredType a);;
                  received <- applyDefined fuel (inferredType (ann element));;
                  pushError (ArrayAssignmentError (loc a) arrayType received)
                else ret tt))
        elements
  | MemberExpression a obj property =>
      propertyType <- typeOfNode property;;
      infer property env false;;
      let envType := match obj with
                     | Identifier _ objName => typeMap env !! objName
                     | _ => None
                     end in
      match envType with
      | None => throw (JsError "Cannot read property 'kind' of undefined")
      | Some envType =>
          arrayType <- match envType with
                       | ForAll polyType => extractFreeVariablesAndGenFresh polyType
                       | Mono type => applyConstraints fuel type
                       end;;
          match arrayType with
          | TArray expectedElementType =>
              tryCatch
                (addToConstraintList fuel propertyType tNumber)
                (fun e =>
                   if isUnifyError e then
                     received <- applyConstraints fuel propertyType;;
                     pushError (InvalidArrayIndexType (loc a) received)
                   else ret tt);;
              storedType <- typeOfAnn a;;
              addToConstraintList fuel storedType expectedElementType
          | _ => throw (InternalTypeError "Expected the object to be an array")
          end
      end
  | OtherNode _ _ => ret tt
  end.

(** [infer(node, env, constraints, isTopLevelAndLastValStmt)]. *)
Fixpoint infer (fuel : nat) (node : Node) (env : Env)
    (isTopLevelAndLastValStmt : bool) {struct fuel} : M unit :=
  match fuel with
  | 0 => outOfFuel
  | S fuel =>
      tryCatch
        (_infer fuel (infer fuel) node env isTopLevelAndLastValStmt)
        (fun e => if isCyclic e then ret tt else throw e)
  end.

(** ** The initial environment *)

(** [tVar(name)] for a string, one of the variable objects of the initial
    environment; its kind, [none], is the default of [kindOf]. *)
Definition tVarNamed (name : string) : Ty := TVariable ("T" +:+ name).

(** [tAddable(name)]; the kind of the object is in [initialKinds]. *)
Definition tAddable (name : string) : Ty := TVariable name.

Definition predeclaredNames : list (string * EnvType) := [
  ("Infinity", Mono tNumber);
  ("NaN", Mono tNumber);
  ("undefined", Mono tUndef);
  ("math_LN2", Mono tNumber);
  ("math_LN10", Mono tNumber);
  ("math_LOG2E", Mono tNumber);
  ("math_LOG10E", Mono tNumber);
  ("math_PI", Mono tNumber);
  ("math_SQRT1_2", Mono tNumber);
  ("math_SQRT2", Mono tNumber);
  ("is_boolean", tForAll (tFunc [tVarNamed "T"] tBool));
  ("is_number", tForAll (tFunc [tVarNamed "T"] tBool));
  ("is_string", tForAll (tFunc [tVarNamed "T"] tBool));
  ("is_undefined", tForAll (tFunc [tVarNamed "T"] tBool));
  ("math_abs", Mono (tFunc [tNumber] tNumber));
  ("math_acos", Mono (tFunc [tNumber] tNumber));
  ("math_acosh", Mono (tFunc [tNumber] tNumber));
  ("math_asin", Mono (tFunc [tNumber] tNumber));
  ("math_asinh", Mono (tFunc [tNumber] tNumber));
  ("math_atan", Mono (tFunc [tNumber] tNumber));
  ("math_atan2", Mono (tFunc [tNumber; tNumber] tNumber));
  ("math_atanh", Mono (tFunc [tNumber] tNumber));
  ("math_cbrt", Mono (tFunc [tNumber] tNumber));
  ("math_ceil", Mono (tFunc [tNumber] tNumber));
  ("math_clz32", Mono (tFunc [tNumber] tNumber));
  ("math_cos", Mono (tFunc [tNumber] tNumber));
  ("math_cosh", Mono (tFunc [tNumber] tNumber));
  ("math_exp", Mono (tFunc [tNumber] tNumber));
  ("math_expm1", Mono (tFunc [tNumber] tNumber));
  ("math_floor", Mono (tFunc [tNumber] tNumber));
  ("math_fround", Mono (tFunc [tNumber] tNumber));
  ("math_hypot", tForAll (tVarNamed "T"));
  ("math_imul", Mono (tFunc [tNumber; tNumber] tNumber));
  ("math_log", Mono (tFunc [tNumber] tNumber));
  ("math_log1p", Mono (tFunc [tNumber] tNumber));
  ("math_log2", Mono (tFunc [tNumber] tNumber));
  ("math_log10", Mono (tFunc [tNumber] tNumber));
  ("math_max", tForAll (tVarNamed "T"));
  ("math_min", tForAll (tVarNamed "T"));
  ("math_pow", Mono (tFunc [tNumber; tNumber] tNumber));
  ("math_random", Mono (tFunc [] tNumber));
  ("math_round", Mono (tFunc [tNumber] tNumber));
  ("math_sign", Mono (tFunc [tNumber] tNumber));
  ("math_sin", Mono (tFunc [tNumber] tNumber));
  ("math_sinh", Mono (tFunc [tNumber] tNumber));
  ("math_sqrt", Mono (tFunc [tNumber] tNumber));
  ("math_tan", Mono (tFunc [tNumber] tNumber));
  ("math_tanh", Mono (tFunc [tNumber] tNumber));
  ("math_trunc", Mono (tFunc [tNumber] tNumber));
  ("parse_int", Mono (tFunc [tString; tNumber] tNumber));
  ("prompt", Mono (tFunc [tString] tString));
  ("runtime", Mono (tFunc [] tNumber));
  ("stringify", tForAll (tFunc [tVarNamed "T"] tString));
  ("display", tForAll (tVarNamed "T"));
  ("error", tForAll (tVarNamed "T"))
].

Definition headType := tVarNamed "headType".
Definition tailType := tVarNamed "tailType".

Definition pairFuncs : list (string * EnvType) := [
  ("pair", tForAll (tFunc [headType; tailType] (tPair headType tailType)));
  ("head", tForAll (tFunc [tPair headType tailType] headType));
  ("tail", tForAll (tFunc [tPair headType tailType] tailType));
  ("is_pair", tForAll (tFunc [tVarNamed "T"] tBool));
  ("is_null", tForAll (tFunc [tPair headType tailType] tBool));
  ("set_head", tForAll (tFunc [tPair headType tailType; headType] tUndef));
  ("set_tail", tForAll (tFunc [tPair headType tailType; tailType] tUndef))
].

Definition arrayFuncs : list (string * EnvType) := [
  ("is_array", tForAll (tFunc [tVarNamed "T"] tBool));
  ("array_length", tForAll (tFunc [tArray (tVarNamed "T")] tNumber))
].

Definition listFuncs : list (string * EnvType) := [("list", tForAll (tVarNamed "T1"))].

Definition primitiveFuncs : list (string * EnvType) := [
  (NEGATIVE_OP, Mono (tFunc [tNumber] tNumber));
  ("!", Mono (tFunc [tBool] tBool));
  ("&&", tForAll (tFunc [tBool; tVarNamed "T"] (tVarNamed "T")));
  ("||", tForAll (tFunc [tBool; tVarNamed "T"] (tVarNamed "T")));
  ("===", tForAll (tFunc [tAddable "A"; tAddable "A"] tBool));
  ("!==", tForAll (tFunc [tAddable "A"; tAddable "A"] tBool));
  ("<", tForAll (tFunc [tAddable "A"; tAddable "A"] tBool));
  ("<=", tForAll (tFunc [tAddable "A"; tAddable "A"] tBool));
  (">", tForAll (tFunc [tAddable "A"; tAddable "A"] tBool));
  (">=", tForAll (tFunc [tAddable "A"; tAddable "A"] tBool));
  ("+", tForAll (tFunc [tAddable "A"; tAddable "A"] (tAddable "A")));
  ("%", Mono (tFunc [tNumber; tNumber] tNumber));
  ("-", Mono (tFunc [tNumber; tNumber] tNumber));
  ("*", Mono (tFunc [tNumber; tNumber] tNumber));
  ("/", Mono (tFunc [tNumber; tNumber] tNumber))
].

Definition initialTypeMappings : list (string * EnvType) :=
  (predeclaredNames ++ pairFuncs ++ listFuncs ++ arrayFuncs ++ primitiveFuncs)%list.

(** [new Map(entries)]: a later entry for a key replaces an earlier one. *)
Definition newMap {V} (entries : list (string * V)) : gmap string V :=
  fold_left (fun m p => <[p.1 := p.2]> m) entries ∅.

Definition initialEnv : Env :=
  mkEnv (newMap initialTypeMappings)
        (newMap (map (fun val => (val.1, kconst)) initialTypeMappings)).

(** The [constraint] fields of the variable objects of [initialEnv] that
    are not [none]: the objects made by [tAddable]. *)
Definition initialKinds : gmap string Kind := {["A" := addable]}.

(** ** [typeCheck] *)

(** The state in which a run starts: [typeIdCounter = 0],
    [typeErrors = []], [const constraints = []].  The variable objects of
    an earlier run are out of the new run's reach (the annotations that
    hold them are overwritten before they are read), so the run starts
    with the variable objects of [initialEnv] alone. *)
Definition initialState : State := mkState [] initialKinds 0 [].

Definition reset : M unit := fun _ => (Ok tt, initialState).

(** [typeCheck(program)], run in the state that the module is in, whatever
    an earlier call left there.  The result is the annotated program and
    the [typeErrors] array. *)
Definition typeCheck (fuel : nat) (program : Node) : M (Node * list SourceError) :=
  reset;;
  let env := cloneEnv initialEnv in
  program <- traverse fuel false program;;
  infer fuel program env true;;
  program <- traverse fuel true program;;
  s <- getState;;
  ret (program, typeErrors s).

(** * Notions for the properties *)

(** ** What a computation keeps

    [preserves R m]: the state in which [m] ends is related by [R] to the
    state in which it starts, whatever the outcome of [m]. *)
Definition preserves (R : State -> State -> Prop) {A} (m : M A) : Prop :=
  forall s r s', m s = (r, s') -> R s s'.

(** The store after holds the store before as a prefix. *)
Definition storeGrows (s s' : State) : Prop :=
  constraints s `prefix_of` constraints s'.

(** No diagnostic has been recorded. *)
Definition sameErrors (s s' : State) : Prop := typeErrors s' = typeErrors s.

Definition emptyState : State := mkState [] ∅ 0 [].


(** ** Programs *)

(** The annotation of a node as the parser leaves it. *)
Definition parsed (loc : nat) : Ann := mkAnn loc None NotYetTyped.

(** [function f() { f() + 1; return "a"; }] *)
Definition program_returns_string_after_adding : Node :=
  Program (parsed 0)
    [FunctionDeclaration (parsed 1) None (Some "f") []
       (BlockStatement (parsed 2)
          [ExpressionStatement (parsed 3)
             (BinaryExpression (parsed 4) "+"
                (CallExpression (parsed 5) (Identifier (parsed 6) "f") [])
                (Literal (parsed 7) LNumber));
           ReturnStatement (parsed 8) (Literal (parsed 9) (LString "a"))])].

(** [x => x + !x;] *)
Definition program_adds_booleans : Node :=
  Program (parsed 0)
    [ExpressionStatement (parsed 1)
       (ArrowFunctionExpression (parsed 2) [(parsed 3, "x")]
          (BinaryExpression (parsed 4) "+"
             (Identifier (parsed 5) "x")
             (UnaryExpression (parsed 6) "!" (Identifier (parsed 7) "x"))))].

(** [y => math_abs(1, true ? y : y(1));] *)
Definition program_calls_with_two_arguments : Node :=
  Program (parsed 0)
    [ExpressionStatement (parsed 1)
       (ArrowFunctionExpression (parsed 2) [(parsed 3, "y")]
          (CallExpression (parsed 4) (Identifier (parsed 5) "math_abs")
             [Literal (parsed 6) LNumber;
              ConditionalExpression (parsed 7)
                (Literal (parsed 8) (LBoolean true))
                (Identifier (parsed 9) "y")
                (CallExpression (parsed 10) (Identifier (parsed 11) "y")
                   [Literal (parsed 12) LNumber])]))].

(** [x => true ? x : (true ? x : pair(x, x));] *)
Definition program_list_of_itself : Node :=
  Program (parsed 0)
    [ExpressionStatement (parsed 1)
       (ArrowFunctionExpression (parsed 2) [(parsed 3, "x")]
          (ConditionalExpression (parsed 4)
             (Literal (parsed 5) (LBoolean true))
             (Identifier (parsed 6) "x")
             (ConditionalExpression (parsed 7)
                (Literal (parsed 8) (LBoolean true))
                (Identifier (parsed 9) "x")
                (CallExpression (parsed 10) (Identifier (parsed 11) "pair")
                   [Identifier (parsed 12) "x"; Identifier (parsed 13) "x"]))))].

(** [pair(1, pair('x', null));] *)
Definition program_pair_of_number_and_string : Node :=
  Program (parsed 0)
    [ExpressionStatement (parsed 1)
       (CallExpression (parsed 2) (Identifier (parsed 3) "pair")
          [Literal (parsed 4) LNumber;
           CallExpression (parsed 5) (Identifier (parsed 6) "pair")
             [Literal (parsed 7) (LString "x"); Literal (parsed 8) LNull]])].



(** The call expressions of a tree, in source order: the location of each,
    the type that its callee is annotated with, and the number of its
    arguments. *)
Fixpoint callSites (node : Node) : list (nat * option Ty * nat) :=
  match node with
  | Program _ body | BlockStatement _ body => flat_map callSites body
  | UnaryExpression _ _ argument => callSites argument
  | LogicalExpression _ _ l r | BinaryExpression _ _ l r
  | AssignmentExpression _ l r | MemberExpression _ l r
  | WhileStatement _ l r => (callSites l ++ callSites r)%list
  | ExpressionStatement _ expression => callSites expression
  | ForStatement _ init test update body =>
      (callSites init ++ callSites test ++ callSites update ++ callSites body)%list
  | ConditionalExpression _ test consequent alternate =>
      (callSites test ++ callSites consequent ++ callSites alternate)%list
  | IfStatement _ test consequent alternate =>
      (callSites test ++ callSites consequent
       ++ match alternate with Some alternate => callSites alternate | None => [] end)%list
  | CallExpression a callee arguments =>
      ((loc a, inferredType (ann callee), length arguments)
       :: callSites callee ++ flat_map callSites arguments)%list
  | ReturnStatement _ argument => callSites argument
  | VariableDeclaration _ _ declarations =>
      flat_map (fun d => callSites d.2) declarations
  | ArrowFunctionExpression _ _ body => callSites body
  | FunctionDeclaration _ _ _ _ body => callSites body
  | ArrayExpression _ elements => flat_map callSites elements
  | Literal _ _ | Identifier _ _ | OtherNode _ _ => []
  end.

(** ** The specification of [applyConstraints] *)


(** ** Declarations with several declarators *)



(** ** Trees up to typability *)

Definition eraseAnn (a : Ann) : Ann := mkAnn (loc a) (inferredType a) NotYetTyped.

(** The tree with the typability of every node that [traverse] visits set
    to NotYetTyped. *)
Fixpoint erase (node : Node) : Node :=
  match node with
  | Program a body => Program (eraseAnn a) (erase <$> body)
  | UnaryExpression a operator argument =>
      UnaryExpression (eraseAnn a) operator (erase argument)
  | LogicalExpression a operator l r =>
      LogicalExpression (eraseAnn a) operator (erase l) (erase r)
  | BinaryExpression a operator l r =>
      BinaryExpression (eraseAnn a) operator (erase l) (erase r)
  | ExpressionStatement a expression => ExpressionStatement (eraseAnn a) (erase expression)
  | BlockStatement a body => BlockStatement (eraseAnn a) (erase <$> body)
  | WhileStatement a test body => WhileStatement (eraseAnn a) (erase test) (erase body)
  | ForStatement a init test update body =>
      ForStatement (eraseAnn a) (erase init) (erase test) (erase update) (erase body)
  | ConditionalExpression a test consequent alternate =>
      ConditionalExpression (eraseAnn a) (erase test) (erase consequent) (erase alternate)
  | IfStatement a test consequent alternate =>
      IfStatement (eraseAnn a) (erase test) (erase consequent)
        (match alternate with
         | Some alternate => Some (erase alternate)
         | None => None
         end)
  | CallExpression a callee arguments =>
      CallExpression (eraseAnn a) (erase callee) (erase <$> arguments)
  | ReturnStatement a argument => ReturnStatement (eraseAnn a) (erase argument)
  | VariableDeclaration a kind declarations =>
      VariableDeclaration (eraseAnn a) kind
        (match declarations with
         | (id, init) :: rest => (id, erase init) :: rest
         | [] => []
         end)
  | ArrowFunctionExpression a params body =>
      ArrowFunctionExpression (eraseAnn a) (prod_map eraseAnn (fun x => x) <$> params) (erase body)
  | FunctionDeclaration a functionInferredType id params body =>
      FunctionDeclaration (eraseAnn a) functionInferredType id
        (prod_map eraseAnn (fun x => x) <$> params) (erase body)
  | AssignmentExpression a l r => AssignmentExpression (eraseAnn a) (erase l) (erase r)
  | ArrayExpression a elements => ArrayExpression (eraseAnn a) (erase <$> elements)
  | MemberExpression a object property =>
      MemberExpression (eraseAnn a) (erase object) (erase property)
  | Literal a value => Literal (eraseAnn a) value
  | Identifier a name => Identifier (eraseAnn a) name
  | OtherNode a type => OtherNode (eraseAnn a) type
  end.

(** Induction on a tree, through the lists of children. *)
Section NodeInduction.
Variable P : Node -> Prop.
Hypothesis HProgram : forall a body, Forall P body -> P (Program a body).
Hypothesis HUnary : forall a op x, P x -> P (UnaryExpression a op x).
Hypothesis HLogical : forall a op l r, P l -> P r -> P (LogicalExpression a op l r).
Hypothesis HBinary : forall a op l r, P l -> P r -> P (BinaryExpression a op l r).
Hypothesis HExpression : forall a x, P x -> P (ExpressionStatement a x).
Hypothesis HBlock : forall a body, Forall P body -> P (BlockStatement a body).
Hypothesis HWhile : forall a t b, P t -> P b -> P (WhileStatement a t b).
Hypothesis HFor : forall a i t u b, P i -> P t -> P u -> P b -> P (ForStatement a i t u b).
Hypothesis HConditional : forall a t c x, P t -> P c -> P x -> P (ConditionalExpression a t c x).
Hypothesis HIf : forall a t c x, P t -> P c ->
  match x with Some x => P x | None => True end -> P (IfStatement a t c x).
Hypothesis HCall : forall a c args, P c -> Forall P args -> P (CallExpression a c args).
Hypothesis HReturn : forall a x, P x -> P (ReturnStatement a x).
Hypothesis HVariable : forall a k ds,
  match ds with d :: _ => P d.2 | [] => True end -> P (VariableDeclaration a k ds).
Hypothesis HArrow : forall a ps b, P b -> P (ArrowFunctionExpression a ps b).
Hypothesis HFunction : forall a f i ps b, P b -> P (FunctionDeclaration a f i ps b).
Hypothesis HAssignment : forall a l r, P l -> P r -> P (AssignmentExpression a l r).
Hypothesis HArray : forall a xs, Forall P xs -> P (ArrayExpression a xs).
Hypothesis HMember : forall a o p, P o -> P p -> P (MemberExpression a o p).
Hypothesis HLiteral : forall a v, P (Literal a v).
Hypothesis HIdentifier : forall a x, P (Identifier a x).
Hypothesis HOther : forall a t, P (OtherNode a t).

Fixpoint Node_induction (node : Node) : P node :=
  let all := fix all (l : list Node) : Forall P l :=
    match l with
    | [] => ListDef.Forall_nil P
    | x :: l => ListDef.Forall_cons P x l (Node_induction x) (all l)
    end in
  match node with
  | Program a body => HProgram a body (all body)
  | UnaryExpression a op x => HUnary a op x (Node_induction x)
  | LogicalExpression a op l r => HLogical a op l r (Node_induction l) (Node_induction r)
  | BinaryExpression a op l r => HBinary a op l r (Node_induction l) (Node_induction r)
  | ExpressionStatement a x => HExpression a x (Node_induction x)
  | BlockStatement a body => HBlock a body (all body)
  | WhileStatement a t b => HWhile a t b (Node_induction t) (Node_induction b)
  | ForStatement a i t u b =>
      HFor a i t u b (Node_induction i) (Node_induction t) (Node_induction u)
           (Node_induction b)
  | ConditionalExpression a t c x =>
      HConditional a t c x (Node_induction t) (Node_induction c) (Node_induction x)
  | IfStatement a t c x =>
      HIf a t c x (Node_induction t) (Node_induction c)
          (match x with Some x => Node_induction x | None => I end)
  | CallExpression a c args => HCall a c args (Node_induction c) (all args)
  | ReturnStatement a x => HReturn a x (Node_induction x)
  | VariableDeclaration a k ds =>
      HVariable a k ds
        (match ds with d :: _ => Node_induction d.2 | [] => I end)
  | ArrowFunctionExpression a ps b => HArrow a ps b (Node_induction b)
  | FunctionDeclaration a f i ps b => HFunction a f i ps b (Node_induction b)
  | AssignmentExpression a l r => HAssignment a l r (Node_induction l) (Node_induction r)
  | ArrayExpression a xs => HArray a xs (all xs)
  | MemberExpression a o p => HMember a o p (Node_induction o) (Node_induction p)
  | Literal a v => HLiteral a v
  | Identifier a x => HIdentifier a x
  | OtherNode a t => HOther a t
  end.
End NodeInduction.

(** ** What [traverse] leaves on a node *)


(** ** Passes that can be run again *)

Definition isTypeError (d : SourceError) : bool :=
  match d with
  | TypeError _ _ => true
  | _ => false
  end.

(** The diagnostics hold no [TypeError]: no node has been marked. *)
Definition unmarked (s : State) : Prop :=
  Forall (fun d => isTypeError d = false) (typeErrors s).

(** A pass [F], run first as decoration and then as resolution, can be run
    again on its own result when the resolution has ended without a
    [TypeError] among the diagnostics: the second decoration gives the
    first one back up to typability ([e] forgets it), and the second
    resolution ends like the first. *)
Definition Again {X} (F : bool -> X -> M X) (e : X -> X) : Prop :=
  forall x s0 x1 sA s x2 s',
    F false x s0 = (Ok x1, sA) ->
    F true x1 s = (Ok x2, s') ->
    unmarked s' ->
    exists x3, F false x2 s0 = (Ok x3, sA) /\ e x3 = e x1 /\ F true x3 s = (Ok x2, s').

(** A mark on the hypotheses that a proof has dealt with. *)
Definition kept (P : Prop) : Prop := P.

(** ** Induction on a type term *)

(** Induction on a type, through the parameter list of a function type. *)
Section TyInduction.
Variable P : Ty -> Prop.
Hypothesis HPrimitive : forall name, P (TPrimitive name).
Hypothesis HVariable : forall name, P (TVariable name).
Hypothesis HFunction : forall ps r, Forall P ps -> P r -> P (TFunction ps r).
Hypothesis HPair : forall h t, P h -> P t -> P (TPair h t).
Hypothesis HList : forall e, P e -> P (TList e).
Hypothesis HArray : forall e, P e -> P (TArray e).

Fixpoint Ty_induction (t : Ty) : P t :=
  let all := fix all (l : list Ty) : Forall P l :=
    match l with
    | [] => ListDef.Forall_nil P
    | x :: l => ListDef.Forall_cons P x l (Ty_induction x) (all l)
    end in
  match t with
  | TPrimitive name => HPrimitive name
  | TVariable name => HVariable name
  | TFunction ps r => HFunction ps r (all ps) (Ty_induction r)
  | TPair h t => HPair h t (Ty_induction h) (Ty_induction t)
  | TList e => HList e (Ty_induction e)
  | TArray e => HArray e (Ty_induction e)
  end.
End TyInduction.

(** The names [T<k>] that [tVar] and [freshTypeVar] draw from the counter. *)
Definition nameOf (k : nat) : string := "T" +:+ pretty k.

(** The depth of a type term. *)
Fixpoint height (t : Ty) : nat :=
  match t with
  | TPrimitive _ | TVariable _ => 0
  | TFunction ps r => S (foldr (fun p n => height p `max` n) (height r) ps)
  | TPair h t => S (height h `max` height t)
  | TList e | TArray e => S (height e)
  end.

(** A type built from primitives, arrays and functions alone: it holds no
    variable, and [applyConstraints] has nothing to normalise in it. *)
Fixpoint plain (t : Ty) : bool :=
  match t with
  | TPrimitive _ => true
  | TArray e => plain e
  | TFunction ps r => forallb plain ps && plain r
  | _ => false
  end.

(** The counter and the diagnostics are as before. *)
Definition sameCounterAndErrors (s s' : State) : Prop :=
  typeIdCounter s' = typeIdCounter s /\ typeErrors s' = typeErrors s.

(** Every variable that was addable is addable still. *)
Definition addableStays (s s' : State) : Prop :=
  forall v, kindOf s v = addable -> kindOf s' v = addable.

(** ** What a computation throws *)

(** [throwsOnly P m]: an exception that [m] throws satisfies [P]. *)
Definition throwsOnly (P : Exn -> Prop) {A} (m : M A) : Prop :=
  forall s e s', m s = (Throw e, s') -> P e.

(** The exception of [traverse] on a declaration without declarators. *)
Definition noDeclarator : Exn := JsError "Cannot read property 'init' of undefined".

(** ** What a run adds *)

(** The diagnostics that name a fault of the program; the other two wrap
    an internal error of the checker. *)
Definition userDiagnostic (d : SourceError) : bool :=
  match d with
  | TypeError _ _ | CyclicReferenceError _ => false
  | _ => true
  end.

(** Nothing is taken back: the store and the diagnostics before are
    prefixes of those after, and the counter has not gone down. *)
Definition grows (s s' : State) : Prop :=
  constraints s `prefix_of` constraints s'
  /\ typeErrors s `prefix_of` typeErrors s'
  /\ typeIdCounter s <= typeIdCounter s'.

(** The diagnostics after are those before, followed by diagnostics that
    satisfy [P]. *)
Definition appends (P : SourceError -> Prop) (s s' : State) : Prop :=
  exists added, typeErrors s' = (typeErrors s ++ added)%list /\ Forall P added.

(** The store and the diagnostics are as before. *)
Definition sameStoreAndErrors (s s' : State) : Prop :=
  constraints s' = constraints s /\ typeErrors s' = typeErrors s.

(** ** The annotations of a tree *)




(** The tree without what [traverse] writes: the [inferredType] and the
    [typability] of every node and parameter that it visits and the
    [functionInferredType] of every function declaration, emptied. *)
Fixpoint unannotated (node : Node) : Node :=
  let bare (a : Ann) := parsed (loc a) in
  let bareParam (p : Ann * string) := (parsed (loc p.1), p.2) in
  match node with
  | Program a body => Program (bare a) (unannotated <$> body)
  | UnaryExpression a operator argument =>
      UnaryExpression (bare a) operator (unannotated argument)
  | LogicalExpression a operator l r =>
      LogicalExpression (bare a) operator (unannotated l) (unannotated r)
  | BinaryExpression a operator l r =>
      BinaryExpression (bare a) operator (unannotated l) (unannotated r)
  | ExpressionStatement a expression => ExpressionStatement (bare a) (unannotated expression)
  | BlockStatement a body => BlockStatement (bare a) (unannotated <$> body)
  | WhileStatement a test body =>
      WhileStatement (bare a) (unannotated test) (unannotated body)
  | ForStatement a init test update body =>
      ForStatement (bare a) (unannotated init) (unannotated test) (unannotated update)
                   (unannotated body)
  | ConditionalExpression a test consequent alternate =>
      ConditionalExpression (bare a) (unannotated test) (unannotated consequent)
                            (unannotated alternate)
  | IfStatement a test consequent alternate =>
      IfStatement (bare a) (unannotated test) (unannotated consequent)
        (match alternate with
         | Some alternate => Some (unannotated alternate)
         | None => None
         end)
  | CallExpression a callee arguments =>
      CallExpression (bare a) (unannotated callee) (unannotated <$> arguments)
  | ReturnStatement a argument => ReturnStatement (bare a) (unannotated argument)
  | VariableDeclaration a kind declarations =>
      VariableDeclaration (bare a) kind
        (match declarations with
         | (id, init) :: rest => (id, unannotated init) :: rest
         | [] => []
         end)
  | ArrowFunctionExpression a params body =>
      ArrowFunctionExpression (bare a) (bareParam <$> params) (unannotated body)
  | FunctionDeclaration a _ id params body =>
      FunctionDeclaration (bare a) None id (bareParam <$> params) (unannotated body)
  | AssignmentExpression a l r =>
      AssignmentExpression (bare a) (unannotated l) (unannotated r)
  | ArrayExpression a elements => ArrayExpression (bare a) (unannotated <$> elements)
  | MemberExpression a object property =>
      MemberExpression (bare a) (unannotated object) (unannotated property)
  | Literal a value => Literal (bare a) value
  | Identifier a name => Identifier (bare a) name
  | OtherNode a type => OtherNode (bare a) type
  end.

(** * Properties *)

(** ** Computations and what they keep *)

Section Preserves.
Variable R : State -> State -> Prop.
Context `{!PreOrder R}.

Lemma preserves_ret {A} (a : A) : preserves R (ret a).
Proof. intros s r s' [= _ <-]. reflexivity. Qed.

Lemma preserves_throw {A} (e : Exn) : preserves R (@throw A e).
Proof. intros s r s' [= _ <-]. reflexivity. Qed.

Lemma preserves_outOfFuel {A} : preserves R (@outOfFuel A).
Proof. intros s r s' [= _ <-]. reflexivity. Qed.

Lemma preserves_getState : preserves R getState.
Proof. intros s r s' [= _ <-]. reflexivity. Qed.

Lemma preserves_bind {A B} (m : M A) (k : A -> M B) :
  preserves R m -> (forall a, preserves R (k a)) -> preserves R (bind m k).
Proof.
  intros Hm Hk s r s'. unfold bind.
  destruct (m s) as [[a|e|] s1] eqn:E; intros H.
  - transitivity s1; [eapply Hm | eapply Hk]; eauto.
  - injection H as _ <-. eapply Hm; eauto.
  - injection H as _ <-. eapply Hm; eauto.
Qed.

Lemma preserves_tryCatch {A} (m : M A) (h : Exn -> M A) :
  preserves R m -> (forall e, preserves R (h e)) -> preserves R (tryCatch m h).
Proof.
  intros Hm Hh s r s'. unfold tryCatch.
  destruct (m s) as [[a|e|] s1] eqn:E; intros H.
  - injection H as _ <-. eapply Hm; eauto.
  - transitivity s1; [eapply Hm | eapply Hh]; eauto.
  - injection H as _ <-. eapply Hm; eauto.
Qed.

Lemma preserves_mapM {A B} (f : A -> M B) (l : list A) :
  (forall x, preserves R (f x)) -> preserves R (mapM f l).
Proof.
  intros Hf. induction l as [|x l IH]; simpl.
  - apply preserves_ret.
  - apply preserves_bind; [apply Hf|]. intros y.
    apply preserves_bind; [apply IH|]. intros ys. apply preserves_ret.
Qed.

Lemma preserves_forEach {A} (f : A -> M unit) (l : list A) :
  (forall x, preserves R (f x)) -> preserves R (forEach f l).
Proof.
  intros Hf. induction l as [|x l IH]; simpl.
  - apply preserves_ret.
  - apply preserves_bind; [apply Hf|]. intros _. apply IH.
Qed.

Lemma preserves_foldM {A B} (f : B -> A -> M B) (l : list A) (b : B) :
  (forall b x, preserves R (f b x)) -> preserves R (foldM f l b).
Proof.
  intros Hf. revert b. induction l as [|x l IH]; intros b; simpl.
  - apply preserves_ret.
  - apply preserves_bind; [apply Hf|]. intros b'. apply IH.
Qed.

Lemma preserves_forEachFrom {A} (f : Z -> A -> M unit) (l : list A) (i : Z) :
  (forall i x, preserves R (f i x)) -> preserves R (forEachFrom f l i).
Proof.
  intros Hf. revert i. induction l as [|x l IH]; intros i; simpl.
  - apply preserves_ret.
  - apply preserves_bind; [apply Hf|]. intros _. apply IH.
Qed.

(** The two writes of the unifier. *)
Hypothesis R_push : forall LHS RHS, preserves R (push LHS RHS).
Hypothesis R_setKind : forall v k, preserves R (setKind v k).

Ltac preserves_step IH :=
  match goal with
  | |- preserves R (ret _) => apply preserves_ret
  | |- preserves R (throw _) => apply preserves_throw
  | |- preserves R outOfFuel => apply preserves_outOfFuel
  | |- preserves R getState => apply preserves_getState
  | |- preserves R (push _ _) => apply R_push
  | |- preserves R (setKind _ _) => apply R_setKind
  | |- preserves R (bind _ _) => apply preserves_bind; [|intros ?]
  | |- preserves R (mapM _ _) => apply preserves_mapM; intros ?
  | |- preserves R (forEach _ _) => apply preserves_forEach; intros ?
  | |- preserves R (addToConstraintList _ _ _) => apply IH
  | |- preserves R (occursOnLeftInConstraintList _ _ _) => apply IH
  | |- preserves R (applyConstraints _ _) => apply IH
  | |- preserves R (__applyConstraints _ _) => apply IH
  | |- preserves R (if ?b then _ else _) => destruct b
  | |- preserves R (match ?x with _ => _ end) => destruct x
  | |- preserves R (let _ := _ in _) => cbv zeta
  end.

Lemma unifier_preserves (fuel : nat) :
  (forall LHS RHS, preserves R (addToConstraintList fuel LHS RHS))
  /\ (forall LHS RHS, preserves R (occursOnLeftInConstraintList fuel LHS RHS))
  /\ (forall type, preserves R (applyConstraints fuel type))
  /\ (forall type, preserves R (__applyConstraints fuel type)).
Proof.
  induction fuel as [|fuel IH].
  - repeat split; intros; apply preserves_outOfFuel.
  - destruct IH as (IHadd & IHocc & IHapp & IHapp').
    repeat split; intros;
      cbn [addToConstraintList occursOnLeftInConstraintList
           applyConstraints __applyConstraints];
      repeat (preserves_step IHadd || preserves_step IHocc
              || preserves_step IHapp || preserves_step IHapp').
Qed.
End Preserves.

Lemma bind_Ok {A B} (m : M A) (k : A -> M B) (s s' : State) (b : B) :
  bind m k s = (Ok b, s') ->
  exists a s1, m s = (Ok a, s1) /\ k a s1 = (Ok b, s').
Proof.
  unfold bind. destruct (m s) as [[a|e|] s1]; intros H; try discriminate. eauto.
Qed.

Lemma bind_run {A B} (m : M A) (k : A -> M B) (s s1 : State) (a : A) :
  m s = (Ok a, s1) -> bind m k s = k a s1.
Proof. intros H. unfold bind. by rewrite H. Qed.

Lemma bind_bind {A B C} (m : M A) (f : A -> M B) (g : B -> M C) (s : State) :
  bind (bind m f) g s = bind m (fun x => bind (f x) g) s.
Proof. unfold bind. destruct (m s) as [[a|e|] s1]; reflexivity. Qed.

Lemma bind_ret {A B} (a : A) (k : A -> M B) (s : State) : bind (ret a) k s = k a s.
Proof. reflexivity. Qed.

Lemma bind_ext {A B} (m m' : M A) (k k' : A -> M B) (s : State) :
  m s = m' s -> (forall a s1, k a s1 = k' a s1) -> bind m k s = bind m' k' s.
Proof.
  intros Hm Hk. unfold bind. rewrite Hm.
  destruct (m' s) as [[a|e|] s1]; auto.
Qed.

Lemma tryCatch_ext {A} (m m' : M A) (h : Exn -> M A) (s : State) :
  m s = m' s -> tryCatch m h s = tryCatch m' h s.
Proof. intros Hm. unfold tryCatch. by rewrite Hm. Qed.

Lemma tryCatch_ext2 {A} (m m' : M A) (h h' : Exn -> M A) (s : State) :
  m s = m' s -> (forall e s1, h e s1 = h' e s1) -> tryCatch m h s = tryCatch m' h' s.
Proof.
  intros Hm Hh. unfold tryCatch. rewrite Hm.
  destruct (m' s) as [[a|e|] s1]; auto.
Qed.

(** What a run that ends with a value went through. *)
Ltac inv_run :=
  repeat match goal with
         | H : bind _ _ _ = (Ok _, _) |- _ => apply bind_Ok in H as (? & ? & ? & H)
         | H : ret _ _ = (Ok _, _) |- _ => unfold ret in H; simplify_eq
         | H : throw _ _ = (Ok _, _) |- _ => discriminate H
         end.

(** The run of a sequence whose steps are known. *)
Ltac run_binds :=
  repeat first [erewrite bind_run by eassumption | rewrite bind_bind | rewrite bind_ret];
  try reflexivity.

Lemma foldM_fmap {A B} (f : B -> A -> M B) (g : A -> A) (l : list A) (b : B) (s : State) :
  (forall b x s, f b (g x) s = f b x s) ->
  foldM f (g <$> l) b s = foldM f l b s.
Proof.
  intros Hf. revert b s. induction l as [|x l IH]; intros b s; [reflexivity|].
  simpl. apply bind_ext; [apply Hf|]. intros b' s1. apply IH.
Qed.

Lemma foldM_fmap' {A A' B} (f : B -> A -> M B) (f' : B -> A' -> M B) (g : A' -> A)
    (l : list A') (b : B) (s : State) :
  (forall b x s, f b (g x) s = f' b x s) ->
  foldM f (g <$> l) b s = foldM f' l b s.
Proof.
  intros Hf. revert b s. induction l as [|x l IH]; intros b s; [reflexivity|].
  simpl. apply bind_ext; [apply Hf|]. intros b' s1. apply IH.
Qed.

Lemma forEachFrom_fmap {A} (f : Z -> A -> M unit) (g : A -> A) (l : list A) (i : Z)
    (s : State) :
  (forall i x s, f i (g x) s = f i x s) ->
  forEachFrom f (g <$> l) i s = forEachFrom f l i s.
Proof.
  intros Hf. revert i s. induction l as [|x l IH]; intros i s; [reflexivity|].
  simpl. apply bind_ext; [apply Hf|]. intros _ s1. apply IH.
Qed.

Lemma mapM_fmap {A B} (f f' : A -> M B) (g : A -> A) (l : list A) (s : State) :
  (forall x s, f (g x) s = f' x s) ->
  mapM f (g <$> l) s = mapM f' l s.
Proof.
  intros Hf. revert s. induction l as [|x l IH]; intros s; [reflexivity|].
  simpl. apply bind_ext; [apply Hf|]. intros y s1.
  apply bind_ext; [apply IH|]. reflexivity.
Qed.

Lemma forEach_fmap {A} (f f' : A -> M unit) (g : A -> A) (l : list A) (s : State) :
  (forall x s, f (g x) s = f' x s) ->
  forEach f (g <$> l) s = forEach f' l s.
Proof.
  intros Hf. revert s. induction l as [|x l IH]; intros s; [reflexivity|].
  simpl. apply bind_ext; [apply Hf|]. intros y s1. apply IH.
Qed.

Lemma findIndex_fmap {A} (f : Z -> A -> option bool) (g : A -> A) (l : list A) (i : Z) :
  (forall i x, f i (g x) = f i x) ->
  findIndex f (g <$> l) i = findIndex f l i.
Proof.
  intros Hf. revert i. induction l as [|x l IH]; intros i; [reflexivity|].
  simpl. rewrite Hf, IH. reflexivity.
Qed.

Lemma filter_isDeclaration_fmap (g : Node -> Node) (l : list Node) :
  (forall x, isDeclaration (g x) = isDeclaration x) ->
  filter (fun n => isDeclaration n = true) (g <$> l)
    = g <$> filter (fun n => isDeclaration n = true) l.
Proof.
  intros Hg. induction l as [|x l IH]; [reflexivity|].
  rewrite fmap_cons, !filter_cons, Hg, IH.
  destruct (decide (isDeclaration x = true)); reflexivity.
Qed.

(** ** The store only grows *)

#[global] Instance storeGrows_preorder : PreOrder storeGrows.
Proof.
  split.
  - intros s. unfold storeGrows. reflexivity.
  - intros s1 s2 s3. unfold storeGrows. intros H1 H2. by etransitivity.
Qed.

Lemma storeGrows_push LHS RHS : preserves storeGrows (push LHS RHS).
Proof.
  intros s r s' [= _ <-]. unfold storeGrows; simpl. by apply prefix_app_r.
Qed.

Lemma storeGrows_setKind v k : preserves storeGrows (setKind v k).
Proof. intros s r s' [= _ <-]. unfold storeGrows; simpl. reflexivity. Qed.

(** C1, as the specification states it, fails: unifying
    [Pair(T0, number)] with [Pair(number, boolean)] first solves the heads,
    which appends [T0 = number], and then fails on the tails with a
    UnifyError; the entry stays in the store. *)
Lemma C1_failed_add_changes_store :
  exists s',
    addToConstraintList 10 (TPair (TVariable "T0") tNumber) (TPair tNumber tBool)
                        emptyState
      = (Throw (UnifyError tNumber tBool), s')
    /\ constraints s' = [("T0", tNumber)]
    /\ constraints s' <> constraints emptyState.
Proof. eexists. split; [vm_compute; reflexivity|]. split; [reflexivity|discriminate]. Qed.

(** C1, amended: a call of [addToConstraintList] that fails never removes,
    replaces or reorders an entry; the store that was passed in is a
    prefix of the store after the call, and what sub-constraints appended
    before the failure stays. *)
Theorem C1_failed_add_keeps_entries (fuel : nat) (LHS RHS : Ty) (s s' : State) (e : Exn) :
  addToConstraintList fuel LHS RHS s = (Throw e, s') ->
  constraints s `prefix_of` constraints s'.
Proof.
  intros H.
  destruct (unifier_preserves storeGrows storeGrows_push storeGrows_setKind fuel)
    as (Hadd & _).
  exact (Hadd LHS RHS s (Throw e) s' H).
Qed.

Lemma C1_failed_add_keeps_entries_witness :
  exists s',
    addToConstraintList 10 (TPair (TVariable "T0") tNumber) (TPair tNumber tBool)
                        (mkState [("T1", tString)] ∅ 0 [])
      = (Throw (UnifyError tNumber tBool), s')
    /\ [("T1", tString)] `prefix_of` constraints s'.
Proof.
  eexists. split; [vm_compute; reflexivity|].
  apply (C1_failed_add_keeps_entries 10 (TPair (TVariable "T0") tNumber)
           (TPair tNumber tBool) (mkState [("T1", tString)] ∅ 0 []) _
           (UnifyError tNumber tBool)).
  vm_compute; reflexivity.
Defined.

(** ** The occurs check and the cyclic-list rescue *)

(** C3, as the specification states it, fails on both of its halves.  For
    the shape [Pair(h, Pair(_, v))] the unifier signals CyclicError; it does
    not go on with [v = List(h)], which would succeed here. *)
Lemma C3_pair_of_pair_is_cyclic :
  addToConstraintList 10 (TVariable "T0")
      (TPair tNumber (TPair tString (TVariable "T0"))) emptyState
    = (Throw (InternalCyclicReferenceError "T0"), emptyState)
  /\ (addToConstraintList 10 (TVariable "T0") (tList tNumber) emptyState).1 = Ok tt.
Proof. split; vm_compute; reflexivity. Qed.

(** C3, amended.  When [rhs] contains the variable [v] and is not [v]
    itself:  if [rhs] is [Pair(h, v)] or [Pair(h, List(v))], the call goes on
    as the addition of [v = List(h)], whose outcome is the outcome of the
    call;  if [rhs] is [List(v)], the entry [(v, List(v))] is appended as it
    is and the call succeeds;  for every other shape CyclicError is
    signalled, and the state is as before. *)
Theorem C3_cyclic_list_rescue (fuel : nat) (v : string) (RHS : Ty) (s : State) :
  hasName RHS v = false ->
  contains RHS v = true ->
  (forall h t, RHS = TPair h t ->
     t = TVariable v \/ t = TList (TVariable v) ->
     addToConstraintList (S fuel) (TVariable v) RHS s
       = addToConstraintList fuel (TVariable v) (tList h) s)
  /\ (RHS = TList (TVariable v) ->
      addToConstraintList (S fuel) (TVariable v) RHS s
        = (Ok tt, mkState (constraints s ++ [(v, RHS)]) (kinds s)
                          (typeIdCounter s) (typeErrors s)))
  /\ ((forall h, RHS <> TPair h (TVariable v) /\ RHS <> TPair h (TList (TVariable v))) ->
      RHS <> TList (TVariable v) ->
      addToConstraintList (S fuel) (TVariable v) RHS s
        = (Throw (InternalCyclicReferenceError v), s)).
Proof.
  intros Hname Hcont.
  assert (Hstep : addToConstraintList (S fuel) (TVariable v) RHS
                  = (let otherwise :=
                       if sameObjectOpt v (getListType RHS) then push v RHS
                       else throw (InternalCyclicReferenceError v) in
                     match RHS with
                     | TPair headType tailType =>
                         if sameObject v tailType || sameObjectOpt v (getListType tailType)
                         then addToConstraintList fuel (TVariable v) (tList headType)
                         else otherwise
                     | _ => otherwise
                     end)).
  { cbn [addToConstraintList]. destruct RHS; rewrite ?Hname, ?Hcont; reflexivity. }
  rewrite Hstep. clear Hstep. repeat split.
  - intros h t -> [-> | ->]; simpl.
    + by rewrite bool_decide_eq_true_2.
    + by rewrite bool_decide_eq_true_2.
  - intros ->. simpl. by rewrite bool_decide_eq_true_2.
  - intros Hpair Hlist. destruct RHS as [p|n|ps r|h t|e0|e0]; simpl in *; try reflexivity.
    + destruct t as [p|n|ps r|h' t'|e1|e1]; simpl; try reflexivity.
      * case_bool_decide; [subst; by destruct (Hpair h) as [? _]|reflexivity].
      * destruct e1; simpl; try reflexivity.
        case_bool_decide; [subst; by destruct (Hpair h) as [_ ?]|reflexivity].
    + destruct e0; simpl; try reflexivity.
      case_bool_decide; [subst; done|reflexivity].
Qed.

Lemma C3_cyclic_list_rescue_witness :
  hasName (TPair tNumber (TVariable "T0")) "T0" = false
  /\ contains (TPair tNumber (TVariable "T0")) "T0" = true
  /\ addToConstraintList 10 (TVariable "T0") (TPair tNumber (TVariable "T0")) emptyState
     = addToConstraintList 9 (TVariable "T0") (tList tNumber) emptyState.
Proof.
  split; [reflexivity|]. split; [reflexivity|].
  exact (proj1 (C3_cyclic_list_rescue 9 "T0" (TPair tNumber (TVariable "T0")) emptyState
                  eq_refl eq_refl)
               tNumber (TVariable "T0") eq_refl (or_introl eq_refl)).
Defined.

(** ** Where [typeCheck] throws *)

(** C2 does not hold of the code.  In [function f() { f() + 1; return
    "a"; }] the only fault is a type error of the program: the sum makes
    the result of [f] a number, and the string returned afterwards does not
    unify with it.  The UnifyError is raised by the constraint of the
    [Literal] case, which no handler encloses, and [infer] passes on
    every error but the cyclic one: [typeCheck] throws it to its caller.
    On the empty program, which is well formed, [typeCheck] throws the
    [TypeError] of reading [type] from [body[-1]]. *)
Theorem C2_typeCheck_throws_on_type_error (s : State) :
  (typeCheck 50 program_returns_string_after_adding s).1
    = Throw (UnifyError tString tNumber)
  /\ (typeCheck 50 (Program (parsed 0) []) s).1
    = Throw (JsError "Cannot read property 'type' of undefined").
Proof. split; vm_compute; reflexivity. Qed.

(** ** Addable variables *)

(** The first half of C4: the unifier refuses to bind an addable variable
    to [boolean] or to [undefined], whichever side the variable is on. *)
Lemma addable_variable_rejects_primitive (fuel : nat) (v : string)
    (p : PrimitiveName) (s : State) :
  kindOf s v = addable ->
  p = boolean \/ p = undefined ->
  addToConstraintList (S fuel) (TVariable v) (TPrimitive p) s
    = (Throw (UnifyError (TVariable v) (TPrimitive p)), s)
  /\ addToConstraintList (S (S fuel)) (TPrimitive p) (TVariable v) s
    = (Throw (UnifyError (TVariable v) (TPrimitive p)), s).
Proof.
  intros Hk Hp.
  assert (H : addToConstraintList (S fuel) (TVariable v) (TPrimitive p) s
              = (Throw (UnifyError (TVariable v) (TPrimitive p)), s)).
  { cbn [addToConstraintList]. simpl. unfold bind, getState. rewrite Hk.
    destruct Hp as [-> | ->]; reflexivity. }
  split; [exact H|].
  cbn [addToConstraintList] in *. exact H.
Qed.

(** C4 does not hold of the code: the check looks at the right side as it
    is written, not as it resolves.  In [x => x + !x;] the operand [!x]
    makes the parameter a boolean; the instance [T8] of the addable
    variable of [+] is then unified with the variable of the parameter,
    passes the check because that is a variable, and is bound to what the
    variable resolves to.  The program is accepted without a diagnostic and
    the addable [T8] resolves to [boolean]. *)
Theorem C4_addable_resolves_to_boolean (s : State) :
  let r := typeCheck 50 program_adds_booleans s in
  (exists program, r.1 = Ok (program, []))
  /\ kindOf r.2 "T8" = addable
  /\ firstEntry "T8" (constraints r.2) = Some ("T8", tBool)
  /\ (applyConstraints 50 (TVariable "T8") r.2).1 = Ok tBool.
Proof.
  cbv zeta. split; [eexists; vm_compute; reflexivity|].
  repeat split; vm_compute; reflexivity.
Qed.

(** ** One entry per variable *)

(** C5 does not hold of the code.  [occursOnLeftInConstraintList] looks for
    an earlier entry of the variable before it appends; the branch of
    [addToConstraintList] for [v = List(v)] appends without looking.  After
    [T0 = number], the addition of [T0 = List(T0)] succeeds, does not add
    [List(T0) = number], and leaves two entries with [T0] on the left.  A
    run of [typeCheck] reaches the branch with a bound variable too: the
    store of [x => true ? x : (true ? x : pair(x, x));] ends with two
    entries for [T14]. *)
Theorem C5_two_entries_for_one_variable (s : State) :
  (let r := (addToConstraintList 10 (TVariable "T0") tNumber;;
             addToConstraintList 10 (TVariable "T0") (tList (TVariable "T0")))
              emptyState in
   r.1 = Ok tt
   /\ constraints r.2 = [("T0", tNumber); ("T0", TList (TVariable "T0"))])
  /\ (let r := typeCheck 50 program_list_of_itself s in
      (exists program, r.1 = Ok (program, []))
      /\ filter (fun c => c.1 = "T14") (constraints r.2)
         = [("T14", TList (TVariable "T14")); ("T14", TList (TVariable "T14"))]).
Proof.
  cbv zeta. split; split; try (vm_compute; reflexivity).
  eexists. vm_compute. reflexivity.
Qed.

(** ** The normalisation of [applyConstraints] *)

Lemma firstEntry_app_None (name : string) (cs : list ConstraintEntry) (c : ConstraintEntry) :
  firstEntry name cs = None ->
  firstEntry name (cs ++ [c]) = if bool_decide (c.1 = name) then Some c else None.
Proof.
  unfold firstEntry. induction cs as [|d cs IH]; simpl; [done|].
  destruct (bool_decide (d.1 = name)); [discriminate|]. exact IH.
Qed.















(** ** Arity *)

(** The first half of C7: two function types of different arities are
    refused with the error that carries both, the arity of the right side
    as the expected one, and the store is left as it is. *)
Lemma arity_mismatch_is_signalled (fuel : nat) (lps rps : list Ty) (lr rr : Ty)
    (s : State) :
  length lps <> length rps ->
  addToConstraintList (S fuel) (TFunction lps lr) (TFunction rps rr) s
    = (Throw (InternalDifferentNumberArgumentsError (length rps) (length lps)), s).
Proof.
  intros H. cbn [addToConstraintList]. by rewrite bool_decide_eq_false_2.
Qed.

(** C7 does not hold of the code.  In [y => math_abs(1, true ? y : y(1));]
    the conditional makes the result of [y] the type of [y] itself, and the
    store gets the entry [T10 = Function(number) -> T10] without an error.
    In the case of the outer call, [applyConstraints] on the second
    argument then raises CyclicError, [infer] swallows it, and the
    unification of the call with its callee is never tried.  [typeCheck]
    returns no diagnostic; the call has two arguments and its callee
    resolves to a function of one parameter. *)
Theorem C7_call_passes_with_wrong_arity (s : State) :
  exists program,
    (typeCheck 50 program_calls_with_two_arguments s).1 = Ok (program, [])
    /\ callSites program
       = [(4, Some (TFunction [tNumber] tNumber), 2);
          (10, Some (TVariable "T11"), 1)].
Proof. eexists. split; vm_compute; reflexivity. Qed.

(** ** The resolution pass on a cyclic type *)

#[global] Instance sameErrors_preorder : PreOrder sameErrors.
Proof.
  split.
  - intros s. reflexivity.
  - intros s1 s2 s3. unfold sameErrors. congruence.
Qed.

(** The unifier and the walker record no diagnostic. *)
Lemma applyConstraints_sameErrors (fuel : nat) (type : Ty) :
  preserves sameErrors (applyConstraints fuel type).
Proof.
  apply (unifier_preserves sameErrors).
  - intros LHS RHS s r s' [= _ <-]. reflexivity.
  - intros v k s r s' [= _ <-]. reflexivity.
Qed.

(** The step for [functionInferredType] returns the annotation that it is
    given, marked when it has recorded a [TypeError]. *)
Lemma annotateFunction_ann (fuel : nat) (resolve : bool) (a : Ann)
    (f : option Ty) (r : Ann * option Ty) (s s' : State) :
  annotateFunction fuel resolve a f s = (Ok r, s') ->
  r.1 = a \/ resolve = true /\ r.1 = markUntypable a.
Proof.
  unfold annotateFunction, tryCatch, tVar. intros H.
  destruct resolve; inv_run.
  - match goal with
    | H : (let (_, _) := ?m in _) = _ |- _ =>
        destruct m as [[x|e|] sm] eqn:E; [| |discriminate]; inv_run
    end.
    + by left.
    + destruct (isCyclic e); inv_run; [by left|].
      destruct (isInternalTypeError e); inv_run; [right|left]; done.
  - by left.
Qed.

(** [traverse] puts the node together around the annotation of its own
    step; a function declaration may have been marked since. *)
Lemma traverseChildren_ann (fuel : nat) (rec : bool -> Node -> M Node)
    (resolve : bool) (a : Ann) (node node' : Node) (s s' : State) :
  traverseChildren fuel rec resolve a node s = (Ok node', s') ->
  ann node' = a
  \/ isFunctionDeclaration node = true /\ resolve = true
     /\ ann node' = markUntypable a.
Proof.
  destruct node; simpl; intros H; inv_run; try (left; reflexivity).
  - destruct declarations as [|[id init] rest]; inv_run. left. reflexivity.
  - match goal with
    | H : annotateFunction _ _ _ _ _ = _ |- _ =>
        apply annotateFunction_ann in H as [->|[-> ->]]
    end; [left|right]; done.
Qed.

(** C9.  In the resolution pass, when [applyConstraints] on the
    [inferredType] of a node raises the cyclic error, the step of the node
    records no diagnostic and leaves the annotation as it was, with its
    type before the substitution and its typability (NotYetTyped stays
    NotYetTyped); [traverse] goes on with the children, and the node it
    returns carries that annotation (a function declaration carries it as
    its step for [functionInferredType] returns it, which marks it when it
    records a [TypeError]).  The CyclicReference diagnostic is recorded by the step
    for [functionInferredType], which [traverse] takes on function
    declarations only: a cyclic [functionInferredType] is left as it was,
    the declaration is not marked, and the diagnostic names the
    declaration. *)
Theorem C9_cyclic_type_in_resolution (fuel : nat) (node : Node) (t : Ty)
    (name : string) (s s1 : State) :
  typability (ann node) <> Untypable ->
  inferredType (ann node) = Some t ->
  applyConstraints fuel t s = (Throw (InternalCyclicReferenceError name), s1) ->
  annotate fuel true (ann node) s = (Ok (ann node), s1)
  /\ typeErrors s1 = typeErrors s
  /\ traverse (S fuel) true node s
     = traverseChildren fuel (traverse fuel) true (ann node) node s1
  /\ (forall node' s', traverse (S fuel) true node s = (Ok node', s') ->
        (isFunctionDeclaration node = false -> ann node' = ann node)
        /\ (forall a f id params body,
              node = FunctionDeclaration a f id params body ->
              exists marked s2,
                annotateFunction fuel true a f s1 = (Ok marked, s2)
                /\ ann node' = marked.1
                /\ (marked.1 = a \/ marked.1 = markUntypable a)))
  /\ (forall (a : Ann) (ft : Ty) (n : string) (s2 s3 : State),
        applyConstraints fuel ft s2 = (Throw (InternalCyclicReferenceError n), s3) ->
        annotateFunction fuel true a (Some ft) s2
          = (Ok (a, Some ft),
             mkState (constraints s3) (kinds s3) (S (typeIdCounter s3))
                     (typeErrors s3 ++ [CyclicReferenceError (loc a)]))).
Proof.
  intros Htyp Htype Happly.
  assert (Hstep : annotate fuel true (ann node) s = (Ok (ann node), s1)).
  { unfold annotate. rewrite bool_decide_eq_false_2 by exact Htyp. simpl.
    unfold tryCatch, bind. rewrite Htype. simpl. rewrite Happly. reflexivity. }
  assert (Htrav : traverse (S fuel) true node s
                  = traverseChildren fuel (traverse fuel) true (ann node) node s1).
  { cbn [traverse]. unfold bind at 1. rewrite Hstep. reflexivity. }
  split_and!.
  - exact Hstep.
  - exact (applyConstraints_sameErrors fuel t s _ s1 Happly).
  - exact Htrav.
  - intros node' s'. rewrite Htrav. intros H. split.
    + intros Hf. apply traverseChildren_ann in H as [H|(H1 & _ & _)]; [done|].
      rewrite Hf in H1. discriminate H1.
    + intros a f id params body ->. cbn [traverseChildren ann] in H.
      apply bind_Ok in H as (marked & s2 & Hm & H). inv_run.
      exists marked, s2. split; [exact Hm|]. split; [reflexivity|].
      apply annotateFunction_ann in Hm as [Hm|[_ Hm]]; [by left|by right].
  - intros a ft n s2 s3 H. unfold annotateFunction, tryCatch, bind. simpl.
    rewrite H. reflexivity.
Qed.

(** The store [T0 = (T0) => number] makes the type of a node cyclic. *)
Lemma C9_cyclic_type_in_resolution_witness :
  let s := mkState [("T0", TFunction [TVariable "T0"] tNumber)] ∅ 1 [] in
  let node := Identifier (mkAnn 7 (Some (TVariable "T0")) NotYetTyped) "x" in
  typability (ann node) <> Untypable
  /\ inferredType (ann node) = Some (TVariable "T0")
  /\ applyConstraints 10 (TVariable "T0") s = (Throw (InternalCyclicReferenceError "T0"), s)
  /\ traverse 11 true node s = (Ok node, s).
Proof.
  cbv zeta. split; [discriminate|]. split; [reflexivity|]. split; [reflexivity|].
  rewrite (proj1 (proj2 (proj2
    (C9_cyclic_type_in_resolution 10
       (Identifier (mkAnn 7 (Some (TVariable "T0")) NotYetTyped) "x")
       (TVariable "T0") "T0"
       (mkState [("T0", TFunction [TVariable "T0"] tNumber)] ∅ 1 [])
       (mkState [("T0", TFunction [TVariable "T0"] tNumber)] ∅ 1 [])
       ltac:(discriminate) eq_refl eq_refl)))).
  reflexivity.
Defined.

(** ** Changes of a block that [infer] does not see *)

(** A block is inferred alike before and after a change [g] of its
    statements that [infer] and the scan of the block do not see. *)
Lemma inferBlock_fmap (g : Node -> Node) (fuel : nat)
    (inf : Node -> Env -> bool -> M unit)
    (a : Ann) (body : list Node) (env : Env) (top : bool) (s : State) :
  (forall x, isDeclaration (g x) = isDeclaration x) ->
  (forall x, statementHasReturn (g x) = statementHasReturn x) ->
  (forall x, stmtHasValueReturningStmt (g x) = stmtHasValueReturningStmt x) ->
  (forall env x s, bindDeclaration env (g x) s = bindDeclaration env x s) ->
  (forall env x s, generaliseDeclaration fuel env (g x) s
                   = generaliseDeclaration fuel env x s) ->
  (forall x s, match top, g x with
               | true, ExpressionStatement _ expression => typeOfNode expression
               | _, _ => typeOfNode (g x)
               end s
               = match top, x with
                 | true, ExpressionStatement _ expression => typeOfNode expression
                 | _, _ => typeOfNode x
                 end s) ->
  (forall n env top s, inf (g n) env top s = inf n env top s) ->
  inferBlock fuel inf a (g <$> body) env top s = inferBlock fuel inf a body env top s.
Proof.
  intros Hdecl Hreturn Hvalue Hbind Hgen Hlast Hinf. unfold inferBlock.
  assert (Hret : returnBlockValueNodeIndexFor (g <$> body) top
                 = returnBlockValueNodeIndexFor body top).
  { unfold returnBlockValueNodeIndexFor. rewrite length_fmap, <- fmap_reverse.
    rewrite !findIndex_fmap; [reflexivity| |].
    - intros i x. by rewrite Hreturn.
    - intros i x. apply Hvalue. }
  assert (Hlastdecl : lastDeclNodeIndexOf (g <$> body) = lastDeclNodeIndexOf body).
  { unfold lastDeclNodeIndexOf. rewrite length_fmap, <- fmap_reverse.
    rewrite findIndex_fmap; [reflexivity|].
    intros i x. by rewrite Hdecl. }
  rewrite Hret, Hlastdecl.
  rewrite filter_isDeclaration_fmap by exact Hdecl.
  rewrite <- fmap_reverse.
  destruct (returnBlockValueNodeIndexFor body top) as [idx|]; [|reflexivity].
  apply bind_ext.
  { apply foldM_fmap. intros. apply Hbind. }
  intros newEnv s1.
  assert (Hat : at_ (g <$> body) idx = g <$> at_ body idx).
  { unfold at_. case_bool_decide; [apply list_lookup_fmap|reflexivity]. }
  rewrite Hat. destruct (at_ body idx) as [lastNode|]; [|reflexivity]. simpl.
  apply bind_ext; [apply Hlast|].
  intros lastNodeType s2.
  apply bind_ext; [reflexivity|]. intros storedType s3.
  apply bind_ext; [reflexivity|]. intros _ s4.
  rewrite <- fmap_take, <- fmap_drop.
  apply bind_ext.
  { apply forEachFrom_fmap. intros i x s5. case_bool_decide; apply Hinf. }
  intros _ s5.
  apply bind_ext.
  { apply foldM_fmap. intros. apply Hgen. }
  intros newEnv' s6.
  apply forEachFrom_fmap. intros i x s7. case_bool_decide; apply Hinf.
Qed.

(** ** Declarations with several declarators *)








Lemma bind_ret_r {A} (m : M A) (s : State) : bind m ret s = m s.
Proof. unfold bind. by destruct (m s) as [[a|e|] s1]. Qed.





(** ** Typability does not matter to [infer] *)

Lemma some_fmap_ext (f : Node -> option bool) (g : Node -> Node) (l : list Node) :
  Forall (fun x => f (g x) = f x) l -> some f (g <$> l) = some f l.
Proof.
  induction 1 as [|x l Hx _ IH]; [reflexivity|].
  rewrite fmap_cons. cbn [some]. by rewrite Hx, IH.
Qed.

Lemma erase_statementHasReturn (n : Node) :
  statementHasReturn (erase n) = statementHasReturn n.
Proof.
  induction n using Node_induction; simpl; try reflexivity; try congruence.
  - by apply some_fmap_ext.
  - destruct x; congruence.
Qed.

Lemma erase_stmtHasValueReturningStmt (n : Node) :
  stmtHasValueReturningStmt (erase n) = stmtHasValueReturningStmt n.
Proof.
  induction n using Node_induction; simpl; try reflexivity; try congruence.
  - by apply some_fmap_ext.
  - destruct x; congruence.
Qed.

Lemma ann_erase (n : Node) : ann (erase n) = eraseAnn (ann n).
Proof. by destruct n. Qed.

Lemma typeOfNode_erase (n : Node) : typeOfNode (erase n) = typeOfNode n.
Proof. unfold typeOfNode. by rewrite ann_erase. Qed.

Lemma inferredType_erase (n : Node) : inferredType (ann (erase n)) = inferredType (ann n).
Proof. by rewrite ann_erase. Qed.

Lemma loc_erase (n : Node) : loc (ann (erase n)) = loc (ann n).
Proof. by rewrite ann_erase. Qed.

Lemma erase_isDeclaration (n : Node) : isDeclaration (erase n) = isDeclaration n.
Proof. by destruct n. Qed.

Lemma erase_bindDeclaration (env : Env) (n : Node) (s : State) :
  bindDeclaration env (erase n) s = bindDeclaration env n s.
Proof.
  destruct n; try reflexivity. simpl.
  destruct declarations as [|[i init] rest]; [reflexivity|].
  by rewrite typeOfNode_erase.
Qed.

Lemma erase_generaliseDeclaration (fuel : nat) (env : Env) (n : Node) (s : State) :
  generaliseDeclaration fuel env (erase n) s = generaliseDeclaration fuel env n s.
Proof.
  destruct n; try reflexivity. simpl.
  destruct declarations as [|[i init] rest]; [reflexivity|].
  by rewrite inferredType_erase.
Qed.

Lemma inferFunction_erase (fuel : nat) (inf : Node -> Env -> bool -> M unit)
    (t : Ty) (params : list (Ann * string)) (body : Node) (env : Env) (s : State) :
  (forall n env top s, inf (erase n) env top s = inf n env top s) ->
  inferFunction fuel inf t (prod_map eraseAnn (fun x => x) <$> params) (erase body) env s
    = inferFunction fuel inf t params body env s.
Proof.
  intros Hinf. unfold inferFunction.
  apply bind_ext.
  { apply mapM_fmap. intros [a x] s1. reflexivity. }
  intros paramTypes s1. rewrite typeOfNode_erase.
  apply bind_ext; [reflexivity|]. intros bodyType s2.
  apply bind_ext; [reflexivity|]. intros _ s3.
  apply bind_ext.
  { apply foldM_fmap'. intros b [a x] s4. reflexivity. }
  intros newEnv s4. apply Hinf.
Qed.

Lemma inferBlock_erase (fuel : nat) (inf : Node -> Env -> bool -> M unit)
    (a : Ann) (body : list Node) (env : Env) (top : bool) (s : State) :
  (forall n env top s, inf (erase n) env top s = inf n env top s) ->
  inferBlock fuel inf (eraseAnn a) (erase <$> body) env top s
    = inferBlock fuel inf a body env top s.
Proof.
  intros Hinf.
  transitivity (inferBlock fuel inf a (erase <$> body) env top s); [reflexivity|].
  apply inferBlock_fmap; auto using erase_isDeclaration, erase_statementHasReturn,
    erase_stmtHasValueReturningStmt, erase_bindDeclaration, erase_generaliseDeclaration.
  intros x s1. destruct top, x; simpl; try reflexivity;
    rewrite ?typeOfNode_erase; try reflexivity.
  all: unfold typeOfNode; simpl; reflexivity.
Qed.

Lemma map_loc_erase (l : list Node) :
  map (fun n => loc (ann n)) (erase <$> l) = map (fun n => loc (ann n)) l.
Proof.
  induction l as [|x l IH]; [reflexivity|].
  rewrite fmap_cons. cbn [map]. by rewrite loc_erase, IH.
Qed.

Ltac ext_step Hinf :=
  first
    [ reflexivity
    | match goal with |- ?f ?x ?e ?t ?s = ?f ?y ?e ?t ?s => exact (Hinf y e t s) end
    | apply bind_ext; [|intros ? ?]
    | apply tryCatch_ext2; [|intros ? ?]
    | apply mapM_fmap; intros ? ?
    | apply forEach_fmap; intros ? ?
    | progress rewrite ?typeOfNode_erase, ?inferredType_erase, ?loc_erase, ?map_loc_erase
    | match goal with
      | |- match ?x with _ => _ end _ = match ?x with _ => _ end _ => destruct x
      end
    | match goal with
      | |- (if ?x then _ else _) _ = (if ?x then _ else _) _ => destruct x
      end ].

Lemma inferIf_erase (fuel : nat) (inf : Node -> Env -> bool -> M unit)
    (a : Ann) (t c : Node) (alternate : option Node) (env : Env) (top : bool) (s : State) :
  (forall n env top s, inf (erase n) env top s = inf n env top s) ->
  inferIf fuel inf (eraseAnn a) (erase t) (erase c)
          (match alternate with Some x => Some (erase x) | None => None end) env top s
    = inferIf fuel inf a t c alternate env top s.
Proof.
  intros Hinf. unfold inferIf. destruct alternate as [x|]; repeat ext_step Hinf.
Qed.

Lemma inferFor_erase (fuel : nat) (inf : Node -> Env -> bool -> M unit)
    (a : Ann) (i t u b : Node) (env : Env) (top : bool) (s : State) :
  (forall n env top s, inf (erase n) env top s = inf n env top s) ->
  inferFor fuel inf (eraseAnn a) (erase i) (erase t) (erase u) (erase b) env top s
    = inferFor fuel inf a i t u b env top s.
Proof.
  intros Hinf. unfold inferFor. rewrite !typeOfNode_erase.
  apply bind_ext; [reflexivity|]. intros testType s1.
  apply bind_ext; [reflexivity|]. intros bodyType s2.
  apply bind_ext; [reflexivity|]. intros storedType s3.
  apply bind_ext; [reflexivity|]. intros _ s4.
  apply bind_ext; [|intros newEnv s5; repeat ext_step Hinf].
  destruct i; try (apply bind_ext; [apply Hinf|reflexivity]).
  cbn [erase]. destruct (bool_decide (kind = kvar)).
  - apply bind_ext; [|reflexivity].
    exact (Hinf (VariableDeclaration a0 kind declarations) env false s4).
  - destruct declarations as [|[[x|] init] rest].
    + reflexivity.
    + rewrite typeOfNode_erase. apply bind_ext; [reflexivity|]. intros ty s5.
      apply bind_ext.
      { exact (Hinf (VariableDeclaration a0 kind ((Some x, init) :: rest)) _ false s5). }
      intros _ s6. rewrite inferredType_erase. reflexivity.
    + apply bind_ext; [|reflexivity].
      exact (Hinf (VariableDeclaration a0 kind ((None, init) :: rest)) env false s4).
Qed.

Lemma _infer_erase (fuel : nat) (inf : Node -> Env -> bool -> M unit)
    (n : Node) (env : Env) (top : bool) (s : State) :
  (forall n env top s, inf (erase n) env top s = inf n env top s) ->
  _infer fuel inf (erase n) env top s = _infer fuel inf n env top s.
Proof.
  intros Hinf. destruct n; cbn [erase _infer].
  - apply inferBlock_erase, Hinf.
  - repeat ext_step Hinf.
  - change [erase n1; erase n2] with (erase <$> [n1; n2]). repeat ext_step Hinf.
  - change [erase n1; erase n2] with (erase <$> [n1; n2]). repeat ext_step Hinf.
  - repeat ext_step Hinf.
  - apply inferBlock_erase, Hinf.
  - repeat ext_step Hinf.
  - apply inferFor_erase, Hinf.
  - apply (inferIf_erase fuel inf a n1 n2 (Some n3)), Hinf.
  - apply inferIf_erase, Hinf.
  - repeat ext_step Hinf.
  - repeat ext_step Hinf.
  - destruct declarations as [|[i init] rest]; repeat ext_step Hinf.
  - apply bind_ext; [reflexivity|]. intros t s1. apply inferFunction_erase, Hinf.
  - do 3 (apply bind_ext; [reflexivity|]; intros ? ?). apply inferFunction_erase, Hinf.
  - destruct n1; cbn [erase]; repeat ext_step Hinf.
  - repeat ext_step Hinf.
  - destruct n1; cbn [erase]; repeat ext_step Hinf.
  - reflexivity.
  - reflexivity.
  - reflexivity.
Qed.

Lemma infer_erase (fuel : nat) (n : Node) (env : Env) (top : bool) (s : State) :
  infer fuel (erase n) env top s = infer fuel n env top s.
Proof.
  revert n env top s. induction fuel as [|fuel IH]; intros n env top s; [reflexivity|].
  cbn [infer]. apply tryCatch_ext. by apply _infer_erase.
Qed.

(** ** What the passes keep *)

Section PassesKeep.
Variable R : State -> State -> Prop.
Context `{!PreOrder R}.
Hypothesis R_push : forall LHS RHS, preserves R (push LHS RHS).
Hypothesis R_setKind : forall v k, preserves R (setKind v k).
Hypothesis R_nextId : preserves R nextId.

Ltac keeps_step :=
  match goal with
  | |- preserves R (ret _) => apply (preserves_ret R)
  | |- preserves R (throw _) => apply (preserves_throw R)
  | |- preserves R outOfFuel => apply (preserves_outOfFuel R)
  | |- preserves R getState => apply (preserves_getState R)
  | |- preserves R nextId => apply R_nextId
  | |- preserves R (push _ _) => apply R_push
  | |- preserves R (setKind _ _) => apply R_setKind
  | |- preserves R (addToConstraintList _ _ _) =>
      apply (unifier_preserves R R_push R_setKind)
  | |- preserves R (applyConstraints _ _) =>
      apply (unifier_preserves R R_push R_setKind)
  | |- preserves R (bind _ _) => apply (preserves_bind R); [|intros ?]
  | |- preserves R (tryCatch _ _) => apply (preserves_tryCatch R); [|intros ?]
  | |- preserves R (mapM _ _) => apply (preserves_mapM R); intros ?
  | |- preserves R (forEach _ _) => apply (preserves_forEach R); intros ?
  | |- preserves R (foldM _ _ _) => apply (preserves_foldM R); intros ? ?
  | |- preserves R (forEachFrom _ _ _) => apply (preserves_forEachFrom R); intros ? ?
  | |- preserves R (if ?b then _ else _) => destruct b
  | |- preserves R (match ?x with _ => _ end) => destruct x
  | |- preserves R (let _ := _ in _) => cbv zeta
  end.

Lemma newTVar_keeps : preserves R newTVar.
Proof. unfold newTVar, tVar. repeat keeps_step. Qed.

Lemma typeOfAnn_keeps (a : Ann) : preserves R (typeOfAnn a).
Proof. unfold typeOfAnn. repeat keeps_step. Qed.

Lemma typeOfOpt_keeps (t : option Ty) : preserves R (typeOfOpt t).
Proof. unfold typeOfOpt. repeat keeps_step. Qed.

Lemma applyDefined_keeps (fuel : nat) (t : option Ty) : preserves R (applyDefined fuel t).
Proof. unfold applyDefined. repeat keeps_step. Qed.

Lemma extractFreeVariablesAndGenFresh_keeps (t : Ty) :
  preserves R (extractFreeVariablesAndGenFresh t).
Proof. unfold extractFreeVariablesAndGenFresh, freshTypeVar. repeat keeps_step. Qed.

Lemma instantiate_keeps (t : EnvType) : preserves R (instantiate t).
Proof.
  unfold instantiate. destruct t; [apply (preserves_ret R)|].
  apply extractFreeVariablesAndGenFresh_keeps.
Qed.

Ltac pass_step :=
  match goal with
  | |- preserves R newTVar => apply newTVar_keeps
  | |- preserves R (typeOfAnn _) => apply typeOfAnn_keeps
  | |- preserves R (typeOfNode _) => apply typeOfAnn_keeps
  | |- preserves R (typeOfOpt _) => apply typeOfOpt_keeps
  | |- preserves R (applyDefined _ _) => apply applyDefined_keeps
  | |- preserves R (instantiate _) => apply instantiate_keeps
  | |- preserves R (extractFreeVariablesAndGenFresh _) =>
      apply extractFreeVariablesAndGenFresh_keeps
  | |- preserves R (pushError _) =>
      match goal with H : forall e, _ -> preserves R (pushError e) |- _ =>
        apply H; reflexivity end
  | H : forall n e t, preserves R (?inf n e t) |- preserves R (?inf _ _ _) => apply H
  | H : forall r n, preserves R (?trav r n) |- preserves R (?trav _ _) => apply H
  | _ => keeps_step
  end.

(** The inference pass keeps every relation that the writes of the
    unifier, the counter and the diagnostics of the program keep. *)
Lemma infer_keeps (fuel : nat) :
  (forall d, userDiagnostic d = true -> preserves R (pushError d)) ->
  forall node env top, preserves R (infer fuel node env top).
Proof.
  intros Hd. induction fuel as [|fuel IH]; intros node env top; cbn [infer].
  - apply (preserves_outOfFuel R).
  - apply (preserves_tryCatch R); [|intros e; destruct (isCyclic e); repeat keeps_step].
    destruct node; cbn [_infer];
      unfold inferBlock, inferIf, inferFor, inferFunction, testHandler;
      repeat first [progress unfold bindDeclaration, generaliseDeclaration | pass_step].
Qed.

(** The traversals keep every relation that the writes of the unifier,
    the counter and the diagnostics of the checker's own errors keep. *)
Lemma traverse_keeps (fuel : nat) :
  (forall d, userDiagnostic d = false -> preserves R (pushError d)) ->
  forall resolve node, preserves R (traverse fuel resolve node).
Proof.
  intros Hd. induction fuel as [|fuel IH]; intros resolve node; cbn [traverse].
  - apply (preserves_outOfFuel R).
  - unfold annotate.
    destruct node; cbn [traverseChildren];
      unfold traverseParam, annotate, annotateFunction, tVar;
      repeat pass_step.
Qed.

Lemma annotate_keeps (fuel : nat) (resolve : bool) (a : Ann) :
  (forall d, userDiagnostic d = false -> preserves R (pushError d)) ->
  preserves R (annotate fuel resolve a).
Proof. intros Hd. unfold annotate. repeat pass_step. Qed.

Lemma annotateFunction_keeps (fuel : nat) (resolve : bool) (a : Ann) (f : option Ty) :
  (forall d, userDiagnostic d = false -> preserves R (pushError d)) ->
  preserves R (annotateFunction fuel resolve a f).
Proof. intros Hd. unfold annotateFunction, tVar. repeat pass_step. Qed.

Lemma traverseParam_keeps (fuel : nat) (resolve : bool) (p : Ann * string) :
  (forall d, userDiagnostic d = false -> preserves R (pushError d)) ->
  preserves R (traverseParam fuel resolve p).
Proof. intros Hd. unfold traverseParam, annotate. repeat pass_step. Qed.

End PassesKeep.

Section DecorationKeeps.
Variable R : State -> State -> Prop.
Context `{!PreOrder R}.
Hypothesis R_setKind : forall v k, preserves R (setKind v k).
Hypothesis R_nextId : preserves R nextId.

Ltac decoration_step :=
  match goal with
  | |- preserves R (ret _) => apply (preserves_ret R)
  | |- preserves R (throw _) => apply (preserves_throw R)
  | |- preserves R getState => apply (preserves_getState R)
  | |- preserves R nextId => apply R_nextId
  | |- preserves R (setKind _ _) => apply R_setKind
  | H : forall n, preserves R (?trav n) |- preserves R (?trav _) => apply H
  | |- preserves R (bind _ _) => apply (preserves_bind R); [|intros ?]
  | |- preserves R (mapM _ _) => apply (preserves_mapM R); intros ?
  | |- preserves R (match ?x with _ => _ end) => destruct x
  end.

(** The decoration pass keeps every relation that the counter and the
    making of a variable keep: it calls neither the unifier nor the
    walker. *)
Lemma decoration_keeps (fuel : nat) (node : Node) :
  preserves R (traverse fuel false node).
Proof.
  revert node. induction fuel as [|fuel IH]; intros node; cbn [traverse].
  - apply (preserves_outOfFuel R).
  - destruct node; cbn [traverseChildren];
      unfold traverseParam, annotate, annotateFunction, newTVar, tVar; cbn [andb];
      repeat decoration_step.
Qed.
End DecorationKeeps.

#[global] Instance grows_preorder : PreOrder grows.
Proof.
  split.
  - intros s. repeat split; reflexivity.
  - intros s1 s2 s3 (H1 & H2 & H3) (H4 & H5 & H6).
    repeat split; etransitivity; eassumption.
Qed.

#[global] Instance appends_preorder (P : SourceError -> Prop) : PreOrder (appends P).
Proof.
  split.
  - intros s. exists []. split; [by rewrite app_nil_r|constructor].
  - intros s1 s2 s3 (a1 & H1 & F1) (a2 & H2 & F2). exists (a1 ++ a2)%list. split.
    + by rewrite H2, H1, app_assoc.
    + by apply Forall_app.
Qed.

#[global] Instance sameStoreAndErrors_preorder : PreOrder sameStoreAndErrors.
Proof.
  split.
  - intros s. split; reflexivity.
  - intros s1 s2 s3 [H1 H2] [H3 H4]. split; congruence.
Qed.

Lemma grows_push LHS RHS : preserves grows (push LHS RHS).
Proof.
  intros s r s' [= _ <-]. repeat split; simpl; [by apply prefix_app_r|done|done].
Qed.

Lemma grows_setKind v k : preserves grows (setKind v k).
Proof. intros s r s' [= _ <-]. repeat split; simpl; done. Qed.

Lemma grows_nextId : preserves grows nextId.
Proof. intros s r s' [= _ <-]. repeat split; simpl; [done|done|lia]. Qed.

Lemma grows_pushError d : preserves grows (pushError d).
Proof.
  intros s r s' [= _ <-]. repeat split; simpl; [done|by apply prefix_app_r|done].
Qed.

(** ** Checking a program that has been checked *)

Lemma unmarked_before (s s' : State) : grows s s' -> unmarked s' -> unmarked s.
Proof.
  intros (_ & [added E] & _). unfold unmarked. rewrite E.
  intros H. by apply Forall_app in H as [H _].
Qed.

Lemma unmarked_pushError (a : nat) (e : Exn) (s : State) (r : Res unit) (s' : State) :
  pushError (TypeError a e) s = (r, s') -> ~ unmarked s'.
Proof.
  intros [= _ <-]. unfold unmarked. simpl. intros H.
  apply Forall_app in H as [_ H]. by inversion H.
Qed.

Lemma resolution_grows (fuel : nat) :
  (forall n, preserves grows (traverse fuel true n))
  /\ (forall a, preserves grows (annotate fuel true a))
  /\ (forall a f, preserves grows (annotateFunction fuel true a f))
  /\ (forall p, preserves grows (traverseParam fuel true p))
  /\ (forall l, preserves grows (mapM (traverse fuel true) l))
  /\ (forall l, preserves grows (mapM (traverseParam fuel true) l)).
Proof.
  assert (Hd : forall d, userDiagnostic d = false -> preserves grows (pushError d))
    by (intros d _; apply grows_pushError).
  pose proof (traverse_keeps grows grows_push grows_setKind grows_nextId fuel Hd true) as Ht.
  pose proof (fun p => traverseParam_keeps grows grows_push grows_setKind grows_nextId
                         fuel true p Hd) as Hp.
  split_and!.
  - exact Ht.
  - intros a. by apply (annotate_keeps grows grows_push grows_setKind grows_nextId).
  - intros a f. by apply (annotateFunction_keeps grows grows_push grows_setKind grows_nextId).
  - exact Hp.
  - intros l. by apply (preserves_mapM grows).
  - intros l. by apply (preserves_mapM grows).
Qed.

(** From the end of a run of the resolution pass back to its start. *)
Ltac unmarked_back fuel :=
  repeat match goal with
         | Hb : ?m ?s = (Ok _, ?s'), Hc : unmarked ?s' |- _ =>
             lazymatch goal with
             | _ : unmarked s |- _ => fail
             | _ => idtac
             end;
             assert (unmarked s)
               by (refine (unmarked_before s s' _ Hc);
                   destruct (resolution_grows fuel) as (G1 & G2 & G3 & G4 & G5 & G6);
                   first [exact (G1 _ _ _ _ Hb) | exact (G2 _ _ _ _ Hb)
                         | exact (G3 _ _ _ _ _ Hb) | exact (G4 _ _ _ _ Hb)
                         | exact (G5 _ _ _ _ Hb) | exact (G6 _ _ _ _ Hb)])
         end.

Lemma Again_mapM {X} (F : bool -> X -> M X) (e : X -> X) :
  (forall l, preserves grows (mapM (F true) l)) ->
  Again F e -> Again (fun b => mapM (F b)) (fmap e).
Proof.
  intros HG HF l. induction l as [|x l IH]; intros s0 l1 sA s l2 s' H1 H2 Hu.
  - simpl in H1. inv_run. simpl in H2. inv_run.
    exists []. repeat split.
  - simpl in H1. inv_run. simpl in H2. inv_run.
    match goal with
    | Hb : mapM (F true) _ ?sm = (_, s') |- _ =>
        assert (Hm : unmarked sm) by exact (unmarked_before _ _ (HG _ _ _ _ Hb) Hu)
    end.
    match goal with
    | Ha : F false x _ = _, Hb : F true _ _ = _ |- _ =>
        destruct (HF _ _ _ _ _ _ _ Ha Hb Hm) as (y3 & Hx1 & Hx2 & Hx3)
    end.
    match goal with
    | Ha : mapM (F false) l _ = _, Hb : mapM (F true) _ _ = _ |- _ =>
        destruct (IH _ _ _ _ _ _ Ha Hb Hu) as (l3 & Hl1 & Hl2 & Hl3)
    end.
    exists (y3 :: l3). repeat split.
    + simpl. run_binds.
    + rewrite !fmap_cons. congruence.
    + simpl. run_binds.
Qed.

Lemma annotate_loc (fuel : nat) (resolve : bool) (a a' : Ann) (s s' : State) :
  annotate fuel resolve a s = (Ok a', s') -> loc a' = loc a.
Proof.
  unfold annotate. destruct (resolve && _).
  - unfold tryCatch, bind.
    destruct (applyDefined fuel (inferredType a) s) as [[t|e|] s1]; simpl.
    + by intros [= <- _].
    + destruct (isInternalTypeError e && negb (isCyclic e)); simpl; by intros [= <- _].
    + discriminate.
  - unfold bind, newTVar, bind, nextId, tVar, bind, setKind, ret; simpl.
    by intros [= <- _].
Qed.

Lemma Again_annotate (fuel : nat) : Again (annotate fuel) eraseAnn.
Proof.
  intros a s0 a1 sA s a2 s' H1 H2 Hu.
  assert (Hloc : loc a2 = loc a1) by (eapply annotate_loc; eauto).
  unfold annotate in H1. simpl in H1.
  unfold bind, newTVar, bind, nextId, tVar, bind, setKind, ret in H1. simpl in H1.
  injection H1 as <- <-.
  exists (mkAnn (loc a2) (Some (TVariable ("T" +:+ pretty (typeIdCounter s0))))
                (typability a2)).
  split; [reflexivity|]. split; [unfold eraseAnn; simpl; by rewrite Hloc|].
  revert H2 Hloc Hu. unfold annotate. simpl.
  case_bool_decide as Htyp; simpl.
  - unfold bind, newTVar, bind, nextId, tVar, bind, setKind, ret. simpl.
    intros [= <- <-] _ _. simpl. rewrite bool_decide_eq_true_2 by done. reflexivity.
  - unfold tryCatch, bind, applyDefined.
    destruct (applyConstraints fuel _ s) as [[t|e|] s1] eqn:E; simpl.
    + intros [= <- <-] _ _. simpl. rewrite E. reflexivity.
    + destruct (isInternalTypeError e && negb (isCyclic e)) eqn:E'; simpl.
      * intros [= <- <-] _ Hu. exfalso. revert Hu. eapply unmarked_pushError. reflexivity.
      * intros [= <- <-] _ _; simpl. rewrite bool_decide_eq_false_2 by done; simpl.
        rewrite E; simpl; rewrite E'; reflexivity.
    + discriminate.
Qed.

Lemma Again_traverseParam (fuel : nat) :
  Again (traverseParam fuel) (prod_map eraseAnn (fun x => x)).
Proof.
  intros [a x] s0 [a1 x1] sA s [a2 x2] s' H1 H2 Hu.
  unfold traverseParam in *. simpl in *. inv_run.
  match goal with
  | Ha : annotate fuel false _ _ = _, Hb : annotate fuel true _ _ = _ |- _ =>
      destruct (Again_annotate fuel _ _ _ _ _ _ _ Ha Hb Hu) as (b3 & Ha1 & Ha2 & Ha3)
  end.
  exists (b3, x2). repeat split.
  - simpl. run_binds.
  - unfold prod_map; simpl. by rewrite Ha2.
  - simpl. run_binds.
Qed.

(** The decoration of [functionInferredType] looks neither at the node nor
    at what the field holds. *)
Lemma annotateFunction_decoration (fuel : nat) (a : Ann) (f : option Ty) (s : State) :
  annotateFunction fuel false a f s
  = (Ok (a, Some (TVariable ("T" +:+ pretty (typeIdCounter s)))),
     (annotateFunction fuel false (mkAnn 0 None NotYetTyped) None s).2).
Proof. reflexivity. Qed.

(** The resolution of [functionInferredType] marks the declaration with a
    [TypeError] only. *)
Lemma annotateFunction_unmarked (fuel : nat) (a : Ann) (f : option Ty)
    (r : Ann * option Ty) (s s' : State) :
  annotateFunction fuel true a f s = (Ok r, s') -> unmarked s' -> r.1 = a.
Proof.
  unfold annotateFunction, tryCatch. intros H Hu. inv_run.
  match goal with
  | H : (let (_, _) := ?m in _) = _ |- _ =>
      destruct m as [[x|e|] sm] eqn:E; [| |discriminate]; inv_run
  end; [done|].
  destruct (isCyclic e); inv_run; [done|].
  destruct (isInternalTypeError e); inv_run; [|done].
  exfalso.
  match goal with
  | Hn : nextId _ = (Ok _, s') |- _ => injection Hn as _ <-
  end.
  match goal with
  | Hp : pushError _ _ = _ |- _ => apply unmarked_pushError in Hp; apply Hp
  end.
  exact Hu.
Qed.

Ltac again_one H :=
  let x := fresh "x" in
  let A := fresh "A" in
  let B := fresh "B" in
  let C := fresh "C" in
  destruct H as (x & A & B & C);
  match type of A with ?T => change (kept T) in A end;
  match type of C with ?T => change (kept T) in C end.

(** Every pair of a decoration and the resolution of its result, among
    the hypotheses, is run again. *)
Ltac again_children IH fuel :=
  repeat match goal with
         | Ha : annotate fuel false _ _ = (Ok ?a1, _),
           Hb : annotate fuel true ?a1 _ = (Ok _, ?sb), Hu : unmarked ?sb |- _ =>
             again_one (Again_annotate fuel _ _ _ _ _ _ _ Ha Hb Hu); clear Ha Hb
         | Ha : traverse fuel false _ _ = (Ok ?c1, _),
           Hb : traverse fuel true ?c1 _ = (Ok _, ?sb), Hu : unmarked ?sb |- _ =>
             again_one (IH _ _ _ _ _ _ _ Ha Hb Hu); clear Ha Hb
         | Ha : mapM (traverse fuel false) _ _ = (Ok ?c1, _),
           Hb : mapM (traverse fuel true) ?c1 _ = (Ok _, ?sb), Hu : unmarked ?sb |- _ =>
             again_one (Again_mapM _ _ (proj1 (proj2 (proj2 (proj2 (proj2
                          (resolution_grows fuel)))))) IH _ _ _ _ _ _ _ Ha Hb Hu);
             clear Ha Hb
         | Ha : mapM (traverseParam fuel false) _ _ = (Ok ?c1, _),
           Hb : mapM (traverseParam fuel true) ?c1 _ = (Ok _, ?sb), Hu : unmarked ?sb |- _ =>
             again_one (Again_mapM _ _ (proj2 (proj2 (proj2 (proj2 (proj2
                          (resolution_grows fuel))))))
                          (Again_traverseParam fuel) _ _ _ _ _ _ _ Ha Hb Hu);
             clear Ha Hb
         end;
  unfold kept in *.

(** What the two steps for [functionInferredType] have returned. *)
Ltac again_function fuel :=
  repeat match goal with
         | H : annotateFunction fuel false _ _ _ = (Ok _, _) |- _ =>
             rewrite annotateFunction_decoration in H; injection H as <- <-
         end.

Ltac run_again :=
  repeat first [erewrite bind_run by eassumption
               | erewrite bind_run by apply annotateFunction_decoration
               | rewrite bind_bind | rewrite bind_ret];
  try reflexivity.

Lemma Again_traverse (fuel : nat) : Again (traverse fuel) erase.
Proof.
  induction fuel as [|fuel IH]; intros p s0 q sA s r s' H1 H2 Hu; [discriminate|].
  destruct p; cbn [traverse traverseChildren ann] in H1;
    try destruct declarations as [|[i init] rest];
    try destruct alternate as [alternate|];
    inv_run; again_function fuel;
    cbn [traverse traverseChildren ann fst snd] in H2; inv_run;
    unmarked_back fuel;
    try match goal with
        | H : annotateFunction fuel true ?a _ _ = (Ok ?x, ?sb), Hc : unmarked ?sb |- _ =>
            let E := fresh "E" in
            pose proof (annotateFunction_unmarked _ _ _ _ _ _ H Hc) as E;
            destruct x; cbn [fst snd] in *; subst
        end;
    again_children IH fuel;
    (eexists; split;
     [cbn [traverse traverseChildren ann fst snd]; run_again
     |split;
      [cbn [erase fst snd]; congruence
      |cbn [traverse traverseChildren ann fst snd]; run_again]]).
Qed.

(** [typeCheck] on a program that it has annotated without a [TypeError]
    among the diagnostics gives the same annotated program and the same
    diagnostics again. *)
Lemma typeCheck_again (fuel : nat) (program annotated : Node)
    (errors : list SourceError) (s1 s2 s' : State) :
  typeCheck fuel program s1 = (Ok (annotated, errors), s') ->
  Forall (fun d => isTypeError d = false) errors ->
  typeCheck fuel annotated s2 = (Ok (annotated, errors), s').
Proof.
  unfold typeCheck. intros H Hu.
  apply bind_Ok in H as ([] & s0 & Hreset & H).
  unfold reset in Hreset. injection Hreset as <-.
  cbv zeta in H. inv_run.
  match goal with
  | Hg : getState _ = _ |- _ => unfold getState in Hg; simplify_eq
  end.
  match goal with
  | Ha : traverse fuel false _ _ = (Ok ?c1, _),
    Hb : traverse fuel true ?c1 _ = _ |- _ =>
      destruct (Again_traverse fuel _ _ _ _ _ _ _ Ha Hb Hu) as (q2 & Hq1 & Hq2 & Hq3)
  end.
  match goal with
  | Hi : infer fuel ?q ?env true ?s = _ |- _ =>
      assert (Hinfer : infer fuel q2 env true s = infer fuel q env true s)
        by (rewrite <- (infer_erase fuel q2), Hq2; apply infer_erase);
      rewrite Hi in Hinfer
  end.
  unfold bind at 1, reset. cbv beta iota zeta. run_binds.
Qed.

(** ** Determinism *)

(** C8.  [typeCheck] starts by setting [typeIdCounter] to 0 and
    [typeErrors] to the empty list, with a store of its own: whatever state
    earlier calls have left, two calls on a program have the same outcome,
    with the same annotated tree (the same variable names and types on
    every node) and the same list of diagnostics, and leave the same
    state.  A second call on the same program object is given the tree
    that the first call has annotated: when the diagnostics of the first
    call hold no [TypeError], it returns that tree with the same
    annotations on every node and the same list of diagnostics. *)
Theorem C8_typeCheck_again_without_TypeError (fuel : nat) (program annotated : Node)
    (errors : list SourceError) (s1 s2 s' : State) :
  typeCheck fuel program s1 = typeCheck fuel program s2
  /\ (typeCheck fuel program s1 = (Ok (annotated, errors), s') ->
      Forall (fun d => isTypeError d = false) errors ->
      typeCheck fuel annotated s2 = (Ok (annotated, errors), s')).
Proof.
  split.
  - unfold typeCheck, bind at 1, reset. reflexivity.
  - apply typeCheck_again.
Qed.

Lemma C8_typeCheck_again_without_TypeError_witness :
  exists annotated errors s',
    typeCheck 50 program_adds_booleans emptyState = (Ok (annotated, errors), s')
    /\ Forall (fun d => isTypeError d = false) errors
    /\ typeCheck 50 annotated s' = (Ok (annotated, errors), s').
Proof.
  eexists _, _, _. split; [vm_compute; reflexivity|].
  split; [repeat constructor|].
  eapply (proj2 (C8_typeCheck_again_without_TypeError 50 program_adds_booleans _ _
                   emptyState _ _)).
  - vm_compute. reflexivity.
  - repeat constructor.
Defined.

(** The resolution of [pair(1, pair('x', null));] records a [TypeError] on
    the callee of the outer call and so marks it: the second call leaves
    that node alone, with the variable of its own decoration, and does not
    record the [TypeError] again. *)
Lemma C8_second_typeCheck_differs :
  exists annotated errors s' annotated' errors' s'',
    typeCheck 50 program_pair_of_number_and_string emptyState
      = (Ok (annotated, errors), s')
    /\ typeCheck 50 annotated s' = (Ok (annotated', errors'), s'')
    /\ annotated' <> annotated
    /\ errors' <> errors
    /\ callSites annotated !! 0 = Some (2, Some (TVariable "T3"), 2)
    /\ callSites annotated' !! 0 = Some (2, Some (TVariable "T14"), 2)
    /\ errors
       = [InvalidArgumentTypesError 2 [4; 5] (Some [TVariable "T9"; TVariable "T10"])
            [tNumber; TPair tString (TList tString)];
          TypeError 3 (UnifyError tString tNumber)]
    /\ errors'
       = [InvalidArgumentTypesError 2 [4; 5] (Some [TVariable "T9"; TVariable "T10"])
            [tNumber; TPair tString (TList tString)]].
Proof.
  eexists _, _, _, _, _, _.
  split; [vm_compute; reflexivity|].
  split; [vm_compute; reflexivity|].
  split_and!; [discriminate|discriminate|reflexivity..].
Qed.

(** * Further properties of the code *)

(** ** Free variables *)

Lemma union__prefix (a b : list string) : a `prefix_of` union_ a b.
Proof.
  unfold union_. revert a. induction b as [|x b IH]; intros a; simpl; [done|].
  case_bool_decide; [apply IH|].
  etransitivity; [|apply IH]. by apply prefix_app_r.
Qed.

Lemma elem_of_union_ (a b : list string) (x : string) :
  x ∈ union_ a b <-> x ∈ a \/ x ∈ b.
Proof.
  unfold union_. revert a. induction b as [|y b IH]; intros a; simpl.
  - rewrite elem_of_nil. tauto.
  - rewrite elem_of_cons. case_bool_decide as Hy; rewrite IH.
    + split; [tauto|]. intros [?|[->|?]]; auto.
    + rewrite elem_of_app, list_elem_of_singleton. tauto.
Qed.

Lemma NoDup_union_ (a b : list string) : NoDup a -> NoDup (union_ a b).
Proof.
  unfold union_. revert a. induction b as [|y b IH]; intros a Ha; simpl; [done|].
  case_bool_decide as Hy; apply IH; [done|].
  apply NoDup_app. split; [done|]. split; [|apply NoDup_singleton].
  intros z Hz ->%list_elem_of_singleton. done.
Qed.

(** X1.  [union(a, b)] begins with [a], holds the names of [a] and of [b] and no
    other, and holds no name twice when [a] does not. *)
Theorem union_appends_the_new_names (a b : list string) :
  a `prefix_of` union_ a b
  /\ (forall x, x ∈ union_ a b <-> x ∈ a \/ x ∈ b)
  /\ (NoDup a -> NoDup (union_ a b)).
Proof.
  split; [apply union__prefix|]. split; [intros x; apply elem_of_union_|].
  apply NoDup_union_.
Qed.

Lemma union_appends_the_new_names_witness :
  NoDup ["a"; "b"] /\ NoDup (union_ ["a"; "b"] ["b"; "c"; "c"]).
Proof.
  assert (H : NoDup ["a"; "b"]) by (apply (bool_decide_unpack _); vm_compute; exact I).
  split; [exact H|].
  exact (proj2 (proj2 (union_appends_the_new_names ["a"; "b"] ["b"; "c"; "c"])) H).
Defined.

Lemma elem_of_freeTypeVars_fold (ps : list Ty) (acc : list string) :
  Forall (fun p => forall name, name ∈ freeTypeVarsInType p <-> contains p name = true) ps ->
  forall name,
    name ∈ fold_left (fun acc currentType => union_ acc (freeTypeVarsInType currentType))
                     ps acc
    <-> name ∈ acc \/ existsb (fun currentType => contains currentType name) ps = true.
Proof.
  intros H. revert acc. induction H as [|p ps Hp _ IH]; intros acc name; simpl.
  - split; [auto|]. intros [?|?]; [done|discriminate].
  - rewrite IH, elem_of_union_, Hp, orb_true_iff. tauto.
Qed.

Lemma elem_of_freeTypeVarsInType (type : Ty) (name : string) :
  name ∈ freeTypeVarsInType type <-> contains type name = true.
Proof.
  revert name.
  induction type as [p|n|ps r IHps IHr|h t IHh IHt|e IH|e IH] using Ty_induction;
    intros name; simpl.
  - rewrite elem_of_nil. split; [done|discriminate].
  - rewrite list_elem_of_singleton, bool_decide_eq_true. split; congruence.
  - rewrite elem_of_union_, (elem_of_freeTypeVars_fold ps [] IHps), IHr, elem_of_nil,
      orb_true_iff. tauto.
  - rewrite elem_of_union_, IHh, IHt, orb_true_iff. tauto.
  - apply IH.
  - apply IH.
Qed.

Lemma NoDup_freeTypeVars_fold (ps : list Ty) (acc : list string) :
  NoDup acc ->
  NoDup (fold_left (fun acc currentType => union_ acc (freeTypeVarsInType currentType))
                   ps acc).
Proof.
  revert acc. induction ps as [|p ps IH]; intros acc Hacc; simpl; [done|].
  by apply IH, NoDup_union_.
Qed.

(** X2.  [freeTypeVarsInType(type)] lists the names that [contains] finds in
    [type], each of them once. *)
Theorem freeTypeVarsInType_lists_contained_names (type : Ty) :
  NoDup (freeTypeVarsInType type)
  /\ forall name, name ∈ freeTypeVarsInType type <-> contains type name = true.
Proof.
  split; [|intros name; apply elem_of_freeTypeVarsInType].
  induction type as [p|n|ps r _ IHr|h t IHh _|e IH|e IH] using Ty_induction; simpl.
  - apply NoDup_nil_2.
  - apply NoDup_singleton.
  - apply NoDup_union_, NoDup_freeTypeVars_fold, NoDup_nil_2.
  - by apply NoDup_union_.
  - exact IH.
  - exact IH.
Qed.

(** ** Instances of a polymorphic type *)

Lemma existsb_contains (ps : list Ty) (name : string) :
  existsb (fun currentType => contains currentType name) ps = true
  <-> exists p, p ∈ ps /\ contains p name = true.
Proof.
  rewrite existsb_exists. split; intros (p & Hp & H); exists p; split; auto;
    by apply list_elem_of_In.
Qed.

Lemma contains_fresh (t : Ty) (subst : list (string * string)) (name : string) :
  (forall n, contains t n = true -> n ∈ subst.*1) ->
  contains (fresh t subst) name = true -> name ∈ subst.*2.
Proof.
  induction t as [p|n|ps r IHps IHr|h t IHh IHt|e IH|e IH] using Ty_induction;
    simpl; intros Hdom.
  - discriminate.
  - destruct (find _ subst) as [p|] eqn:E.
    + simpl. intros <-%bool_decide_eq_true.
      apply find_some in E as [E _]. apply list_elem_of_In in E.
      apply list_elem_of_fmap. by exists p.
    + exfalso. specialize (Hdom n (bool_decide_eq_true_2 _ eq_refl)).
      apply list_elem_of_fmap in Hdom as (p & -> & Hp).
      apply list_elem_of_In in Hp.
      pose proof (find_none _ _ E p Hp) as Hn. simpl in Hn.
      by rewrite bool_decide_eq_true_2 in Hn.
  - rewrite orb_true_iff, existsb_contains. intros [(p & Hp & H)|H].
    + apply list_elem_of_fmap in Hp as (q & -> & Hq).
      rewrite Forall_forall in IHps. apply (IHps q Hq); [|done].
      intros n Hn. apply Hdom. rewrite orb_true_iff, existsb_contains. eauto.
    + apply IHr; [|done]. intros n Hn. apply Hdom. by rewrite Hn, orb_true_r.
  - rewrite orb_true_iff. intros [H|H].
    + apply IHh; [|done]. intros n Hn. apply Hdom. by rewrite Hn.
    + apply IHt; [|done]. intros n Hn. apply Hdom. by rewrite Hn, orb_true_r.
  - by apply IH.
  - by apply IH.
Qed.

#[global] Instance nameOf_inj : Inj (=) (=) nameOf.
Proof.
  intros a b H. unfold nameOf in H. apply (inj pretty).
  by apply (inj (String.append "T")) in H.
Qed.

Lemma freshTypeVar_run (typeVar : string) (s : State) :
  freshTypeVar typeVar s
    = (Ok (nameOf (typeIdCounter s)),
       mkState (constraints s)
               (<[nameOf (typeIdCounter s) := kindOf s typeVar]> (kinds s))
               (S (typeIdCounter s)) (typeErrors s)).
Proof. reflexivity. Qed.

(** The loop of [extractFreeVariablesAndGenFresh] over a list of
    variables. *)
Lemma freshTypeVars_run (l : list string) (s : State) :
  exists s',
    mapM (fun val => n <- freshTypeVar val;; ret (val, n)) l s
      = (Ok (zip l (nameOf <$> seq (typeIdCounter s) (length l))), s')
    /\ constraints s' = constraints s
    /\ typeErrors s' = typeErrors s
    /\ typeIdCounter s' = typeIdCounter s + length l
    /\ (forall name,
          (forall k, typeIdCounter s <= k < typeIdCounter s + length l -> name <> nameOf k) ->
          kindOf s' name = kindOf s name)
    /\ ((forall k, typeIdCounter s <= k -> nameOf k ∉ l) ->
        forall i v, l !! i = Some v ->
          kindOf s' (nameOf (typeIdCounter s + i)) = kindOf s v).
Proof.
  revert s. induction l as [|x l IH]; intros s.
  - exists s. simpl. repeat split; auto with lia. intros _ i v. by rewrite lookup_nil.
  - set (s1 := mkState (constraints s)
                 (<[nameOf (typeIdCounter s) := kindOf s x]> (kinds s))
                 (S (typeIdCounter s)) (typeErrors s)).
    destruct (IH s1) as (s' & Hrun & Hc & He & Hn & Hold & Hnew).
    assert (Hk : forall name, kindOf s1 name
                   = if bool_decide (name = nameOf (typeIdCounter s)) then kindOf s x
                     else kindOf s name).
    { intros name. unfold kindOf, s1; simpl. case_bool_decide as E.
      - subst. by rewrite lookup_insert_eq.
      - by rewrite lookup_insert_ne. }
    exists s'. split; [|split; [|split; [|split; [|split]]]].
    + cbn [mapM]. rewrite bind_bind.
      erewrite bind_run by apply freshTypeVar_run. rewrite bind_ret.
      fold s1. erewrite bind_run by exact Hrun. reflexivity.
    + by rewrite Hc.
    + by rewrite He.
    + rewrite Hn. simpl. lia.
    + intros name Hname. rewrite Hold, Hk.
      * rewrite bool_decide_eq_false_2; [done|]. apply Hname. simpl. lia.
      * intros k Hk'. apply Hname. simpl in *. lia.
    + intros Hfree [|i] v Hv; simpl in Hv.
      * injection Hv as ->. rewrite Nat.add_0_r, Hold, Hk.
        -- by rewrite bool_decide_eq_true_2.
        -- intros k Hk' ?%(inj nameOf). simpl in Hk'. lia.
      * replace (typeIdCounter s + S i) with (typeIdCounter s1 + i) by (simpl; lia).
        rewrite (Hnew) with (v := v); [| |done].
        -- rewrite Hk. rewrite bool_decide_eq_false_2; [done|].
           intros ->. apply (Hfree (typeIdCounter s)); [lia|].
           apply elem_of_cons. right. by eapply list_elem_of_lookup_2.
        -- intros k Hk' Hin. apply (Hfree k); [simpl in Hk'; lia|].
           apply elem_of_cons. by right.
Qed.

(** X3.  [extractFreeVariablesAndGenFresh] never throws: it draws one name from
    the counter for each free variable of the type, in the order of
    [freeTypeVarsInType], and returns the type with each variable replaced
    by its new name.  The store and the diagnostics stay as they are, and
    every variable of the instance is one of the names drawn. *)
Theorem extractFreeVariablesAndGenFresh_renames (monoType : Ty) (s : State) :
  let vars := freeTypeVarsInType monoType in
  let names := nameOf <$> seq (typeIdCounter s) (length vars) in
  exists s',
    extractFreeVariablesAndGenFresh monoType s
      = (Ok (fresh monoType (zip vars names)), s')
    /\ constraints s' = constraints s
    /\ typeErrors s' = typeErrors s
    /\ typeIdCounter s' = typeIdCounter s + length vars
    /\ forall name,
         contains (fresh monoType (zip vars names)) name = true -> name ∈ names.
Proof.
  cbv zeta.
  destruct (freshTypeVars_run (freeTypeVarsInType monoType) s)
    as (s' & Hrun & Hc & He & Hn & _).
  exists s'. split; [|split; [|split; [|split]]]; auto.
  - unfold extractFreeVariablesAndGenFresh. cbv zeta.
    erewrite bind_run by exact Hrun. reflexivity.
  - intros name H.
    assert (Hlen : length (freeTypeVarsInType monoType)
                   = length (nameOf <$> seq (typeIdCounter s)
                                            (length (freeTypeVarsInType monoType)))).
    { by rewrite length_fmap, length_seq. }
    apply contains_fresh in H.
    + rewrite snd_zip in H by lia. exact H.
    + intros n Hn'. rewrite fst_zip by lia.
      by apply elem_of_freeTypeVarsInType.
Qed.

(** X4.  The new variable that stands for a free variable carries the
    constraint of that variable: the instance of an addable variable is
    addable.  The precondition is that of every run: the names that the
    counter has still to give out are not in use. *)
Theorem fresh_variable_copies_the_constraint (monoType : Ty) (s : State)
    (i : nat) (v : string) :
  (forall k, typeIdCounter s <= k -> contains monoType (nameOf k) = false) ->
  freeTypeVarsInType monoType !! i = Some v ->
  kindOf (extractFreeVariablesAndGenFresh monoType s).2 (nameOf (typeIdCounter s + i))
    = kindOf s v.
Proof.
  intros Hfree Hv.
  destruct (freshTypeVars_run (freeTypeVarsInType monoType) s)
    as (s' & Hrun & _ & _ & _ & _ & Hnew).
  unfold extractFreeVariablesAndGenFresh. cbv zeta.
  erewrite bind_run by exact Hrun. simpl. apply Hnew; [|done].
  intros k Hk Hin%elem_of_freeTypeVarsInType. by rewrite Hfree in Hin.
Qed.

Lemma fresh_variable_copies_the_constraint_witness :
  kindOf (extractFreeVariablesAndGenFresh
            (tFunc [tAddable "A"; tAddable "A"] (tAddable "A")) initialState).2
         (nameOf 0)
    = addable.
Proof.
  refine (eq_trans (fresh_variable_copies_the_constraint
                      (tFunc [tAddable "A"; tAddable "A"] (tAddable "A"))
                      initialState 0 "A" _ eq_refl) eq_refl).
  intros k _. unfold nameOf. simpl. reflexivity.
Defined.

(** ** What the unifier leaves alone *)

Section UnifierKeeps.
Variable R : State -> State -> Prop.
Context `{!PreOrder R}.
Hypothesis R_push : forall LHS RHS, preserves R (push LHS RHS).
Hypothesis R_setKind_addable : forall v, preserves R (setKind v addable).

Ltac keeps_step IH :=
  match goal with
  | |- preserves R (ret _) => apply (preserves_ret R)
  | |- preserves R (throw _) => apply (preserves_throw R)
  | |- preserves R outOfFuel => apply (preserves_outOfFuel R)
  | |- preserves R getState => apply (preserves_getState R)
  | |- preserves R (push _ _) => apply R_push
  | |- preserves R (setKind _ addable) => apply R_setKind_addable
  | |- preserves R (bind _ _) => apply (preserves_bind R); [|intros ?]
  | |- preserves R (mapM _ _) => apply (preserves_mapM R); intros ?
  | |- preserves R (forEach _ _) => apply (preserves_forEach R); intros ?
  | |- preserves R (addToConstraintList _ _ _) => apply IH
  | |- preserves R (occursOnLeftInConstraintList _ _ _) => apply IH
  | |- preserves R (applyConstraints _ _) => apply IH
  | |- preserves R (__applyConstraints _ _) => apply IH
  | |- preserves R (if bool_decide (?k = addable) && _ then setKind _ ?k else _) =>
      destruct (decide (k = addable)) as [->|];
      [rewrite bool_decide_eq_true_2 by done
      |rewrite bool_decide_eq_false_2 by done]; cbn [andb]
  | |- preserves R (if ?b then _ else _) => destruct b
  | |- preserves R (match ?x with _ => _ end) => destruct x
  | |- preserves R (let _ := _ in _) => cbv zeta
  end.

(** Every call of the unifier and of the walker keeps a relation that the
    two writes of the unifier keep: the push of an entry, and the change of
    a variable to addable. *)
Lemma unifier_keeps (fuel : nat) :
  (forall LHS RHS, preserves R (addToConstraintList fuel LHS RHS))
  /\ (forall LHS RHS, preserves R (occursOnLeftInConstraintList fuel LHS RHS))
  /\ (forall type, preserves R (applyConstraints fuel type))
  /\ (forall type, preserves R (__applyConstraints fuel type)).
Proof.
  induction fuel as [|fuel IH].
  - repeat split; intros; apply (preserves_outOfFuel R).
  - destruct IH as (IHadd & IHocc & IHapp & IHapp').
    repeat split; intros;
      cbn [addToConstraintList occursOnLeftInConstraintList
           applyConstraints __applyConstraints];
      repeat (keeps_step IHadd || keeps_step IHocc
              || keeps_step IHapp || keeps_step IHapp').
Qed.
End UnifierKeeps.

#[global] Instance sameCounterAndErrors_preorder : PreOrder sameCounterAndErrors.
Proof.
  split.
  - intros s. split; reflexivity.
  - intros s1 s2 s3 [H1 H2] [H3 H4]. split; congruence.
Qed.

#[global] Instance addableStays_preorder : PreOrder addableStays.
Proof.
  split.
  - intros s v H. exact H.
  - intros s1 s2 s3 H1 H2 v H. apply H2, H1, H.
Qed.

(** X5.  Neither [addToConstraintList] nor [applyConstraints] draws a name from
    [typeIdCounter] or records a diagnostic, whatever their outcome. *)
Theorem unifier_keeps_counter_and_diagnostics (fuel : nat) (LHS RHS type : Ty)
    (s : State) :
  sameCounterAndErrors s (addToConstraintList fuel LHS RHS s).2
  /\ sameCounterAndErrors s (applyConstraints fuel type s).2.
Proof.
  destruct (unifier_keeps sameCounterAndErrors) with (fuel := fuel)
    as (Hadd & _ & Happ & _).
  - intros l r s0 res s' [= _ <-]. split; reflexivity.
  - intros v s0 res s' [= _ <-]. split; reflexivity.
  - split.
    + eapply Hadd. apply surjective_pairing.
    + eapply Happ. apply surjective_pairing.
Qed.

(** X6.  The unifier changes the constraint of a variable in one direction
    only: a variable that is addable before a call of
    [addToConstraintList] or [applyConstraints] is addable after it. *)
Theorem unifier_keeps_addable_variables (fuel : nat) (LHS RHS type : Ty)
    (s : State) (v : string) :
  kindOf s v = addable ->
  kindOf (addToConstraintList fuel LHS RHS s).2 v = addable
  /\ kindOf (applyConstraints fuel type s).2 v = addable.
Proof.
  intros Hv.
  destruct (unifier_keeps addableStays) with (fuel := fuel)
    as (Hadd & _ & Happ & _).
  - intros l r s0 res s' [= _ <-]. intros w Hw. exact Hw.
  - intros w s0 res s' [= _ <-]. intros u Hu. unfold kindOf in *; simpl.
    destruct (decide (u = w)) as [->|Hne].
    + by rewrite lookup_insert_eq.
    + by rewrite lookup_insert_ne.
  - split.
    + eapply Hadd; [apply surjective_pairing|exact Hv].
    + eapply Happ; [apply surjective_pairing|exact Hv].
Qed.

Lemma unifier_keeps_addable_variables_witness :
  kindOf initialState "A" = addable
  /\ kindOf (addToConstraintList 10 (TVariable "A") (TVariable "T0") initialState).2 "T0"
     = addable
  /\ kindOf (addToConstraintList 10 (TVariable "T1") tNumber
               (addToConstraintList 10 (TVariable "A") (TVariable "T0") initialState).2).2
            "T0"
     = addable.
Proof.
  split; [reflexivity|]. split; [vm_compute; reflexivity|].
  apply (unifier_keeps_addable_variables 10 (TVariable "T1") tNumber tNumber
           (addToConstraintList 10 (TVariable "A") (TVariable "T0") initialState).2 "T0").
  vm_compute. reflexivity.
Defined.

(** ** A type against itself *)

Lemma height_params (ps : list Ty) (r p : Ty) :
  p ∈ ps -> height p <= foldr (fun p n => height p `max` n) (height r) ps.
Proof.
  induction ps as [|q ps IH]; [by intros ?%elem_of_nil|].
  intros [->|H]%elem_of_cons; simpl; [lia|]. specialize (IH H). lia.
Qed.

Lemma height_return (ps : list Ty) (r : Ty) :
  height r <= foldr (fun p n => height p `max` n) (height r) ps.
Proof. induction ps as [|q ps IH]; simpl; lia. Qed.

Lemma forEach_same (f : Ty -> Ty -> M unit) (ps : list Ty) (s : State) :
  (forall p, p ∈ ps -> f p p s = (Ok tt, s)) ->
  forEach (fun p => f p.1 p.2) (zip ps ps) s = (Ok tt, s).
Proof.
  induction ps as [|p ps IH]; intros H; [reflexivity|].
  cbn [zip zip_with forEach]. erewrite bind_run.
  - apply IH. intros q Hq. apply H. apply elem_of_cons. by right.
  - simpl. apply H. apply elem_of_cons. by left.
Qed.

(** X7.  The constraint [type = type] is always accepted, and accepting it
    changes nothing: no entry is added, whatever variables the type holds.
    The bound on [fuel] is the depth of the recursion, one call for each
    level of the type. *)
Theorem addToConstraintList_same_type (fuel : nat) (type : Ty) (s : State) :
  height type < fuel -> addToConstraintList fuel type type s = (Ok tt, s).
Proof.
  revert fuel.
  induction type as [p|n|ps r IHps IHr|h t IHh IHt|e IH|e IH] using Ty_induction;
    intros [|fuel] Hfuel; try lia; cbn [addToConstraintList]; simpl in Hfuel.
  - by rewrite bool_decide_eq_true_2.
  - simpl. by rewrite bool_decide_eq_true_2.
  - rewrite bool_decide_eq_true_2 by done.
    erewrite bind_run.
    + apply IHr. pose proof (height_return ps r). lia.
    + apply (forEach_same (addToConstraintList fuel)). intros p Hp.
      rewrite Forall_forall in IHps. apply IHps; [done|].
      pose proof (height_params ps r p Hp). lia.
  - erewrite bind_run; [apply IHt; lia|apply IHh; lia].
  - apply IH. lia.
  - apply IH. lia.
Qed.

Lemma addToConstraintList_same_type_witness :
  height (tFunc [tPair (TVariable "T0") tNumber] (tList (TVariable "T1"))) < 3
  /\ addToConstraintList 3 (tFunc [tPair (TVariable "T0") tNumber] (tList (TVariable "T1")))
                           (tFunc [tPair (TVariable "T0") tNumber] (tList (TVariable "T1")))
                           emptyState
     = (Ok tt, emptyState).
Proof.
  assert (H : height (tFunc [tPair (TVariable "T0") tNumber] (tList (TVariable "T1"))) < 3)
    by (simpl; lia).
  split; [exact H|]. exact (addToConstraintList_same_type 3 _ emptyState H).
Defined.

(** ** What an addable variable can be bound to *)



(** ** A variable and what it was bound to *)

Lemma mapM_id {A} (f : A -> M A) (l : list A) (s : State) :
  (forall x, x ∈ l -> f x s = (Ok x, s)) -> mapM f l s = (Ok l, s).
Proof.
  induction l as [|x l IH]; intros H; [reflexivity|].
  cbn [mapM]. erewrite bind_run by (apply H, elem_of_cons; by left).
  erewrite bind_run; [reflexivity|]. apply IH. intros y Hy. apply H, elem_of_cons. by right.
Qed.

(** The walker gives a plain type back as it is and changes nothing. *)
Lemma plain_applyConstraints (fuel : nat) :
  (forall t s, plain t = true -> 2 * height t < fuel ->
     __applyConstraints fuel t s = (Ok t, s))
  /\ (forall t s, plain t = true -> 2 * height t + 1 < fuel ->
        applyConstraints fuel t s = (Ok t, s)).
Proof.
  induction fuel as [|fuel [IH' IH]]; [split; intros; lia|].
  assert (H' : forall t s, plain t = true -> 2 * height t < S fuel ->
                 __applyConstraints (S fuel) t s = (Ok t, s)).
  { intros t s Hp Hf. destruct t as [p|n|ps r|h t|e|e]; try discriminate;
      cbn [__applyConstraints]; simpl in Hp, Hf.
    - reflexivity.
    - apply andb_true_iff in Hp as [Hps Hr].
      erewrite bind_run.
      + erewrite bind_run; [reflexivity|]. apply IH; [done|].
        pose proof (height_return ps r). lia.
      + apply mapM_id. intros p Hp. apply IH.
        * rewrite forallb_forall in Hps. by apply Hps, list_elem_of_In.
        * pose proof (height_params ps r p Hp). lia.
    - erewrite bind_run; [reflexivity|]. apply IH'; [done|lia]. }
  split; [exact H'|].
  intros t s Hp Hf. cbn [applyConstraints].
  destruct fuel as [|fuel]; [lia|].
  erewrite bind_run by (apply IH'; [done|lia]).
  destruct t as [p|n|ps r|h t|e|e]; try discriminate; reflexivity.
Qed.

(** X10.  Binding and resolving.  A variable that has no entry yet, bound to a
    plain type that its constraint allows, gets the one entry
    [(v, t)] at the end of the store; resolving the variable in the store
    that results gives [t] back and leaves that store as it is. *)
Theorem bound_variable_resolves_to_its_type (fuel : nat) (v : string) (t : Ty)
    (s : State) :
  plain t = true ->
  firstEntry v (constraints s) = None ->
  cannotBeResolvedIfAddable (kindOf s v) t = false ->
  2 * height t + 3 < fuel ->
  let s' := mkState (constraints s ++ [(v, t)]) (kinds s) (typeIdCounter s)
                    (typeErrors s) in
  addToConstraintList fuel (TVariable v) t s = (Ok tt, s')
  /\ applyConstraints fuel (TVariable v) s' = (Ok t, s').
Proof.
  intros Hp Hfirst Haddable Hfuel s'.
  destruct fuel as [|[|fuel]]; try lia.
  assert (Hc : contains t v = false).
  { clear -Hp. induction t as [p|n|ps r IHps IHr|h t IHh IHt|e IH|e IH] using Ty_induction;
      try discriminate; simpl in *; auto.
    apply andb_true_iff in Hp as [Hps Hr]. rewrite (IHr Hr), orb_false_r.
    apply not_true_is_false. intros (p & Hin & Hc)%existsb_contains.
    rewrite Forall_forall in IHps. rewrite forallb_forall in Hps.
    rewrite IHps in Hc; [discriminate|done|]. by apply Hps, list_elem_of_In. }
  assert (Hn : hasName t v = false) by (destruct t; try reflexivity; discriminate).
  destruct (plain_applyConstraints (S fuel)) as [_ Happ1].
  destruct (plain_applyConstraints fuel) as [_ Happ0].
  split.
  - cbn [addToConstraintList]. rewrite Hn, Hc.
    unfold bind at 1, getState at 1. rewrite Haddable.
    erewrite bind_run by (apply Happ1; [done|lia]).
    cbn [occursOnLeftInConstraintList].
    unfold bind at 1, getState at 1. rewrite Hfirst.
    destruct t; try discriminate; reflexivity.
  - assert (Hlook : __applyConstraints (S fuel) (TVariable v) s' = (Ok t, s')).
    { cbn [__applyConstraints]. unfold bind at 1, getState at 1. cbv beta iota.
      unfold s' at 1. cbn [constraints].
      match goal with
      | |- context [firstEntry v ?l] =>
          assert (E : firstEntry v l = Some (v, t))
            by (etransitivity; [exact (firstEntry_app_None v _ (v, t) Hfirst)|];
                simpl; by rewrite bool_decide_eq_true_2)
      end.
      rewrite E, Hc.
      apply Happ0; [done|lia]. }
    cbn [applyConstraints]. erewrite bind_run by exact Hlook.
    destruct t; try discriminate; reflexivity.
Qed.

Lemma bound_variable_resolves_to_its_type_witness :
  addToConstraintList 8 (TVariable "T0") (tFunc [tNumber] (tArray tBool)) emptyState
    = (Ok tt, mkState [("T0", tFunc [tNumber] (tArray tBool))] ∅ 0 [])
  /\ applyConstraints 8 (TVariable "T0")
       (mkState [("T0", tFunc [tNumber] (tArray tBool))] ∅ 0 [])
     = (Ok (tFunc [tNumber] (tArray tBool)),
        mkState [("T0", tFunc [tNumber] (tArray tBool))] ∅ 0 []).
Proof.
  apply (bound_variable_resolves_to_its_type 8 "T0" (tFunc [tNumber] (tArray tBool))
           emptyState); [reflexivity|reflexivity|reflexivity|simpl; lia].
Defined.

(** ** The shape of what [applyConstraints] returns *)

Lemma mapM_length {A B} (f : A -> M B) (l : list A) (l' : list B) (s s' : State) :
  mapM f l s = (Ok l', s') -> length l' = length l.
Proof.
  revert l' s. induction l as [|x l IH]; intros l' s H; simpl in H.
  - by injection H as <- _.
  - inv_run. simpl. f_equal. eauto.
Qed.

Lemma __applyConstraints_shape (fuel : nat) (type r : Ty) (s s' : State) :
  __applyConstraints fuel type s = (Ok r, s') ->
  match type with
  | TPrimitive _ => r = type
  | TVariable _ => True
  | TFunction ps _ => exists ps' r', r = TFunction ps' r' /\ length ps' = length ps
  | TPair _ _ => isPair r = true
  | TList _ => isList r = true
  | TArray _ => exists e, r = TArray e
  end.
Proof.
  destruct fuel as [|fuel]; [discriminate|].
  destruct type; cbn [__applyConstraints]; intros H; inv_run; eauto.
  eexists _, _. split; [reflexivity|]. by eapply mapM_length.
Qed.

(** X12.  [applyConstraints] never returns a list type, since a list comes back
    as the pair of its element type and itself; and it returns a function
    type for a function type, with as many parameters. *)
Theorem applyConstraints_result_shape (fuel : nat) (type r : Ty) (s s' : State) :
  applyConstraints fuel type s = (Ok r, s') ->
  isList r = false
  /\ forall ps ret, type = TFunction ps ret ->
       exists ps' ret', r = TFunction ps' ret' /\ length ps' = length ps.
Proof.
  destruct fuel as [|fuel]; [discriminate|].
  cbn [applyConstraints]. intros H.
  apply bind_Ok in H as (result & s1 & Hres & H).
  pose proof (__applyConstraints_shape _ _ _ _ _ Hres) as Hshape.
  split.
  - destruct result as [p|n|ps ret|h1 t|e|e]; try (injection H as <- _; reflexivity).
    destruct t as [p|n|ps ret|h2 t|e|e]; try (injection H as <- _; reflexivity).
    destruct (getListType t); [|injection H as <- _; reflexivity].
    inv_run.
    match goal with
    | H : __applyConstraints _ (TPair _ _) _ = (Ok r, _) |- _ =>
        apply __applyConstraints_shape in H; by destruct r
    end.
  - intros ps ret ->. destruct Hshape as (ps' & ret' & -> & Hlen).
    injection H as <- _. eauto.
Qed.

Lemma applyConstraints_result_shape_witness :
  isList (TPair tNumber (TList tNumber)) = false
  /\ forall ps ret, TList tNumber = TFunction ps ret ->
       exists ps' ret', TPair tNumber (TList tNumber) = TFunction ps' ret'
                        /\ length ps' = length ps.
Proof.
  apply (applyConstraints_result_shape 5 (TList tNumber) _ emptyState emptyState).
  vm_compute. reflexivity.
Defined.

(** ** Types without variables *)

Lemma preserves_forEach_Forall {A} (f : A -> M unit) (l : list A) :
  Forall (fun x => preserves eq (f x)) l -> preserves eq (forEach f l).
Proof.
  induction 1 as [|x l Hx _ IH]; simpl.
  - apply (preserves_ret eq).
  - apply (preserves_bind eq); [exact Hx|]. intros _. exact IH.
Qed.

Lemma contains_params (ps : list Ty) (r p : Ty) :
  (forall name, contains (TFunction ps r) name = false) -> p ∈ ps ->
  forall name, contains p name = false.
Proof.
  intros H Hp name. specialize (H name). simpl in H.
  apply orb_false_iff in H as [H _]. apply not_true_is_false. intros Hc.
  assert (E : existsb (fun currentType => contains currentType name) ps = true)
    by (apply existsb_contains; eauto).
  congruence.
Qed.

Lemma ground_addToConstraintList (fuel : nat) (LHS RHS : Ty) :
  (forall name, contains LHS name = false) ->
  (forall name, contains RHS name = false) ->
  preserves eq (addToConstraintList fuel LHS RHS).
Proof.
  revert LHS RHS. induction fuel as [|fuel IH]; intros LHS RHS HL HR;
    [apply (preserves_outOfFuel eq)|].
  assert (Hor : forall a b : bool, a || b = false -> a = false /\ b = false)
    by (intros [] []; auto).
  destruct LHS as [p|n|ps r|h t|e|e];
    try (specialize (HL n); simpl in HL; by rewrite bool_decide_eq_true_2 in HL);
    destruct RHS as [p'|n'|ps' r'|h' t'|e'|e'];
    try (specialize (HR n'); simpl in HR; by rewrite bool_decide_eq_true_2 in HR);
    cbn [addToConstraintList]; try apply (preserves_throw eq).
  - destruct (bool_decide (p = p')); [apply (preserves_ret eq)|apply (preserves_throw eq)].
  - destruct (bool_decide (length ps = length ps'));
      [|apply (preserves_throw eq)].
    apply (preserves_bind eq).
    + apply preserves_forEach_Forall. apply Forall_forall. intros [a b] Hab.
      apply elem_of_zip_l in Hab as Ha. apply elem_of_zip_r in Hab as Hb.
      cbn [fst snd].
      apply IH; [exact (contains_params ps r a HL Ha)|exact (contains_params ps' r' b HR Hb)].
    + intros _. apply IH; intros name.
      * specialize (HL name). simpl in HL. by apply Hor in HL as [_ ?].
      * specialize (HR name). simpl in HR. by apply Hor in HR as [_ ?].
  - apply (preserves_bind eq); [|intros _]; apply IH; intros name;
      first [specialize (HL name); simpl in HL; by apply Hor in HL as [? ?]
            |specialize (HR name); simpl in HR; by apply Hor in HR as [? ?]].
  - apply IH; [exact HR|exact HL].
  - apply IH; [exact HR|]. intros name. simpl. specialize (HL name). simpl in HL.
    by rewrite HL.
  - apply IH; [exact HL|exact HR].
  - apply IH; [exact HL|exact HR].
Qed.

(** X8.  The unifier writes only when a variable is in play: a constraint
    between two types that hold no variable is checked and accepted or
    refused, and the state after the call is the state before it. *)
Theorem addToConstraintList_without_variables (fuel : nat) (LHS RHS : Ty) (s : State) :
  (forall name, contains LHS name = false) ->
  (forall name, contains RHS name = false) ->
  (addToConstraintList fuel LHS RHS s).2 = s.
Proof.
  intros HL HR. symmetry.
  eapply (ground_addToConstraintList fuel LHS RHS HL HR). apply surjective_pairing.
Qed.

Lemma addToConstraintList_without_variables_witness :
  (addToConstraintList 10 (tList tNumber) (tPair tNumber (tPair tNumber (tList tNumber)))
                       initialState).2
    = initialState.
Proof.
  apply (addToConstraintList_without_variables 10 (tList tNumber)
           (tPair tNumber (tPair tNumber (tList tNumber))) initialState);
    intros name; reflexivity.
Defined.

(** ** The value statement of a block *)

Lemma findIndex_spec {A} (f : Z -> A -> option bool) (l : list A) (i k : Z) :
  findIndex f l i = Some k ->
  (k = (-1)%Z
   /\ forall (j : nat) x, l !! j = Some x -> f (i + Z.of_nat j)%Z x = Some false)
  \/ (exists (j : nat) x,
        k = (i + Z.of_nat j)%Z /\ l !! j = Some x /\ f k x = Some true
        /\ forall (j' : nat) x', j' < j -> l !! j' = Some x' ->
             f (i + Z.of_nat j')%Z x' = Some false).
Proof.
  revert i. induction l as [|y l IH]; intros i; simpl.
  - intros [= <-]. left. split; [done|]. intros j x. by rewrite lookup_nil.
  - destruct (f i y) as [[]|] eqn:E; [| |discriminate].
    + intros [= <-]. right. exists 0, y. rewrite Z.add_0_r.
      repeat split; auto. intros j' x' Hj. lia.
    + intros H. apply IH in H as [[-> H]|(j & x & -> & Hx & Hf & Hbefore)].
      * left. split; [done|]. intros [|j] x Hx; simpl in Hx.
        -- injection Hx as <-. by rewrite Z.add_0_r.
        -- replace (i + Z.of_nat (S j))%Z with (i + 1 + Z.of_nat j)%Z by lia. eauto.
      * right. exists (S j), x.
        replace (i + Z.of_nat (S j))%Z with (i + 1 + Z.of_nat j)%Z by lia.
        repeat split; auto. intros [|j'] x' Hj Hx'; simpl in Hx'.
        -- injection Hx' as <-. by rewrite Z.add_0_r.
        -- replace (i + Z.of_nat (S j'))%Z with (i + 1 + Z.of_nat j')%Z by lia.
           apply Hbefore; [lia|done].
Qed.

Lemma at__lookup {A} (l : list A) (j : nat) : at_ l (Z.of_nat j) = l !! j.
Proof. unfold at_. rewrite bool_decide_eq_true_2 by lia. by rewrite Nat2Z.id. Qed.

(** X13.  Inside a function body or a nested block the value of the block is
    that of its first statement that holds a return statement, and that of
    its last statement when there is none before it.  The index that
    [returnBlockValueNodeIndexFor] returns names a statement of the body,
    and is [-1] for the empty body alone. *)
Theorem returnBlockValueNodeIndexFor_first_return (body : list Node) (index : Z) :
  returnBlockValueNodeIndexFor body false = Some index ->
  (body = [] /\ index = (-1)%Z)
  \/ (exists stmt,
        at_ body index = Some stmt
        /\ (index = (Z.of_nat (length body) - 1)%Z \/ statementHasReturn stmt = Some true)
        /\ forall (j : nat) earlier,
             (Z.of_nat j < index)%Z -> body !! j = Some earlier ->
             statementHasReturn earlier = Some false).
Proof.
  unfold returnBlockValueNodeIndexFor. intros H.
  apply findIndex_spec in H as [[-> H]|(j & x & -> & Hx & Hf & Hbefore)].
  - left. split; [|done]. destruct body as [|stmt body] using rev_ind; [done|].
    exfalso. specialize (H (length body) stmt).
    rewrite lookup_app_r, Nat.sub_diag in H by lia. specialize (H eq_refl).
    rewrite length_app in H. simpl in H.
    rewrite bool_decide_eq_true_2 in H by lia. discriminate.
  - right. exists x. rewrite Z.add_0_l, at__lookup. split; [done|]. split.
    + rewrite Z.add_0_l in Hf. case_bool_decide; [by left|by right].
    + intros j' x' Hj Hx'. specialize (Hbefore j' x'). rewrite Z.add_0_l in *.
      specialize (Hbefore ltac:(lia) Hx'). by case_bool_decide.
Qed.

Lemma returnBlockValueNodeIndexFor_first_return_witness :
  (returnBlockValueNodeIndexFor
     [ExpressionStatement (parsed 1) (Literal (parsed 2) LNumber);
      ReturnStatement (parsed 3) (Literal (parsed 4) LNumber);
      ExpressionStatement (parsed 5) (Literal (parsed 6) LNumber)] false = Some 1%Z)
  /\ exists stmt,
       at_ [ExpressionStatement (parsed 1) (Literal (parsed 2) LNumber);
            ReturnStatement (parsed 3) (Literal (parsed 4) LNumber);
            ExpressionStatement (parsed 5) (Literal (parsed 6) LNumber)] 1%Z = Some stmt
       /\ statementHasReturn stmt = Some true.
Proof.
  assert (H : returnBlockValueNodeIndexFor
     [ExpressionStatement (parsed 1) (Literal (parsed 2) LNumber);
      ReturnStatement (parsed 3) (Literal (parsed 4) LNumber);
      ExpressionStatement (parsed 5) (Literal (parsed 6) LNumber)] false = Some 1%Z)
    by reflexivity.
  split; [exact H|].
  destruct (returnBlockValueNodeIndexFor_first_return _ _ H)
    as [[E _]|(stmt & Hat & [E|Hret] & _)]; [discriminate E|discriminate E|].
  exists stmt. split; [exact Hat|exact Hret].
Defined.

(** X14.  At the top level the value of the block is that of its last statement
    that produces a value, and that of its last statement when no
    statement produces one.  Every statement after the index that
    [returnBlockValueNodeIndexFor] returns produces no value, and the index
    names a statement of the body unless the body is empty. *)
Theorem returnBlockValueNodeIndexFor_last_value (body : list Node) (index : Z) :
  returnBlockValueNodeIndexFor body true = Some index ->
  (forall (j : nat) later,
     (index < Z.of_nat j)%Z -> body !! j = Some later ->
     stmtHasValueReturningStmt later = Some false)
  /\ ((exists stmt, at_ body index = Some stmt
                    /\ stmtHasValueReturningStmt stmt = Some true)
      \/ (index = (Z.of_nat (length body) - 1)%Z
          /\ forall stmt, stmt ∈ body -> stmtHasValueReturningStmt stmt = Some false)).
Proof.
  unfold returnBlockValueNodeIndexFor.
  destruct (findIndex _ (reverse body) 0%Z) as [k|] eqn:E; [|discriminate].
  intros [= <-].
  apply findIndex_spec in E as [[-> H]|(j & x & -> & Hx & Hf & Hbefore)].
  - rewrite bool_decide_eq_true_2 by done. split.
    + intros j later Hj Hl. apply lookup_lt_Some in Hl. lia.
    + right. split; [done|]. intros stmt [j Hj]%elem_of_reverse%list_elem_of_lookup_1.
      by apply (H j).
  - rewrite Z.add_0_l. rewrite bool_decide_eq_false_2 by lia.
    apply reverse_lookup_Some in Hx as [Hx Hlt]. split.
    + intros j' later Hj Hl. pose proof (lookup_lt_Some _ _ _ Hl) as Hlt'.
      apply (Hbefore (length body - S j') later); [lia|].
      apply reverse_lookup_Some. split; [|lia].
      by replace (length body - S (length body - S j')) with j' by lia.
    + left. exists x.
      replace (Z.of_nat (length body) - 1 - Z.of_nat j)%Z
        with (Z.of_nat (length body - S j)) by lia.
      rewrite at__lookup. split; [done|]. exact Hf.
Qed.

Lemma returnBlockValueNodeIndexFor_last_value_witness :
  (returnBlockValueNodeIndexFor
     [ExpressionStatement (parsed 1) (Literal (parsed 2) LNumber);
      VariableDeclaration (parsed 3) kconst [(Some "x", Literal (parsed 4) LNumber)]]
     true = Some 0%Z)
  /\ forall (j : nat) later,
       (0 < Z.of_nat j)%Z ->
       [ExpressionStatement (parsed 1) (Literal (parsed 2) LNumber);
        VariableDeclaration (parsed 3) kconst [(Some "x", Literal (parsed 4) LNumber)]]
         !! j = Some later ->
       stmtHasValueReturningStmt later = Some false.
Proof.
  assert (H : returnBlockValueNodeIndexFor
     [ExpressionStatement (parsed 1) (Literal (parsed 2) LNumber);
      VariableDeclaration (parsed 3) kconst [(Some "x", Literal (parsed 4) LNumber)]]
     true = Some 0%Z) by reflexivity.
  split; [exact H|].
  exact (proj1 (returnBlockValueNodeIndexFor_last_value _ _ H)).
Defined.

(** X15.  [lastDeclNodeIndex], as the loop of the block case leaves it: no
    statement after it is a declaration, and it is the index of a
    declaration of the body unless it is [-1]. *)
Theorem lastDeclNodeIndexOf_is_the_last_declaration (body : list Node) :
  (forall (j : nat) later,
     (lastDeclNodeIndexOf body < Z.of_nat j)%Z -> body !! j = Some later ->
     isDeclaration later = false)
  /\ (lastDeclNodeIndexOf body = (-1)%Z
      \/ exists stmt, at_ body (lastDeclNodeIndexOf body) = Some stmt
                      /\ isDeclaration stmt = true).
Proof.
  unfold lastDeclNodeIndexOf.
  destruct (findIndex _ (reverse body) 0%Z) as [k|] eqn:E.
  - apply findIndex_spec in E as [[-> H]|(j & x & -> & Hx & Hf & Hbefore)].
    + rewrite bool_decide_eq_true_2 by done. split; [|by left].
      intros j later _ Hl.
      assert (Hin : later ∈ reverse body)
        by (apply elem_of_reverse; by eapply list_elem_of_lookup_2).
      apply list_elem_of_lookup_1 in Hin as [i Hi].
      specialize (H i later Hi). by injection H.
    + rewrite Z.add_0_l. rewrite bool_decide_eq_false_2 by lia.
      apply reverse_lookup_Some in Hx as [Hx Hlt]. split.
      * intros j' later Hj Hl. pose proof (lookup_lt_Some _ _ _ Hl) as Hlt'.
        assert (Hb : Some (isDeclaration later) = Some false); [|by injection Hb].
        apply (Hbefore (length body - S j') later); [lia|].
        apply reverse_lookup_Some. split; [|lia].
        by replace (length body - S (length body - S j')) with j' by lia.
      * right. exists x.
        replace (Z.of_nat (length body) - 1 - Z.of_nat j)%Z
          with (Z.of_nat (length body - S j)) by lia.
        rewrite at__lookup. split; [done|]. by injection Hf.
  - split; [|by left]. exfalso.
    clear -E. revert E. generalize 0%Z. induction (reverse body) as [|y l IH]; intros i; simpl.
    + discriminate.
    + destruct (isDeclaration y); [discriminate|]. apply IH.
Qed.

(** ** What the passes throw *)

Section ThrowsOnly.
Variable P : Exn -> Prop.

Lemma throwsOnly_ret {A} (a : A) : throwsOnly P (ret a).
Proof. intros s e s' H. discriminate H. Qed.

Lemma throwsOnly_throw {A} (e : Exn) : P e -> throwsOnly P (@throw A e).
Proof. intros He s e' s' [= <- _]. exact He. Qed.

Lemma throwsOnly_outOfFuel {A} : throwsOnly P (@outOfFuel A).
Proof. intros s e s' H. discriminate H. Qed.

Lemma throwsOnly_getState : throwsOnly P getState.
Proof. intros s e s' H. discriminate H. Qed.

Lemma throwsOnly_nextId : throwsOnly P nextId.
Proof. intros s e s' H. discriminate H. Qed.

Lemma throwsOnly_setKind (v : string) (k : Kind) : throwsOnly P (setKind v k).
Proof. intros s e s' H. discriminate H. Qed.

Lemma throwsOnly_pushError (d : SourceError) : throwsOnly P (pushError d).
Proof. intros s e s' H. discriminate H. Qed.

Lemma throwsOnly_bind {A B} (m : M A) (k : A -> M B) :
  throwsOnly P m -> (forall a, throwsOnly P (k a)) -> throwsOnly P (bind m k).
Proof.
  intros Hm Hk s e s'. unfold bind.
  destruct (m s) as [[a|e0|] s1] eqn:E; intros H.
  - eapply Hk; eauto.
  - injection H as <- _. eapply Hm; eauto.
  - discriminate H.
Qed.

(** What a [try] throws is what its handler throws. *)
Lemma throwsOnly_tryCatch {A} (m : M A) (h : Exn -> M A) :
  (forall e, throwsOnly P (h e)) -> throwsOnly P (tryCatch m h).
Proof.
  intros Hh s e s'. unfold tryCatch.
  destruct (m s) as [[a|e0|] s1] eqn:E; intros H; try discriminate H.
  eapply Hh; eauto.
Qed.

Lemma throwsOnly_mapM {A B} (f : A -> M B) (l : list A) :
  (forall x, throwsOnly P (f x)) -> throwsOnly P (mapM f l).
Proof.
  intros Hf. induction l as [|x l IH]; simpl.
  - apply throwsOnly_ret.
  - apply throwsOnly_bind; [apply Hf|]. intros y.
    apply throwsOnly_bind; [apply IH|]. intros ys. apply throwsOnly_ret.
Qed.
End ThrowsOnly.

Ltac throws_step :=
  match goal with
  | |- throwsOnly _ (ret _) => apply throwsOnly_ret
  | |- throwsOnly _ outOfFuel => apply throwsOnly_outOfFuel
  | |- throwsOnly _ getState => apply throwsOnly_getState
  | |- throwsOnly _ nextId => apply throwsOnly_nextId
  | |- throwsOnly _ (setKind _ _) => apply throwsOnly_setKind
  | |- throwsOnly _ (pushError _) => apply throwsOnly_pushError
  | |- throwsOnly _ (throw _) => apply throwsOnly_throw; reflexivity
  | |- throwsOnly _ (tryCatch _ _) => apply throwsOnly_tryCatch; intros ?
  | |- throwsOnly _ (bind _ _) => apply throwsOnly_bind; [|intros ?]
  | |- throwsOnly _ (mapM _ _) => apply throwsOnly_mapM; intros ?
  | |- throwsOnly _ (if ?b then _ else _) => destruct b
  | |- throwsOnly _ (match ?x with _ => _ end) => destruct x
  end.

Lemma annotate_throwsOnly (P : Exn -> Prop) (fuel : nat) (resolve : bool) (a : Ann) :
  throwsOnly P (annotate fuel resolve a).
Proof. unfold annotate, newTVar, tVar. repeat throws_step. Qed.

Lemma annotateFunction_throwsOnly (P : Exn -> Prop) (fuel : nat) (resolve : bool)
    (a : Ann) (f : option Ty) :
  throwsOnly P (annotateFunction fuel resolve a f).
Proof. unfold annotateFunction, tVar. repeat throws_step. Qed.

Lemma traverse_throwsOnly (fuel : nat) (resolve : bool) (node : Node) :
  throwsOnly (fun e => e = noDeclarator) (traverse fuel resolve node).
Proof.
  revert node. induction fuel as [|fuel IH]; intros node; cbn [traverse].
  - apply throwsOnly_outOfFuel.
  - apply throwsOnly_bind; [apply annotate_throwsOnly|]. intros a.
    destruct node; cbn [traverseChildren]; unfold traverseParam;
      repeat first [apply IH | apply annotate_throwsOnly
                   | apply annotateFunction_throwsOnly | throws_step].
Qed.

(** X20.  Neither pass of [traverse] lets an exception of the walker out: the
    one exception that [traverse] throws is the [TypeError] of the runtime
    on a variable declaration that has no declarator. *)
Theorem traverse_throws_on_missing_declarator_only (fuel : nat) (resolve : bool)
    (node : Node) (s s' : State) (e : Exn) :
  traverse fuel resolve node s = (Throw e, s') -> e = noDeclarator.
Proof. apply traverse_throwsOnly. Qed.

Lemma traverse_throws_on_missing_declarator_only_witness :
  exists s',
    traverse 5 true (Program (parsed 0) [VariableDeclaration (parsed 1) kconst []])
             initialState
      = (Throw noDeclarator, s').
Proof.
  destruct (traverse 5 true (Program (parsed 0) [VariableDeclaration (parsed 1) kconst []])
                     initialState) as [[n|e|] s'] eqn:E;
    [vm_compute in E; discriminate E| |vm_compute in E; discriminate E].
  exists s'. f_equal. f_equal.
  exact (traverse_throws_on_missing_declarator_only 5 true _ initialState s' e E).
Defined.

Lemma infer_throwsOnly (fuel : nat) (node : Node) (env : Env) (top : bool) :
  throwsOnly (fun e => isCyclic e = false) (infer fuel node env top).
Proof.
  destruct fuel as [|fuel]; cbn [infer]; [apply throwsOnly_outOfFuel|].
  apply throwsOnly_tryCatch. intros e. destruct (isCyclic e) eqn:E.
  - apply throwsOnly_ret.
  - by apply throwsOnly_throw.
Qed.

Lemma throwsOnly_mono (P Q : Exn -> Prop) {A} (m : M A) :
  (forall e, P e -> Q e) -> throwsOnly P m -> throwsOnly Q m.
Proof. intros HPQ Hm s e s' H. eapply HPQ, Hm, H. Qed.

(** X21.  [typeCheck] never throws the cyclic reference error of the unifier:
    [infer] catches it at every node, and the two traversals throw no
    internal error at all. *)
Theorem typeCheck_never_throws_cyclic_reference (fuel : nat) (program : Node)
    (s s' : State) (e : Exn) :
  typeCheck fuel program s = (Throw e, s') -> isCyclic e = false.
Proof.
  revert s e s'. change (throwsOnly (fun e => isCyclic e = false) (typeCheck fuel program)).
  assert (Ht : forall resolve n,
            throwsOnly (fun e => isCyclic e = false) (traverse fuel resolve n)).
  { intros resolve n. eapply throwsOnly_mono; [|apply traverse_throwsOnly].
    by intros e ->. }
  unfold typeCheck. cbv zeta.
  apply throwsOnly_bind; [intros s e s' H; discriminate H|]. intros _.
  apply throwsOnly_bind; [apply Ht|]. intros p.
  apply throwsOnly_bind; [apply infer_throwsOnly|]. intros _.
  apply throwsOnly_bind; [apply Ht|]. intros p'.
  apply throwsOnly_bind; [apply throwsOnly_getState|]. intros s0. apply throwsOnly_ret.
Qed.

Lemma typeCheck_never_throws_cyclic_reference_witness :
  typeCheck 50 program_returns_string_after_adding emptyState
    = (Throw (UnifyError tString tNumber),
       (typeCheck 50 program_returns_string_after_adding emptyState).2)
  /\ isCyclic (UnifyError tString tNumber) = false.
Proof.
  assert (H : typeCheck 50 program_returns_string_after_adding emptyState
              = (Throw (UnifyError tString tNumber),
                 (typeCheck 50 program_returns_string_after_adding emptyState).2))
    by (vm_compute; reflexivity).
  split; [exact H|].
  exact (typeCheck_never_throws_cyclic_reference 50 _ emptyState _ _ H).
Defined.

(** ** What the passes add *)

(** X22.  Neither [infer] nor [traverse] takes anything back, whatever their
    outcome: the store and the list of diagnostics that they leave begin
    with the store and the diagnostics that they found, and the counter has
    not gone down. *)
Theorem passes_take_nothing_back (fuel : nat) (node : Node) (env : Env)
    (top resolve : bool) (s : State) :
  grows s (infer fuel node env top s).2
  /\ grows s (traverse fuel resolve node s).2.
Proof.
  split.
  - eapply (infer_keeps grows grows_push grows_setKind grows_nextId);
      [intros d _; apply grows_pushError|apply surjective_pairing].
  - eapply (traverse_keeps grows grows_push grows_setKind grows_nextId);
      [intros d _; apply grows_pushError|apply surjective_pairing].
Qed.

Lemma appends_same (P : SourceError -> Prop) {A} (m : M A) :
  preserves sameErrors m -> preserves (appends P) m.
Proof.
  intros Hm s r s' H. exists []. split; [|constructor].
  rewrite app_nil_r. exact (Hm s r s' H).
Qed.

Lemma appends_pushError (P : SourceError -> Prop) (d : SourceError) :
  P d -> preserves (appends P) (pushError d).
Proof.
  intros Hd s r s' [= _ <-]. exists [d]. split; [reflexivity|].
  by constructor.
Qed.

Lemma appends_passes (P : SourceError -> Prop) :
  (forall LHS RHS, preserves (appends P) (push LHS RHS))
  /\ (forall v k, preserves (appends P) (setKind v k))
  /\ preserves (appends P) nextId.
Proof.
  repeat split; intros; apply appends_same; intros s r s' [= _ <-]; reflexivity.
Qed.

(** X23.  The diagnostics that name a fault of the program are recorded by
    [infer] and by [infer] alone; the resolution pass records nothing but
    the two diagnostics that wrap an internal error, and the decoration
    pass records nothing.  In the array that [typeCheck] returns the
    diagnostics of the program come first. *)
Theorem typeCheck_diagnostics_by_pass (fuel : nat) (program annotated : Node)
    (errors : list SourceError) (s s' : State) :
  typeCheck fuel program s = (Ok (annotated, errors), s') ->
  exists fromInfer fromResolution,
    errors = (fromInfer ++ fromResolution)%list
    /\ Forall (fun d => userDiagnostic d = true) fromInfer
    /\ Forall (fun d => userDiagnostic d = false) fromResolution.
Proof.
  unfold typeCheck. cbv zeta. intros H.
  apply bind_Ok in H as ([] & s0 & Hreset & H). injection Hreset as <-.
  apply bind_Ok in H as (p1 & s1 & H1 & H).
  apply bind_Ok in H as ([] & s2 & H2 & H).
  apply bind_Ok in H as (p2 & s3 & H3 & H).
  apply bind_Ok in H as (s4 & s5 & H4 & H). injection H4 as <- <-.
  injection H as <- <- <-.
  assert (E1 : sameStoreAndErrors initialState s1).
  { eapply (decoration_keeps sameStoreAndErrors); [| |exact H1].
    - intros v k x r x' [= _ <-]. split; reflexivity.
    - intros x r x' [= _ <-]. split; reflexivity. }
  destruct E1 as [_ E1]. simpl in E1.
  destruct (appends_passes (fun d => userDiagnostic d = true)) as (Ha & Hb & Hc).
  destruct (appends_passes (fun d => userDiagnostic d = false)) as (Ha' & Hb' & Hc').
  assert (E2 : appends (fun d => userDiagnostic d = true) s1 s2).
  { eapply (infer_keeps _ Ha Hb Hc); [|exact H2].
    intros d Hd. by apply appends_pushError. }
  assert (E3 : appends (fun d => userDiagnostic d = false) s2 s3).
  { eapply (traverse_keeps _ Ha' Hb' Hc'); [|exact H3].
    intros d Hd. by apply appends_pushError. }
  destruct E2 as (a2 & E2 & F2). destruct E3 as (a3 & E3 & F3).
  exists a2, a3. rewrite E3, E2, E1. auto.
Qed.

Lemma typeCheck_diagnostics_by_pass_witness :
  exists annotated errors s' fromInfer fromResolution,
    typeCheck 50 (Program (parsed 0)
                    [ExpressionStatement (parsed 1) (Identifier (parsed 2) "x")])
              emptyState
      = (Ok (annotated, errors), s')
    /\ errors = (fromInfer ++ fromResolution)%list
    /\ Forall (fun d => userDiagnostic d = true) fromInfer
    /\ Forall (fun d => userDiagnostic d = false) fromResolution.
Proof.
  destruct (typeCheck 50 (Program (parsed 0)
                            [ExpressionStatement (parsed 1) (Identifier (parsed 2) "x")])
                      emptyState) as [[[annotated errors]|e|] s'] eqn:E;
    [|vm_compute in E; discriminate E|vm_compute in E; discriminate E].
  destruct (typeCheck_diagnostics_by_pass 50 _ annotated errors emptyState s' E)
    as (a & b & H).
  exists annotated, errors, s', a, b. split; [reflexivity|exact H].
Defined.

(** ** The decoration pass *)













(** ** What the traversals leave of the tree *)

Lemma mapM_fmap_eq {X Y} (F : X -> M X) (g : X -> Y) (l l' : list X) (s s' : State) :
  (forall x x' s s', F x s = (Ok x', s') -> g x' = g x) ->
  mapM F l s = (Ok l', s') -> g <$> l' = g <$> l.
Proof.
  intros HF. revert l' s. induction l as [|x l IH]; intros l' s H; simpl in H.
  - by injection H as <- _.
  - inv_run. rewrite !fmap_cons. f_equal; eauto.
Qed.

Lemma traverseParam_loc (fuel : nat) (resolve : bool) (p p' : Ann * string) (s s' : State) :
  traverseParam fuel resolve p s = (Ok p', s') ->
  (parsed (loc p'.1), p'.2) = (parsed (loc p.1), p.2).
Proof.
  unfold traverseParam. intros H. inv_run. simpl. f_equal. f_equal.
  by eapply annotate_loc.
Qed.

Lemma annotateFunction_loc (fuel : nat) (resolve : bool) (a : Ann) (f : option Ty)
    (r : Ann * option Ty) (s s' : State) :
  annotateFunction fuel resolve a f s = (Ok r, s') -> loc r.1 = loc a.
Proof. intros H. by apply annotateFunction_ann in H as [->|[_ ->]]. Qed.

Lemma traverse_unannotated (fuel : nat) (resolve : bool) (node node' : Node)
    (s s' : State) :
  traverse fuel resolve node s = (Ok node', s') -> unannotated node' = unannotated node.
Proof.
  revert node node' s s'. induction fuel as [|fuel IH]; intros node node' s s' H;
    [discriminate H|].
  cbn [traverse] in H. apply bind_Ok in H as (a & s1 & Ha & H).
  apply annotate_loc in Ha.
  destruct node; cbn [traverseChildren] in H;
    try match goal with
        | alternate : option Node |- _ => destruct alternate
        | declarations : list (option string * Node) |- _ =>
            destruct declarations as [|[? ?] ?]
        end;
    inv_run;
    repeat match goal with
           | H : traverse fuel resolve _ _ = (Ok _, _) |- _ => apply IH in H
           | H : mapM (traverse fuel resolve) _ _ = (Ok _, _) |- _ =>
               apply (mapM_fmap_eq _ unannotated) in H; [|exact IH]
           | H : mapM (traverseParam fuel resolve) _ _ = (Ok _, _) |- _ =>
               apply (mapM_fmap_eq _ (fun p => (parsed (loc p.1), p.2))) in H;
               [|apply traverseParam_loc]
           | H : annotateFunction fuel resolve _ _ _ = (Ok _, _) |- _ =>
               apply annotateFunction_loc in H
           end;
    cbn [unannotated ann] in *; congruence.
Qed.

(** X25.  [typeCheck] returns the tree that it was given, changed in the fields
    that [traverse] writes and in nothing else: the kinds of the nodes,
    their children, operators, names and locations are those of the
    program. *)
Theorem typeCheck_changes_annotations_only (fuel : nat) (program annotated : Node)
    (errors : list SourceError) (s s' : State) :
  typeCheck fuel program s = (Ok (annotated, errors), s') ->
  unannotated annotated = unannotated program.
Proof.
  unfold typeCheck. cbv zeta. intros H.
  apply bind_Ok in H as ([] & s0 & _ & H).
  apply bind_Ok in H as (p1 & s1 & H1 & H).
  apply bind_Ok in H as ([] & s2 & _ & H).
  apply bind_Ok in H as (p2 & s3 & H3 & H).
  apply bind_Ok in H as (s4 & s5 & _ & H). injection H as <- _ _.
  apply traverse_unannotated in H1, H3. congruence.
Qed.

Lemma typeCheck_changes_annotations_only_witness :
  exists annotated errors s',
    typeCheck 50 program_adds_booleans emptyState = (Ok (annotated, errors), s')
    /\ unannotated annotated = unannotated program_adds_booleans.
Proof.
  destruct (typeCheck 50 program_adds_booleans emptyState)
    as [[[annotated errors]|e|] s'] eqn:E;
    [|vm_compute in E; discriminate E|vm_compute in E; discriminate E].
  exists annotated, errors, s'. split; [reflexivity|].
  exact (typeCheck_changes_annotations_only 50 _ annotated errors emptyState s' E).
Defined.

(** ** Edges of the passes *)



(** X16.  An empty block has no statement whose value could be its value:
    [infer] throws the [TypeError] of the runtime on it, at the top level and
    inside, and changes nothing. *)
Theorem infer_throws_on_empty_block (fuel : nat) (a : Ann) (env : Env) (top : bool)
    (s : State) :
  exists message,
    infer (S fuel) (BlockStatement a []) env top s = (Throw (JsError message), s)
    /\ infer (S fuel) (Program a []) env top s = (Throw (JsError message), s).
Proof. eexists. destruct top; split; reflexivity. Qed.

(** X17.  Inside a function body or a nested block, an if statement without an
    else branch that stands before the last statement and whose branch
    holds no return statement makes [infer] throw the [TypeError] of the
    runtime: the search for the value statement of the block reads the type
    of the missing branch. *)
Theorem infer_throws_on_if_without_else (fuel : nat) (b a : Ann) (test consequent : Node)
    (rest : list Node) (env : Env) (s : State) :
  statementHasReturn consequent = Some false ->
  rest <> [] ->
  exists message,
    infer (S fuel) (BlockStatement b (IfStatement a test consequent None :: rest)) env
          false s
      = (Throw (JsError message), s).
Proof.
  intros Hc Hrest. eexists. cbn [infer _infer]. unfold inferBlock.
  assert (E : returnBlockValueNodeIndexFor (IfStatement a test consequent None :: rest) false
              = None).
  { unfold returnBlockValueNodeIndexFor. cbn [findIndex statementHasReturn].
    rewrite Hc. cbn [orElse length].
    rewrite bool_decide_eq_false_2; [reflexivity|].
    destruct rest; [done|]. simpl. lia. }
  rewrite E. reflexivity.
Qed.

Lemma infer_throws_on_if_without_else_witness :
  exists message,
    infer 5 (BlockStatement (parsed 0)
               [IfStatement (parsed 1) (Literal (parsed 2) (LBoolean true))
                  (BlockStatement (parsed 3) []) None;
                ReturnStatement (parsed 4) (Literal (parsed 5) LNumber)])
          initialEnv false emptyState
      = (Throw (JsError message), emptyState).
Proof.
  apply (infer_throws_on_if_without_else 4 (parsed 0) (parsed 1)); [reflexivity|discriminate].
Defined.

(** X18.  A name that the environment does not hold is no exception: [infer]
    records one UndefinedIdentifierError for the identifier, adds no
    constraint and returns. *)
Theorem undefined_identifier_is_a_diagnostic (fuel : nat) (a : Ann) (name : string)
    (env : Env) (top : bool) (s : State) :
  typeMap env !! name = None ->
  infer (S fuel) (Identifier a name) env top s
    = (Ok tt, mkState (constraints s) (kinds s) (typeIdCounter s)
                      (typeErrors s ++ [UndefinedIdentifierError (loc a) name])).
Proof. intros H. cbn [infer _infer]. rewrite H. reflexivity. Qed.

Lemma undefined_identifier_is_a_diagnostic_witness :
  infer 1 (Identifier (parsed 3) "x") initialEnv false emptyState
    = (Ok tt, mkState [] ∅ 0 [UndefinedIdentifierError 3 "x"]).
Proof.
  apply (undefined_identifier_is_a_diagnostic 0 (parsed 3) "x" initialEnv false emptyState).
  vm_compute. reflexivity.
Defined.

(** X11.  A variable that has no entry in the store resolves to itself, and the
    store is left as it is. *)
Theorem unbound_variable_resolves_to_itself (fuel : nat) (v : string) (s : State) :
  firstEntry v (constraints s) = None ->
  applyConstraints (S (S fuel)) (TVariable v) s = (Ok (TVariable v), s).
Proof.
  intros H. cbn [applyConstraints __applyConstraints].
  unfold bind, getState. rewrite H. reflexivity.
Qed.

Lemma unbound_variable_resolves_to_itself_witness :
  applyConstraints 2 (TVariable "T1") (mkState [("T0", tNumber)] ∅ 0 [])
    = (Ok (TVariable "T1"), mkState [("T0", tNumber)] ∅ 0 []).
Proof.
  apply (unbound_variable_resolves_to_itself 0 "T1" (mkState [("T0", tNumber)] ∅ 0 [])).
  reflexivity.
Defined.

(** ** The initial environment *)

Lemma newMap_const {V} (entries : list (string * V)) (k : DeclKind) (name : string) :
  newMap (map (fun val => (val.1, k)) entries) !! name
    = (fun _ => k) <$> (newMap entries !! name).
Proof.
  unfold newMap.
  assert (H : forall (m : gmap string V) (m' : gmap string DeclKind),
            (forall x, m' !! x = (fun _ => k) <$> (m !! x)) ->
            forall x,
              fold_left (fun m p => <[p.1 := p.2]> m) (map (fun val => (val.1, k)) entries) m'
                !! x
              = (fun _ => k)
                  <$> (fold_left (fun m p => <[p.1 := p.2]> m) entries m !! x)).
  { induction entries as [|[n v] entries IH]; intros m m' Hm x; simpl; [apply Hm|].
    apply IH. intros y. destruct (decide (n = y)) as [->|Hne].
    - by rewrite !lookup_insert_eq.
    - by rewrite !lookup_insert_ne. }
  apply H. intros x. by rewrite !lookup_empty.
Qed.

(** X27.  The initial environment declares as const every name that it gives a
    type to, and no other name: an assignment to a predeclared name is a
    reassignment of a constant. *)
Theorem initialEnv_declares_its_names_const (name : string) :
  declKindMap initialEnv !! name = (fun _ => kconst) <$> (typeMap initialEnv !! name).
Proof. apply newMap_const. Qed.

(** ** Literals *)

(** The addition of [v = t] for a variable [v] that has no entry. *)
Lemma addToConstraintList_unbound (fuel : nat) (v : string) (t t' : Ty) (s s1 : State) :
  hasName t v = false ->
  contains t v = false ->
  cannotBeResolvedIfAddable (kindOf s v) t = false ->
  applyConstraints (S fuel) t s = (Ok t', s1) ->
  firstEntry v (constraints s1) = None ->
  (forall n, t' <> TVariable n) ->
  addToConstraintList (S (S fuel)) (TVariable v) t s
    = (Ok tt, mkState (constraints s1 ++ [(v, t')]) (kinds s1) (typeIdCounter s1)
                      (typeErrors s1)).
Proof.
  intros Hn Hc Hk Happ Hfirst Hvar.
  cbn [addToConstraintList]. rewrite Hn, Hc.
  unfold bind at 1, getState at 1. rewrite Hk.
  erewrite bind_run by exact Happ.
  cbn [occursOnLeftInConstraintList].
  unfold bind at 1, getState at 1. rewrite Hfirst.
  destruct t'; try reflexivity. by destruct (Hvar name).
Qed.

(** X19.  What [infer] does with a literal whose variable [v] is not bound yet
    and not addable, as the decoration pass leaves it.  For a number, a
    boolean or a string the store gets the one entry that binds [v] to the
    primitive type.  For [null] a new variable is drawn from the counter
    and [v] is bound to the list of it, in the form that [applyConstraints]
    gives a list: the pair of the element type and the list.  Any other
    literal, such as a regular expression, makes [infer] throw the Error
    ['Unexpected literal type']. *)
Theorem infer_binds_the_variable_of_a_literal (fuel : nat) (a : Ann) (v : string)
    (value : LiteralValue) (env : Env) (top : bool) (s : State) :
  inferredType a = Some (TVariable v) ->
  firstEntry v (constraints s) = None ->
  kindOf s v = none ->
  v <> nameOf (typeIdCounter s) ->
  firstEntry (nameOf (typeIdCounter s)) (constraints s) = None ->
  let bound (t : Ty) :=
    mkState (constraints s ++ [(v, t)]) (kinds s) (typeIdCounter s) (typeErrors s) in
  let element := TVariable (nameOf (typeIdCounter s)) in
  infer (5 + fuel) (Literal a value) env top s
    = match value with
      | LNumber => (Ok tt, bound tNumber)
      | LBoolean _ => (Ok tt, bound tBool)
      | LString _ => (Ok tt, bound tString)
      | LNull =>
          (Ok tt, mkState (constraints s ++ [(v, TPair element (TList element))])
                          (<[nameOf (typeIdCounter s) := none]> (kinds s))
                          (S (typeIdCounter s)) (typeErrors s))
      | LRegExp => (Throw (JsError "Unexpected literal type"), s)
      end.
Proof.
  intros Ha Hv Hk Hne Hc bound element.
  change (5 + fuel) with (S (S (S (S (S fuel))))).
  cbn [infer _infer]. unfold tryCatch.
  assert (Hty : typeOfAnn a s = (Ok (TVariable v), s))
    by (unfold typeOfAnn; rewrite Ha; reflexivity).
  erewrite bind_run by exact Hty.
  assert (Hprim : forall p,
            addToConstraintList (S (S (S (S fuel)))) (TVariable v) (TPrimitive p) s
            = (Ok tt, bound (TPrimitive p))).
  { intros p. apply addToConstraintList_unbound; try reflexivity; try discriminate.
    - rewrite Hk. reflexivity.
    - exact Hv. }
  destruct value.
  - set (s1 := mkState (constraints s) (<[nameOf (typeIdCounter s) := none]> (kinds s))
                       (S (typeIdCounter s)) (typeErrors s)).
    assert (Hnew : newTVar s = (Ok element, s1)) by reflexivity.
    erewrite bind_run by exact Hnew.
    rewrite (addToConstraintList_unbound _ v (tList element)
               (TPair element (TList element)) s1 s1); [reflexivity|..].
    + reflexivity.
    + simpl. apply bool_decide_eq_false_2. congruence.
    + unfold kindOf, s1; simpl. rewrite lookup_insert_ne by congruence.
      fold (kindOf s v). rewrite Hk. reflexivity.
    + cbn [applyConstraints __applyConstraints tList].
      unfold bind, getState, element, s1. cbn [constraints]. rewrite Hc. reflexivity.
    + exact Hv.
    + discriminate.
  - pose proof (Hprim number) as E. change (TPrimitive number) with tNumber in E.
    by rewrite E.
  - pose proof (Hprim boolean) as E. change (TPrimitive boolean) with tBool in E.
    by rewrite E.
  - pose proof (Hprim string_) as E. change (TPrimitive string_) with tString in E.
    by rewrite E.
  - reflexivity.
Qed.

Lemma infer_binds_the_variable_of_a_literal_witness :
  infer 5 (Literal (mkAnn 1 (Some (TVariable "T0")) NotYetTyped) LNull) initialEnv false
        (mkState [] ∅ 1 [])
    = (Ok tt, mkState [("T0", TPair (TVariable "T1") (TList (TVariable "T1")))]
                      (<["T1" := none]> ∅) 2 []).
Proof.
  apply (infer_binds_the_variable_of_a_literal 0
           (mkAnn 1 (Some (TVariable "T0")) NotYetTyped) "T0" LNull initialEnv false
           (mkState [] ∅ 1 []));
    [reflexivity|reflexivity|reflexivity|discriminate|reflexivity].
Defined.

(** ** Bindings are permanent *)

Lemma firstEntry_prefix (v : string) (l1 l2 : list ConstraintEntry) (entry : ConstraintEntry) :
  l1 `prefix_of` l2 -> firstEntry v l1 = Some entry -> firstEntry v l2 = Some entry.
Proof.
  intros [k ->]. unfold firstEntry. induction l1 as [|c l1 IH]; simpl; [discriminate|].
  destruct (bool_decide (c.1 = v)); [done|]. exact IH.
Qed.

(** X28.  The entry that a lookup finds for a variable never changes once the
    variable has one: the unifier, [infer] and [traverse] only append to
    the store, and a lookup stops at the first entry of the variable. *)
Theorem first_entry_of_a_variable_is_permanent (fuel : nat) (node : Node) (env : Env)
    (top resolve : bool) (LHS RHS : Ty) (s : State) (v : string)
    (entry : ConstraintEntry) :
  firstEntry v (constraints s) = Some entry ->
  firstEntry v (constraints (addToConstraintList fuel LHS RHS s).2) = Some entry
  /\ firstEntry v (constraints (infer fuel node env top s).2) = Some entry
  /\ firstEntry v (constraints (traverse fuel resolve node s).2) = Some entry.
Proof.
  intros H.
  assert (Hadd : grows s (addToConstraintList fuel LHS RHS s).2).
  { destruct (unifier_preserves grows grows_push grows_setKind fuel) as (Hadd & _).
    eapply Hadd. apply surjective_pairing. }
  assert (Hinf : grows s (infer fuel node env top s).2).
  { eapply (infer_keeps grows grows_push grows_setKind grows_nextId);
      [intros d _; apply grows_pushError|apply surjective_pairing]. }
  assert (Htrav : grows s (traverse fuel resolve node s).2).
  { eapply (traverse_keeps grows grows_push grows_setKind grows_nextId);
      [intros d _; apply grows_pushError|apply surjective_pairing]. }
  destruct Hadd as [Hadd _], Hinf as [Hinf _], Htrav as [Htrav _].
  repeat split; eapply firstEntry_prefix; eassumption.
Qed.

Lemma first_entry_of_a_variable_is_permanent_witness :
  firstEntry "T0" (constraints (mkState [("T0", tNumber)] ∅ 1 [])) = Some ("T0", tNumber)
  /\ firstEntry "T0"
       (constraints (addToConstraintList 10 (TVariable "T0") (TVariable "T1")
                       (mkState [("T0", tNumber)] ∅ 1 [])).2)
     = Some ("T0", tNumber).
Proof.
  split; [reflexivity|].
  exact (proj1 (first_entry_of_a_variable_is_permanent 10 (OtherNode (parsed 0) "")
                  initialEnv false false (TVariable "T0") (TVariable "T1")
                  (mkState [("T0", tNumber)] ∅ 1 []) "T0" ("T0", tNumber) eq_refl)).
Defined.

(** ** The step of the resolution pass on a node *)


